(** * preCICE mapping core: gather/scatter channel, nearest-neighbour mapping
      and the P-Greedy kernel solver

    Shallow embedding of
    - [src/m2n/GatherScatterCommunication.cpp]
    - [src/mapping/NearestNeighborMapping.cpp]
    - [src/mapping/PGreedySolver.hpp]

    Conventions of the embedding.
    - A C++ [double] is a real number: all arithmetic is exact.  Rounding,
      infinities and NaN are outside the model.  Module [binary64] repeats
      the P-Greedy constructor on binary64 numbers, to run it where rounding
      decides what it does.
    - [int] and [size_t] values used as sizes, ranks and indices are natural
      numbers; wrap-around of these counters is outside the model.
    - A run either returns a value or has no defined result: a failed
      assertion, an exception, or an access outside a container all end in
      [Aborts].  State is passed explicitly. *)

From Stdlib Require Import Reals Lra Lia.
From Stdlib Require PrimFloat.
From stdpp Require Import base option list gmap.

(** ** Outcomes of a run *)

Inductive Failure : Type :=
| AssertionFailed   (* PRECICE_ASSERT / P_ASSERT / eigen_assert *)
| OutOfRange        (* container access outside its bounds *)
| EmptyMatrix       (* reduction over an empty Eigen object *)
| DivisionByZero    (* integer division by zero *)
| NoMatchingSend    (* blocking receive with nothing posted *)
| SizeMismatch.     (* a message whose length is not the requested one *)

Inductive Outcome (A : Type) : Type :=
| Returns (a : A)
| Aborts (f : Failure).
Arguments Returns {A} a.
Arguments Aborts {A} f.

#[global] Instance Outcome_ret : MRet Outcome := λ A a, Returns a.
#[global] Instance Outcome_bind : MBind Outcome :=
  λ A B k m, match m with Returns a => k a | Aborts f => Aborts f end.

(** Modelled from the spec: the assertion macros ([PRECICE_ASSERT],
    [P_ASSERT]) are not defined in the sources at hand; a violated
    pre-condition is a programming error that aborts (spec section 7). *)
Definition PRECICE_ASSERT (b : bool) : Outcome unit :=
  if b then Returns () else Aborts AssertionFailed.

(** [for (i = first; i < first + count; ++i) body] *)
Fixpoint for_loop {St : Type} (first count : nat)
    (body : nat → St → Outcome St) (s : St) : Outcome St :=
  match count with
  | 0 => Returns s
  | S c => s' ← body first s; for_loop (S first) c body s'
  end.

(** ** Dense vectors of doubles *)

Definition coeff (v : list R) (k : nat) : R := default 0%R (v !! k).

Definition Rsum (v : list R) : R := foldr Rplus 0%R v.

Definition readAt {A : Type} (v : list A) (k : nat) : Outcome A :=
  match v !! k with
  | Some x => Returns x
  | None => Aborts OutOfRange
  end.

Definition writeAt {A : Type} (v : list A) (k : nat) (x : A) : Outcome (list A) :=
  if decide (k < length v) then Returns (<[k:=x]> v) else Aborts OutOfRange.

(** The loop nest
    [for i < count: for j < D: dst[idx[i]*D + j] += src[i*D + j]]
    of GatherScatterCommunication.cpp:81-85 and :94-98 and of
    NearestNeighborMapping.cpp:126-131.  The gather reads [idx[i]] inside
    the inner loop and the mapping reads it before; [i] is fixed there, so
    the read is done once. *)
Definition accumulateLoop (count : nat) (idx : list nat) (D : nat)
    (src dst : list R) : Outcome (list R) :=
  for_loop 0 count (λ i dst,
    g ← readAt idx i;
    for_loop 0 D (λ j dst,
      x ← readAt src (i * D + j);
      old ← readAt dst (g * D + j);
      writeAt dst (g * D + j) (old + x)%R) dst) dst.

(** The loop nest
    [for i < count: for j < D: dst[i*D + j] = src[idx[i]*D + j]]
    of GatherScatterCommunication.cpp:141-145 and :153-157 and of
    NearestNeighborMapping.cpp:115-120. *)
Definition assignLoop (count : nat) (idx : list nat) (D : nat)
    (src dst : list R) : Outcome (list R) :=
  for_loop 0 count (λ i dst,
    g ← readAt idx i;
    for_loop 0 D (λ j dst,
      x ← readAt src (g * D + j);
      writeAt dst (i * D + j) x) dst) dst.

(** ** Meshes *)

Module mesh.

(** Modelled from the spec: the mesh classes are external collaborators
    (spec sections 3 and 6); only the members the three sources use are
    kept. *)
Record Vertex : Type := {
  rawCoords : R * R * R;        (* std::array<double, 3> *)
  getID : nat
}.

Record Data : Type := {
  values : list R;
  getDimensions : nat
}.

Record Mesh : Type := {
  vertices : list Vertex;
  data : gmap nat Data;
  getVertexDistribution : gmap nat (list nat); (* std::map<int, std::vector<int>> *)
  getGlobalNumberOfVertices : nat
}.

Definition setData (m : Mesh) (id : nat) (d : Data) : Mesh :=
  {| vertices := vertices m;
     data := <[id := d]> (data m);
     getVertexDistribution := getVertexDistribution m;
     getGlobalNumberOfVertices := getGlobalNumberOfVertices m |}.

Definition getData (m : Mesh) (id : nat) : Outcome Data :=
  match data m !! id with
  | Some d => Returns d
  | None => Aborts AssertionFailed
  end.

End mesh.

(** ** Closed forms of the two loop nests *)

Definition addAt (k : nat) (x : R) (v : list R) : list R :=
  <[k := (coeff v k + x)%R]> v.

(** [dst[idx[i]*D + j] += src[i*D + j]] for the positions [i] of the list
    [positions], in that order, and [j] ascending below [D]. *)
Definition scatterAddOver (positions idx : list nat) (D : nat) (src dst : list R)
    : list R :=
  foldl (λ dst i,
    foldl (λ dst j, addAt (nth i idx 0 * D + j) (coeff src (i * D + j)) dst)
          dst (seq 0 D))
    dst positions.

Definition scatterAdd (idx : list nat) (D : nat) (src dst : list R) : list R :=
  scatterAddOver (seq 0 (length idx)) idx D src dst.

(** [dst[i*D + j] = src[idx[i]*D + j]] for [i] ascending below the length of
    [idx] and [j] ascending below [D]. *)
Definition copyFrom (idx : list nat) (D : nat) (src dst : list R) : list R :=
  foldl (λ dst i,
    foldl (λ dst j, <[i * D + j := coeff src (nth i idx 0 * D + j)]> dst)
          dst (seq 0 D))
    dst (seq 0 (length idx)).

(** Sum of the entries [src[i*D + d]] over the positions [i] of [positions]
    at which [idx] holds the index [g]. *)
Definition contribution (positions idx : list nat) (D : nat) (src : list R)
    (g d : nat) : R :=
  Rsum ((λ i, coeff src (i * D + d)) <$>
        filter (λ i, idx !! i = Some g) positions).

(** ** Transport layers *)

Module com.

(** Modelled from the spec: the two transport layers (intra-participant
    worker link, inter-participant coupling link) are external
    collaborators (spec section 6): reliable channels on which the
    messages of one sender arrive in the order they were sent, with
    [send(buf, n, rank)] and a blocking [receive(buf, n, rank)]. *)
Record World : Type := {
  toCoordinator : gmap nat (list (list R)); (* worker r -> coordinator *)
  toWorker : gmap nat (list (list R));      (* coordinator -> worker r *)
  toPeer : list (list R);                   (* coordinator -> peer rank 0 *)
  fromPeer : list (list R)                  (* peer rank 0 -> coordinator *)
}.

Definition idle : World :=
  {| toCoordinator := ∅; toWorker := ∅; toPeer := []; fromPeer := [] |}.

(** The first [n] doubles behind a pointer. *)
Definition buffer (buf : list R) (n : nat) : Outcome (list R) :=
  if decide (n ≤ length buf) then Returns (take n buf) else Aborts OutOfRange.

Definition fetch (n : nat) (q : list (list R))
    : Outcome (list R * list (list R)) :=
  match q with
  | [] => Aborts NoMatchingSend
  | m :: q' =>
      if decide (length m = n) then Returns (m, q') else Aborts SizeMismatch
  end.

(** [receive(buf, n, _)]: the message overwrites the first [n] doubles. *)
Definition store (buf : list R) (n : nat) (msg : list R) : Outcome (list R) :=
  if decide (n ≤ length buf) then Returns (msg ++ drop n buf)
  else Aborts OutOfRange.

Definition sendToCoordinator (r : nat) (msg : list R) (w : World) : World :=
  {| toCoordinator := <[r := (toCoordinator w !!! r) ++ [msg]]> (toCoordinator w);
     toWorker := toWorker w; toPeer := toPeer w; fromPeer := fromPeer w |}.

Definition receiveFromWorker (r n : nat) (w : World)
    : Outcome (list R * World) :=
  '(msg, q) ← fetch n (toCoordinator w !!! r);
  Returns (msg,
    {| toCoordinator := <[r := q]> (toCoordinator w);
       toWorker := toWorker w; toPeer := toPeer w; fromPeer := fromPeer w |}).

Definition sendToWorker (r : nat) (msg : list R) (w : World) : World :=
  {| toCoordinator := toCoordinator w;
     toWorker := <[r := (toWorker w !!! r) ++ [msg]]> (toWorker w);
     toPeer := toPeer w; fromPeer := fromPeer w |}.

Definition receiveFromCoordinator (r n : nat) (w : World)
    : Outcome (list R * World) :=
  '(msg, q) ← fetch n (toWorker w !!! r);
  Returns (msg,
    {| toCoordinator := toCoordinator w;
       toWorker := <[r := q]> (toWorker w);
       toPeer := toPeer w; fromPeer := fromPeer w |}).

Definition sendToPeer (msg : list R) (w : World) : World :=
  {| toCoordinator := toCoordinator w; toWorker := toWorker w;
     toPeer := toPeer w ++ [msg]; fromPeer := fromPeer w |}.

Definition receiveFromPeer (n : nat) (w : World) : Outcome (list R * World) :=
  '(msg, q) ← fetch n (fromPeer w);
  Returns (msg,
    {| toCoordinator := toCoordinator w; toWorker := toWorker w;
       toPeer := toPeer w; fromPeer := q |}).

(** The peer hands every vector it was sent straight back. *)
Definition identityCoupling (w : World) : World :=
  {| toCoordinator := toCoordinator w; toWorker := toWorker w;
     toPeer := []; fromPeer := fromPeer w ++ toPeer w |}.

End com.

(** ** GatherScatterCommunication *)

Module GatherScatterCommunication.
Import mesh com.

(** Modelled from the spec: [utils::MasterSlave], the process-wide
    description of rank, size and intra-participant link (spec section 9),
    as one process sees it. *)
Record MasterSlave : Type := {
  isMaster : bool;
  isSlave : bool;
  getRank : nat;
  getSize : nat;
  isConnected : bool
}.

(** The assertions that open [send] and [receive].  The link pointer and its
    connection are one flag here, and a rank is a natural number, so the
    assertion that it is not [-1] has nothing to check. *)
Definition preconditions (ms : MasterSlave) : Outcome unit :=
  _ ← PRECICE_ASSERT (isSlave ms || isMaster ms);
  _ ← PRECICE_ASSERT (isConnected ms);
  PRECICE_ASSERT (bool_decide (1 < getSize ms)).

Definition send (ms : MasterSlave) (_mesh : Mesh) (itemsToSend : list R)
    (size valueDimension : nat) (w : World) : Outcome World :=
  _ ← preconditions ms;
  if isSlave ms then
    if bool_decide (0 < size) then
      msg ← buffer itemsToSend size;
      Returns (sendToCoordinator (getRank ms) msg w)
    else Returns w
  else
    _ ← PRECICE_ASSERT (bool_decide (getRank ms = 0));
    let vertexDistribution := getVertexDistribution _mesh in
    let globalSize := getGlobalNumberOfVertices _mesh * valueDimension in
    let globalItemsToSend := replicate globalSize 0%R in
    (* Master data *)
    globalItemsToSend ←
      accumulateLoop (length (vertexDistribution !!! 0))
                     (vertexDistribution !!! 0) valueDimension
                     itemsToSend globalItemsToSend;
    (* Slaves data *)
    '(globalItemsToSend, w) ←
      for_loop 1 (getSize ms - 1) (λ rankSlave '(globalItemsToSend, w),
        let slaveSize :=
          length (vertexDistribution !!! rankSlave) * valueDimension in
        if bool_decide (0 < slaveSize) then
          '(valuesSlave, w) ← receiveFromWorker rankSlave slaveSize w;
          globalItemsToSend ←
            accumulateLoop (length (vertexDistribution !!! rankSlave))
                           (vertexDistribution !!! rankSlave) valueDimension
                           valuesSlave globalItemsToSend;
          Returns (globalItemsToSend, w)
        else Returns (globalItemsToSend, w)) (globalItemsToSend, w);
    (* Send data to other master *)
    msg ← buffer globalItemsToSend globalSize;
    Returns (sendToPeer msg w).

Definition receive (ms : MasterSlave) (_mesh : Mesh) (itemsToReceive : list R)
    (size valueDimension : nat) (w : World) : Outcome (list R * World) :=
  _ ← preconditions ms;
  (* Receive data at master *)
  '(globalItemsToReceive, w) ←
    (if isMaster ms then
       receiveFromPeer (getGlobalNumberOfVertices _mesh * valueDimension) w
     else Returns ([], w));
  (* Scatter data *)
  if isSlave ms then
    if bool_decide (0 < size) then
      '(msg, w) ← receiveFromCoordinator (getRank ms) size w;
      itemsToReceive ← store itemsToReceive size msg;
      Returns (itemsToReceive, w)
    else Returns (itemsToReceive, w)
  else
    _ ← PRECICE_ASSERT (bool_decide (getRank ms = 0));
    let vertexDistribution := getVertexDistribution _mesh in
    (* Master data *)
    itemsToReceive ←
      assignLoop (length (vertexDistribution !!! 0))
                 (vertexDistribution !!! 0) valueDimension
                 globalItemsToReceive itemsToReceive;
    (* Slaves data *)
    w ← for_loop 1 (getSize ms - 1) (λ rankSlave w,
        let slaveSize :=
          length (vertexDistribution !!! rankSlave) * valueDimension in
        if bool_decide (0 < slaveSize) then
          valuesSlave ←
            assignLoop (length (vertexDistribution !!! rankSlave))
                       (vertexDistribution !!! rankSlave) valueDimension
                       globalItemsToReceive (replicate slaveSize 0%R);
          msg ← buffer valuesSlave slaveSize;
          Returns (sendToWorker rankSlave msg w)
        else Returns w) w;
    Returns (itemsToReceive, w).

(** *** One participant with [N] ranks *)

Definition process (N r : nat) : MasterSlave :=
  {| isMaster := bool_decide (r = 0);
     isSlave := bool_decide (r ≠ 0);
     getRank := r;
     getSize := N;
     isConnected := true |}.

(** Every rank calls [send] with its local vector; a worker's message is
    posted before the coordinator asks for it. *)
Definition sendOnAllRanks (N : nat) (_mesh : Mesh) (valueDimension : nat)
    (localItems : nat → list R) (w : World) : Outcome World :=
  w ← for_loop 1 (N - 1) (λ r w,
        send (process N r) _mesh (localItems r) (length (localItems r))
             valueDimension w) w;
  send (process N 0) _mesh (localItems 0) (length (localItems 0))
       valueDimension w.

(** Every rank calls [receive] on its local buffer; the result lists the
    buffers by rank. *)
Definition receiveOnAllRanks (N : nat) (_mesh : Mesh) (valueDimension : nat)
    (buffers : nat → list R) (w : World) : Outcome (list (list R) * World) :=
  '(b0, w) ← receive (process N 0) _mesh (buffers 0) (length (buffers 0))
                     valueDimension w;
  for_loop 1 (N - 1) (λ r '(received, w),
    '(b, w) ← receive (process N r) _mesh (buffers r) (length (buffers r))
                      valueDimension w;
    Returns (received ++ [b], w)) ([b0], w).

Definition roundTrip (N : nat) (_mesh : Mesh) (valueDimension : nat)
    (localItems buffers : nat → list R) : Outcome (list (list R) * World) :=
  w ← sendOnAllRanks N _mesh valueDimension localItems idle;
  receiveOnAllRanks N _mesh valueDimension buffers (identityCoupling w).

(** *** The gather as the spec words it (section 4.3) *)

(** A zeroed vector of [globalVertexCount * valueDim] entries; then, for
    the ranks [0, 1, ..., N-1] in this order, every position [i] of
    [distribution[r]] and every component [d]:
    [global[distribution[r][i]*valueDim + d] += contribution[r][i*valueDim + d]]. *)
Definition gather_spec (N : nat) (distribution : gmap nat (list nat))
    (globalVertexCount valueDim : nat) (contributions : nat → list R)
    : list R :=
  foldl (λ global r,
           scatterAdd (distribution !!! r) valueDim (contributions r) global)
        (replicate (globalVertexCount * valueDim) 0%R) (seq 0 N).

(** The value a global slot holds after summation over all ranks. *)
Definition slotSum (N : nat) (distribution : gmap nat (list nat))
    (valueDim : nat) (contributions : nat → list R) (g d : nat) : R :=
  Rsum ((λ r, contribution (seq 0 (length (distribution !!! r)))
                           (distribution !!! r) valueDim (contributions r) g d)
        <$> seq 0 N).

(** The global index [g] occurs in the distribution only at position [i]
    of rank [r]. *)
Definition occursOnlyAt (N : nat) (distribution : gmap nat (list nat))
    (g r i : nat) : Prop :=
  ∀ r' i', r' < N → (distribution !!! r') !! i' = Some g → r' = r ∧ i' = i.

(** What rank [r] holds after a scatter of [global]: the coordinator
    writes into its own buffer, a worker with data receives a vector the
    coordinator filled, a worker without data keeps its buffer. *)
Definition scattered (distribution : gmap nat (list nat)) (valueDim : nat)
    (global : list R) (buffers : nat → list R) (r : nat) : list R :=
  if decide (r = 0) then
    copyFrom (distribution !!! 0) valueDim global (buffers 0)
  else if decide (0 < length (buffers r)) then
    copyFrom (distribution !!! r) valueDim global
             (replicate (length (distribution !!! r) * valueDim) 0%R)
  else buffers r.

(** *** Scenario (4) of the spec: two ranks, disjoint slices *)

Definition scenarioMesh : Mesh :=
  {| vertices := [];
     data := ∅;
     getVertexDistribution := {[ 0 := [0; 1]; 1 := [2; 3] ]};
     getGlobalNumberOfVertices := 4 |}.

Definition scenarioItems (r : nat) : list R :=
  match r with
  | 0 => [10; 20]
  | 1 => [30; 40]
  | _ => []
  end%R.

Definition scenarioBuffers (r : nat) : list R :=
  match r with
  | 0 | 1 => [0; 0]
  | _ => []
  end%R.

(** The coordinator's view once rank 1 has posted its slice. *)
Definition scenarioPosted : World :=
  {| toCoordinator := {[ 1 := [scenarioItems 1] ]};
     toWorker := ∅; toPeer := []; fromPeer := [] |}.

(** The coordinator's view once the peer has answered. *)
Definition scenarioArrived : World :=
  {| toCoordinator := ∅; toWorker := ∅; toPeer := [];
     fromPeer := [[10; 20; 30; 40]%R] |}.

(** *** Two ranks that share global index 1 *)

Definition haloMesh : Mesh :=
  {| vertices := [];
     data := ∅;
     getVertexDistribution := {[ 0 := [0; 1]; 1 := [1; 2] ]};
     getGlobalNumberOfVertices := 3 |}.

Definition haloItems (r : nat) : list R :=
  match r with
  | 0 => [10; 20]
  | 1 => [20; 30]
  | _ => []
  end%R.

End GatherScatterCommunication.

(** ** GatherScatterCommunication: the connection members *)

Module GatherScatterConnection.

(** The member [_isConnected].  Of the inter-participant link [_com] the
    class only asks [_com->isConnected()]; the link is opened and closed by
    its owner, so the answer is an argument of every call
    ([comIsConnected]). *)
Record GatherScatterCommunication : Type := {
  _isConnected : bool
}.

(** The constructor (GatherScatterCommunication.cpp:10-17). *)
Definition construct : GatherScatterCommunication :=
  {| _isConnected := false |}.

Definition isConnected (c : GatherScatterCommunication) : bool :=
  _isConnected c.

Definition acceptConnection (ms : GatherScatterCommunication.MasterSlave)
    (comIsConnected : bool) (c : GatherScatterCommunication)
    : Outcome GatherScatterCommunication :=
  _ ← PRECICE_ASSERT (GatherScatterCommunication.isSlave ms || comIsConnected);
  Returns {| _isConnected := true |}.

Definition requestConnection (ms : GatherScatterCommunication.MasterSlave)
    (comIsConnected : bool) (c : GatherScatterCommunication)
    : Outcome GatherScatterCommunication :=
  _ ← PRECICE_ASSERT (GatherScatterCommunication.isSlave ms || comIsConnected);
  Returns {| _isConnected := true |}.

Definition closeConnection (ms : GatherScatterCommunication.MasterSlave)
    (comIsConnected : bool) (c : GatherScatterCommunication)
    : Outcome GatherScatterCommunication :=
  _ ← PRECICE_ASSERT
        (GatherScatterCommunication.isSlave ms || negb comIsConnected);
  Returns {| _isConnected := false |}.

(** The destructor (GatherScatterCommunication.cpp:19-24). *)
Definition destructor (ms : GatherScatterCommunication.MasterSlave)
    (comIsConnected : bool) (c : GatherScatterCommunication) : Outcome unit :=
  if isConnected c then
    _ ← closeConnection ms comIsConnected c;
    Returns ()
  else Returns ().

End GatherScatterConnection.

(** ** NearestNeighborMapping *)

Module NearestNeighborMapping.
Import mesh.

(** Modelled from the spec: the constraint enumeration of the mapping
    base class (spec sections 1 and 2). *)
Inductive Constraint : Type := CONSISTENT | CONSERVATIVE | SCALED_CONSISTENT.

#[global] Instance Constraint_eq_dec : EqDecision Constraint.
Proof. solve_decision. Defined.

(** Modelled from the spec: the spatial index (spec section 4.1).
    [query vertices point k] lists the positions in [vertices] of the (at
    most) [k] vertices nearest to [point]. *)
Definition SpatialIndex : Type := list Vertex → R * R * R → nat → list nat.

(** The mapping object with the two meshes it was bound to; both are set, so
    the assertions that [input()] and [output()] are not null hold.  The
    meshes are two objects: a data channel is never read and written by the
    same [map]. *)
Record NearestNeighborMapping : Type := {
  getConstraint : Constraint;
  input : Mesh;
  output : Mesh;
  _vertexIndices : list nat;
  _hasComputedMapping : bool
}.

(** [std::vector<int>::resize(n)] *)
Definition resize (n : nat) (l : list nat) : list nat :=
  take n l ++ replicate (n - length l) 0.

Fixpoint for_each {A St : Type} (l : list A) (body : A → St → Outcome St)
    (s : St) : Outcome St :=
  match l with
  | [] => Returns s
  | a :: l' => s' ← body a s; for_each l' body s'
  end.

(** The loop shared by the two branches of [computeMapping]: for every
    vertex of [reference], the ID of its nearest vertex in [opposite]. *)
Definition indexOnVertices (rtree : SpatialIndex)
    (reference opposite : list Vertex) (_vertexIndices : list nat)
    : Outcome (list nat) :=
  let verticesSize := length reference in
  for_loop 0 verticesSize (λ i _vertexIndices,
    vertex ← readAt reference i;
    for_each (rtree opposite (rawCoords vertex) 1) (λ val _vertexIndices,
      nearest ← readAt opposite val;
      writeAt _vertexIndices i (getID nearest)) _vertexIndices)
    (resize verticesSize _vertexIndices).

Definition computeMapping (rtree : SpatialIndex) (nn : NearestNeighborMapping)
    : Outcome NearestNeighborMapping :=
  indices ←
    (if decide (getConstraint nn = CONSISTENT) then
       indexOnVertices rtree (vertices (output nn)) (vertices (input nn))
                       (_vertexIndices nn)
     else
       _ ← PRECICE_ASSERT (bool_decide (getConstraint nn = CONSERVATIVE));
       indexOnVertices rtree (vertices (input nn)) (vertices (output nn))
                       (_vertexIndices nn));
  Returns {| getConstraint := getConstraint nn;
             input := input nn;
             output := output nn;
             _vertexIndices := indices;
             _hasComputedMapping := true |}.

(** [P_ASSERT(len / valueDimensions == (int) n)] *)
Definition assertSize (len valueDimensions n : nat) : Outcome unit :=
  if decide (valueDimensions = 0) then Aborts DivisionByZero
  else PRECICE_ASSERT (bool_decide (len / valueDimensions = n)).

Definition map (nn : NearestNeighborMapping) (inputDataID outputDataID : nat)
    : Outcome NearestNeighborMapping :=
  inputData ← getData (input nn) inputDataID;
  outputData ← getData (output nn) outputDataID;
  let inputValues := values inputData in
  let outputValues := values outputData in
  let valueDimensions := getDimensions inputData in
  _ ← PRECICE_ASSERT
        (bool_decide (valueDimensions = getDimensions outputData));
  _ ← assertSize (length inputValues) valueDimensions
                 (length (vertices (input nn)));
  _ ← assertSize (length outputValues) valueDimensions
                 (length (vertices (output nn)));
  outputValues ←
    (if decide (getConstraint nn = CONSISTENT) then
       let outSize := length (vertices (output nn)) in
       assignLoop outSize (_vertexIndices nn) valueDimensions
                  inputValues outputValues
     else
       _ ← PRECICE_ASSERT (bool_decide (getConstraint nn = CONSERVATIVE));
       let inSize := length (vertices (input nn)) in
       accumulateLoop inSize (_vertexIndices nn) valueDimensions
                      inputValues outputValues);
  Returns {| getConstraint := getConstraint nn;
             input := input nn;
             output :=
               setData (output nn) outputDataID
                 {| values := outputValues;
                    getDimensions := getDimensions outputData |};
             _vertexIndices := _vertexIndices nn;
             _hasComputedMapping := _hasComputedMapping nn |}.

(** The values of a data channel of the output mesh. *)
Definition outputValues (nn : NearestNeighborMapping) (dataID : nat) : list R :=
  match data (output nn) !! dataID with
  | Some d => values d
  | None => []
  end.

(** *** A small conservative scenario *)

(** Two input vertices carrying 1 and 2, one output vertex with a data
    channel that holds 5 and one that holds 0. *)
Definition scenarioInput : Mesh :=
  {| vertices := [ {| rawCoords := (0, 0, 0)%R; getID := 0 |};
                   {| rawCoords := (1, 0, 0)%R; getID := 1 |} ];
     data := {[ 0 := {| values := [1; 2]%R; getDimensions := 1 |} ]};
     getVertexDistribution := ∅;
     getGlobalNumberOfVertices := 2 |}.

Definition scenarioOutput : Mesh :=
  {| vertices := [ {| rawCoords := (0, 0, 0)%R; getID := 0 |} ];
     data := {[ 0 := {| values := [5]%R; getDimensions := 1 |};
                1 := {| values := [0]%R; getDimensions := 1 |} ]};
     getVertexDistribution := ∅;
     getGlobalNumberOfVertices := 1 |}.

(** An index over meshes that have a single candidate. *)
Definition firstVertex : SpatialIndex :=
  λ vertices _ k, take k (take 1 (seq 0 (length vertices))).

Definition scenario : NearestNeighborMapping :=
  {| getConstraint := CONSERVATIVE;
     input := scenarioInput;
     output := scenarioOutput;
     _vertexIndices := [];
     _hasComputedMapping := false |}.

Definition scenarioComputed : NearestNeighborMapping :=
  {| getConstraint := CONSERVATIVE;
     input := scenarioInput;
     output := scenarioOutput;
     _vertexIndices := [0; 0];
     _hasComputedMapping := true |}.

(** *** Flag, clearing and the tag passes *)

Definition hasComputedMapping (nn : NearestNeighborMapping) : bool :=
  _hasComputedMapping nn.

(** [clear()].  [mesh::rtree::clear] drops a cached index; the index of the
    model is a function of the vertices it is asked about, so there is
    nothing to drop. *)
Definition clear (nn : NearestNeighborMapping) : NearestNeighborMapping :=
  {| getConstraint := getConstraint nn;
     input := input nn;
     output := output nn;
     _vertexIndices := [];
     _hasComputedMapping := false |}.

(** Modelled from the spec: [utils::contained(id, _vertexIndices)], whether
    the ID appears in the table (spec section 4.4). *)
Definition contained (id : nat) (container : list nat) : bool :=
  bool_decide (id ∈ container).

(** Modelled from the spec: the tag bit of a vertex (spec section 3).  The
    bits of a mesh are kept beside it as the set of the positions of its
    tagged vertices; [Vertex::tag()] adds a position and nothing removes
    one. *)
Record Tags : Type := {
  inputTagged : gset nat;
  outputTagged : gset nat
}.

(** [for (v : vertices) if (utils::contained(v.getID(), _vertexIndices)) v.tag();]
    over the vertices from position [k] on. *)
Fixpoint tagLoop (k : nat) (vs : list Vertex) (_vertexIndices : list nat)
    (tagged : gset nat) : gset nat :=
  match vs with
  | [] => tagged
  | v :: vs' =>
      tagLoop (S k) vs' _vertexIndices
        (if contained (getID v) _vertexIndices then {[k]} ∪ tagged
         else tagged)
  end.

Definition tagMeshFirstRound (rtree : SpatialIndex)
    (nn : NearestNeighborMapping) (tags : Tags)
    : Outcome (NearestNeighborMapping * Tags) :=
  nn ← computeMapping rtree nn;
  tags ←
    (if decide (getConstraint nn = CONSISTENT) then
       Returns {| inputTagged :=
                    tagLoop 0 (vertices (input nn)) (_vertexIndices nn)
                            (inputTagged tags);
                  outputTagged := outputTagged tags |}
     else
       _ ← PRECICE_ASSERT (bool_decide (getConstraint nn = CONSERVATIVE));
       Returns {| inputTagged := inputTagged tags;
                  outputTagged :=
                    tagLoop 0 (vertices (output nn)) (_vertexIndices nn)
                            (outputTagged tags) |});
  Returns (clear nn, tags).

Definition tagMeshSecondRound (nn : NearestNeighborMapping) (tags : Tags)
    : NearestNeighborMapping * Tags :=
  (nn, tags).

(** *** Notions and scenarios for the further properties *)

(** The mesh whose vertices [computeMapping] walks over, and the mesh it
    searches: output and input for a consistent mapping, input and output
    otherwise. *)
Definition referenceVertices (nn : NearestNeighborMapping) : list Vertex :=
  if decide (getConstraint nn = CONSISTENT) then vertices (output nn)
  else vertices (input nn).

Definition oppositeVertices (nn : NearestNeighborMapping) : list Vertex :=
  if decide (getConstraint nn = CONSISTENT) then vertices (input nn)
  else vertices (output nn).

(** The consistent mapping from the one-vertex mesh to the two-vertex mesh,
    computed. *)
Definition scenarioConsistent : NearestNeighborMapping :=
  {| getConstraint := CONSISTENT;
     input := scenarioOutput;
     output := scenarioInput;
     _vertexIndices := [0; 0];
     _hasComputedMapping := true |}.

(** The tag bits of the mesh that [computeMapping] searches. *)
Definition searchedTags (nn : NearestNeighborMapping) (tags : Tags) : gset nat :=
  if decide (getConstraint nn = CONSISTENT) then inputTagged tags
  else outputTagged tags.

(** The tag bits of the other mesh. *)
Definition referenceTags (nn : NearestNeighborMapping) (tags : Tags) : gset nat :=
  if decide (getConstraint nn = CONSISTENT) then outputTagged tags
  else inputTagged tags.

(** A mesh without vertices and a consistent mapping that reads from it. *)
Definition emptyMesh : Mesh :=
  {| vertices := [];
     data := {[ 0 := {| values := []; getDimensions := 1 |} ]};
     getVertexDistribution := ∅;
     getGlobalNumberOfVertices := 0 |}.

Definition scenarioEmptySource : NearestNeighborMapping :=
  {| getConstraint := CONSISTENT;
     input := emptyMesh;
     output := scenarioInput;
     _vertexIndices := [];
     _hasComputedMapping := false |}.

End NearestNeighborMapping.

(** ** Dense matrices *)

(** An [Eigen::MatrixXd]: its two dimensions and its coefficients. *)
Record Matrix : Type := {
  rows : nat;
  cols : nat;
  coeffM : nat → nat → R
}.

Definition Zero (r c : nat) : Matrix :=
  {| rows := r; cols := c; coeffM := λ _ _, 0%R |}.

(** Every Eigen accessor checks its indices ([eigen_assert]). *)
Definition eigen_assert (P : Prop) `{Decision P} : Outcome unit :=
  if decide P then Returns () else Aborts AssertionFailed.

(** [M(i, j) = x] *)
Definition setCoeff (M : Matrix) (i j : nat) (x : R) : Outcome Matrix :=
  _ ← eigen_assert (i < rows M ∧ j < cols M);
  Returns {| rows := rows M; cols := cols M;
             coeffM := λ r c, if decide (r = i ∧ c = j) then x
                              else coeffM M r c |}.

(** [M.col(n) = v] *)
Definition setCol (M : Matrix) (n : nat) (v : list R) : Outcome Matrix :=
  _ ← eigen_assert (n < cols M ∧ length v = rows M);
  Returns {| rows := rows M; cols := cols M;
             coeffM := λ r c, if decide (c = n) then coeff v r
                              else coeffM M r c |}.

(** [(M.block(j, 0, 1, n) * M.block(i, 0, 1, n).transpose())(0, 0)] *)
Definition rowDot (M : Matrix) (j i n : nat) : Outcome R :=
  _ ← eigen_assert (j < rows M ∧ i < rows M ∧ n ≤ cols M);
  Returns (Rsum ((λ k, coeffM M j k * coeffM M i k)%R <$> seq 0 n)).

(** Coefficient of [M.triangularView<Eigen::Lower>()]. *)
Definition lower (M : Matrix) (r c : nat) : R :=
  if decide (c ≤ r) then coeffM M r c else 0%R.

(** [C.block(n, 0, 1, n).noalias() =
       -B.block(i, 0, 1, n) * C.block(0, 0, n, n).triangularView<Eigen::Lower>()] *)
Definition setNewtonRow (C B : Matrix) (i n : nat) : Outcome Matrix :=
  _ ← eigen_assert (n < rows C ∧ n ≤ cols C ∧ i < rows B ∧ n ≤ cols B);
  Returns {| rows := rows C; cols := cols C;
             coeffM := λ r c,
               if decide (r = n ∧ c < n) then
                 Rsum ((λ k, (- coeffM B i k) * lower C k c)%R <$> seq 0 n)
               else coeffM C r c |}.

(** [C.block(n, 0, 1, n + 1) /= x] *)
Definition divideRow (C : Matrix) (n : nat) (x : R) : Outcome Matrix :=
  _ ← eigen_assert (n < rows C ∧ n + 1 ≤ cols C);
  Returns {| rows := rows C; cols := cols C;
             coeffM := λ r c,
               if decide (r = n ∧ c < n + 1) then (coeffM C r c / x)%R
               else coeffM C r c |}.

(** [_powerFunction.maxCoeff(&maxIndex)]: the visitor keeps the first
    coefficient and replaces it only by a strictly larger one. *)
Fixpoint maxCoeff_visit (l : list R) (k : nat) (res : nat * R) : nat * R :=
  match l with
  | [] => res
  | x :: l' =>
      maxCoeff_visit l' (S k) (if Rlt_dec (snd res) x then (k, x) else res)
  end.

Definition maxCoeff (v : list R) : Outcome (nat * R) :=
  match v with
  | [] => Aborts EmptyMatrix
  | x :: l => Returns (maxCoeff_visit l 1 (0, x))
  end.

(** ** PGreedySolver *)

Module PGreedy.
Import mesh.

(** Modelled from the spec: the polynomial augmentation mode
    (off / separate / on, spec section 4.5). *)
Inductive Polynomial : Type := ON | OFF | SEPARATE.

#[global] Instance Polynomial_eq_dec : EqDecision Polynomial.
Proof. solve_decision. Defined.

(** The template parameter [RADIAL_BASIS_FUNCTION_T]. *)
Record RADIAL_BASIS_FUNCTION_T : Type := {
  evaluate : R → R;
  isStrictlyPositiveDefinite : bool
}.

Record PGreedySolver : Type := {
  _centers : list Vertex;
  _cut : Matrix;
  _greedyIDs : list nat;
  _inSize : nat;
  _outSize : nat;
  _kernel_eval : Matrix;
  _basisMatrix : Matrix;
  _powerFunction : list R
}.

Definition _maxIter : nat := 1000.
Definition _tolP : R := 1e-10%R.

(** The locals of the constructor that live across iterations. *)
Record Locals : Type := {
  solver : PGreedySolver;
  v : list R;
  centerBits : list bool
}.

Definition b2r (b : bool) : R := if b then 1%R else 0%R.

Definition computeSquaredDifference2 (u v : R * R * R)
    (activeAxis : bool * bool * bool) : R :=
  let '(u0, u1, u2) := u in
  let '(v0, v1, v2) := v in
  let '(a0, a1, a2) := activeAxis in
  let w0 := ((u0 - v0) * b2r a0)%R in
  let w1 := ((u1 - v1) * b2r a1)%R in
  let w2 := ((u2 - v2) * b2r a2)%R in
  (((0 + w0 * w0) + w1 * w1) + w2 * w2)%R.

Definition select (s : PGreedySolver) : Outcome (nat * R) :=
  maxCoeff (_powerFunction s).

Definition buildEvaluationMatrix (basisFunction : RADIAL_BASIS_FUNCTION_T)
    (outputMesh inputMesh : Mesh) (greedyIDs : list nat) : Outcome Matrix :=
  let inputVertices := vertices inputMesh in
  let outputVertices := vertices outputMesh in
  let matrixA := Zero (length greedyIDs) (length outputVertices) in
  for_loop 0 (length greedyIDs) (λ i matrixA,
    id ← readAt greedyIDs i;
    u ← readAt inputVertices id;
    for_loop 0 (length outputVertices) (λ j matrixA,
      v ← readAt outputVertices j;
      let squaredDifference :=
        computeSquaredDifference2 (rawCoords u) (rawCoords v)
                                  (true, true, true) in
      setCoeff matrixA i j (evaluate basisFunction (sqrt squaredDifference)))
      matrixA) matrixA.

Definition updateKernelVector (basisFunction : RADIAL_BASIS_FUNCTION_T)
    (inputMesh : Mesh) (kernelVector : list R) (x : Vertex)
    : Outcome (list R) :=
  let vertices := vertices inputMesh in
  for_loop 0 (length vertices) (λ j kernelVector,
    y ← readAt vertices j;
    writeAt kernelVector j
      (evaluate basisFunction
         (sqrt (computeSquaredDifference2 (rawCoords x) (rawCoords y)
                                          (true, true, true)))))
    kernelVector.

Inductive Step (A : Type) : Type :=
| Continue (a : A)
| Break (a : A).
Arguments Continue {A} a.
Arguments Break {A} a.

(** The update loop over [j] of one iteration (PGreedySolver.hpp:202-208). *)
Definition updateLoop (_inSize : nat) (_basisMatrix : Matrix)
    (centerBits : list bool) (i n : nat) (sqrtP : R)
    (v _powerFunction : list R) : Outcome (list R * list R) :=
  for_loop 0 _inSize (λ j '(v, _powerFunction),
    isCenter ← readAt centerBits j;
    if negb isCenter then
      d ← rowDot _basisMatrix j i n;
      vj ← readAt v j;
      v ← writeAt v j (vj - d)%R;
      vj ← readAt v j;
      v ← writeAt v j (vj / sqrtP)%R;
      vj ← readAt v j;
      pj ← readAt _powerFunction j;
      _powerFunction ← writeAt _powerFunction j (pj - vj * vj)%R;
      Returns (v, _powerFunction)
    else Returns (v, _powerFunction)) (v, _powerFunction).

(** The body of the selection loop (PGreedySolver.hpp:191-217) at
    iteration [n]. *)
Definition iteration (basisFunction : RADIAL_BASIS_FUNCTION_T)
    (inputMesh : Mesh) (n : nat) (l : Locals) : Outcome (Step Locals) :=
  let s := solver l in
  '(i, pMax) ← select s;
  x ← readAt (vertices inputMesh) i;
  if Rlt_dec pMax _tolP then Returns (Break l)
  else
    let greedyIDs := _greedyIDs s ++ [i] in
    v ← updateKernelVector basisFunction inputMesh (v l) x;
    let sqrtP := sqrt pMax in
    '(v, powerFunction) ←
      updateLoop (_inSize s) (_basisMatrix s) (centerBits l) i n sqrtP
                 v (_powerFunction s);
    centerBits ← writeAt (centerBits l) i true;
    basisMatrix ← setCol (_basisMatrix s) n v;
    cut ← setNewtonRow (_cut s) basisMatrix i n;
    cut ← setCoeff cut n n 1%R;
    vi ← readAt v i;
    cut ← divideRow cut n vi;
    Returns (Continue
      {| solver :=
           {| _centers := _centers s;
              _cut := cut;
              _greedyIDs := greedyIDs;
              _inSize := _inSize s;
              _outSize := _outSize s;
              _kernel_eval := _kernel_eval s;
              _basisMatrix := basisMatrix;
              _powerFunction := powerFunction |};
         v := v;
         centerBits := centerBits |}).

(** [for (int n = first; n < first + remaining; ++n) { ...; break; ... }] *)
Fixpoint selectionLoop (basisFunction : RADIAL_BASIS_FUNCTION_T)
    (inputMesh : Mesh) (remaining n : nat) (l : Locals) : Outcome Locals :=
  match remaining with
  | 0 => Returns l
  | S remaining' =>
      r ← iteration basisFunction inputMesh n l;
      match r with
      | Break l' => Returns l'
      | Continue l' =>
          selectionLoop basisFunction inputMesh remaining' (S n) l'
      end
  end.

(** [std::transform(deadAxis.begin(), deadAxis.end(), activeAxis.begin(), !)]
    into a [std::array<bool, 3>] that starts all [false]. *)
Definition toActiveAxis (deadAxis : list bool) : Outcome (bool * bool * bool) :=
  match negb <$> deadAxis with
  | [] => Returns (false, false, false)
  | [a0] => Returns (a0, false, false)
  | [a0; a1] => Returns (a0, a1, false)
  | [a0; a1; a2] => Returns (a0, a1, a2)
  | _ => Aborts OutOfRange
  end.

(** The state of the constructor when the selection loop starts
    (PGreedySolver.hpp:171-186); [v] is allocated without initial values
    and is overwritten by [updateKernelVector] before it is read. *)
Definition initialLocals (basisFunction : RADIAL_BASIS_FUNCTION_T)
    (inputMesh outputMesh : Mesh) : Locals :=
  let inSize := length (vertices inputMesh) in
  let matWidth := Nat.min inSize _maxIter in
  {| solver :=
       {| _centers := [];
          _cut := Zero matWidth matWidth;
          _greedyIDs := [];
          _inSize := inSize;
          _outSize := length (vertices outputMesh);
          _kernel_eval := Zero 0 0;
          _basisMatrix := Zero inSize matWidth;
          _powerFunction := replicate inSize (evaluate basisFunction 0%R) |};
     v := replicate inSize 0%R;
     centerBits := replicate inSize false |}.

(** The constructor.  The members of the object under construction are
    default-initialised, so the assertions that [_centers], [_greedyIDs],
    [_cut] and [_kernel_eval] are empty hold. *)
Definition construct (basisFunction : RADIAL_BASIS_FUNCTION_T)
    (inputMesh : Mesh) (inputIDs : list nat) (outputMesh : Mesh)
    (outputIDs : list nat) (deadAxis : list bool) (polynomial : Polynomial)
    : Outcome PGreedySolver :=
  _ ← PRECICE_ASSERT (bool_decide (polynomial = OFF));
  activeAxis ← toActiveAxis deadAxis;
  l ← selectionLoop basisFunction inputMesh _maxIter 0
        (initialLocals basisFunction inputMesh outputMesh);
  let s := solver l in
  kernel_eval ← buildEvaluationMatrix basisFunction outputMesh inputMesh
                                      (_greedyIDs s);
  Returns {| _centers := _centers s;
             _cut := _cut s;
             _greedyIDs := _greedyIDs s;
             _inSize := _inSize s;
             _outSize := _outSize s;
             _kernel_eval := kernel_eval;
             _basisMatrix := _basisMatrix s;
             _powerFunction := _powerFunction s |}.

Definition solveConservative (s : PGreedySolver) (inputData : list R)
    (polynomial : Polynomial) : Outcome (list R) :=
  _ ← PRECICE_ASSERT false;
  Returns [].

(** [inputData(_greedyIDs)] *)
Fixpoint indexed (inputData : list R) (ids : list nat) : Outcome (list R) :=
  match ids with
  | [] => Returns []
  | id :: ids' =>
      x ← readAt inputData id;
      xs ← indexed inputData ids';
      Returns (x :: xs)
  end.

Definition solveConsistent (s : PGreedySolver) (inputData : list R)
    (polynomial : Polynomial) : Outcome (list R) :=
  let n := length (_greedyIDs s) in
  y ← indexed inputData (_greedyIDs s);
  _ ← eigen_assert (n ≤ rows (_cut s) ∧ n ≤ cols (_cut s));
  let Ly :=
    (λ r, Rsum ((λ c, lower (_cut s) r c * coeff y c)%R <$> seq 0 n))
    <$> seq 0 n in
  let coeffs :=
    (λ k, Rsum ((λ r, lower (_cut s) r k * coeff Ly r)%R <$> seq 0 n))
    <$> seq 0 n in
  _ ← eigen_assert (rows (_kernel_eval s) = n);
  let prediction :=
    (λ j, Rsum ((λ k, coeffM (_kernel_eval s) k j * coeff coeffs k)%R
                <$> seq 0 n))
    <$> seq 0 (cols (_kernel_eval s)) in
  Returns prediction.

(** *** Notions used to state the properties *)

(** The largest entry of a power-function vector. *)
Definition maxValue (p : list R) : R :=
  match maxCoeff p with
  | Returns (_, m) => m
  | Aborts _ => 0%R
  end.

(** The locals at the start of iteration [n] of the selection loop. *)
Inductive Reached (basisFunction : RADIAL_BASIS_FUNCTION_T)
    (inputMesh outputMesh : Mesh) : nat → Locals → Prop :=
| reached_first :
    Reached basisFunction inputMesh outputMesh 0
            (initialLocals basisFunction inputMesh outputMesh)
| reached_next n l l' :
    Reached basisFunction inputMesh outputMesh n l →
    n < _maxIter →
    iteration basisFunction inputMesh n l = Returns (Continue l') →
    Reached basisFunction inputMesh outputMesh (S n) l'.

(** Full squared Euclidean distance of two coordinate triples. *)
Definition squaredDistance (u v : R * R * R) : R :=
  ((u.1.1 - v.1.1) * (u.1.1 - v.1.1)
   + (u.1.2 - v.1.2) * (u.1.2 - v.1.2)
   + (u.2 - v.2) * (u.2 - v.2))%R.

(** The kernel column of a centre [x]: [phi(||x - x_j||)] for every input
    vertex [x_j]. *)
Definition kernelColumn (basisFunction : RADIAL_BASIS_FUNCTION_T)
    (inputMesh : Mesh) (x : Vertex) : list R :=
  (λ y, evaluate basisFunction
          (sqrt (squaredDistance (rawCoords x) (rawCoords y))))
  <$> vertices inputMesh.

(** The spec's consistent solve (section 4.6), coefficient by coefficient:
    [L] is the lower triangle of the leading [n x n] block of [_cut], so
    row [r] of [L] ends at column [r] and column [k] of [L] starts at row
    [k]; [y = yIn[greedyIDs]], [alpha = L^T (L y)], prediction
    [E^T alpha]. *)
Definition spec_y (s : PGreedySolver) (yIn : list R) (c : nat) : R :=
  coeff yIn (nth c (_greedyIDs s) 0).

Definition spec_Ly (s : PGreedySolver) (yIn : list R) (r : nat) : R :=
  Rsum ((λ c, coeffM (_cut s) r c * spec_y s yIn c)%R <$> seq 0 (S r)).

Definition spec_alpha (s : PGreedySolver) (yIn : list R) (k : nat) : R :=
  Rsum ((λ r, coeffM (_cut s) r k * spec_Ly s yIn r)%R
        <$> seq k (length (_greedyIDs s) - k)).

Definition spec_prediction (s : PGreedySolver) (yIn : list R) (j : nat) : R :=
  Rsum ((λ k, coeffM (_kernel_eval s) k j * spec_alpha s yIn k)%R
        <$> seq 0 (length (_greedyIDs s))).

(** [sum over k < n of B(j, k) * B(i, k)]: the projection of row [j] onto
    row [i] over the Newton columns built so far. *)
Definition rowProduct (B : Matrix) (j i n : nat) : R :=
  Rsum ((λ k, coeffM B j k * coeffM B i k)%R <$> seq 0 n).

(** What holds of the constructor's locals whenever iteration [n] of the
    selection loop starts: the containers keep their sizes, [n] pairwise
    distinct centers were selected and they are the vertices whose bit is
    set, the power function vanishes at every center and equals
    [phi(0) - sum over k < n of B(j, k)^2] at every other vertex [j]. *)
Record Invariant (basisFunction : RADIAL_BASIS_FUNCTION_T)
    (inputMesh : Mesh) (n : nat) (l : Locals) : Prop := {
  inv_inSize : _inSize (solver l) = length (vertices inputMesh);
  inv_power : length (_powerFunction (solver l)) = length (vertices inputMesh);
  inv_v : length (v l) = length (vertices inputMesh);
  inv_bits : length (centerBits l) = length (vertices inputMesh);
  inv_basis_rows : rows (_basisMatrix (solver l)) = length (vertices inputMesh);
  inv_basis_cols :
    cols (_basisMatrix (solver l))
    = Nat.min (length (vertices inputMesh)) _maxIter;
  inv_cut_rows :
    rows (_cut (solver l)) = Nat.min (length (vertices inputMesh)) _maxIter;
  inv_cut_cols :
    cols (_cut (solver l)) = Nat.min (length (vertices inputMesh)) _maxIter;
  inv_count : length (_greedyIDs (solver l)) = n;
  inv_distinct : NoDup (_greedyIDs (solver l));
  inv_centers :
    ∀ j, j ∈ _greedyIDs (solver l) ↔ centerBits l !! j = Some true;
  inv_power_center :
    ∀ j, centerBits l !! j = Some true →
         coeff (_powerFunction (solver l)) j = 0%R;
  inv_power_other :
    ∀ j, centerBits l !! j = Some false →
         coeff (_powerFunction (solver l)) j
         = (evaluate basisFunction 0 - rowProduct (_basisMatrix (solver l)) j j n)%R
}.

(** *** Scenario (6) of the spec, scaled down: Gaussian kernel, shape 1 *)

Definition gaussian (shape : R) : RADIAL_BASIS_FUNCTION_T :=
  {| evaluate := λ r, exp (- ((shape * r) * (shape * r)));
     isStrictlyPositiveDefinite := true |}.

Definition scenarioInput : Mesh :=
  {| vertices := [ {| rawCoords := (0, 0, 0)%R; getID := 0 |};
                   {| rawCoords := (1, 0, 0)%R; getID := 1 |} ];
     data := ∅;
     getVertexDistribution := ∅;
     getGlobalNumberOfVertices := 2 |}.

Definition scenarioOutput : Mesh :=
  {| vertices := [ {| rawCoords := (0, 0, 0)%R; getID := 0 |} ];
     data := ∅;
     getVertexDistribution := ∅;
     getGlobalNumberOfVertices := 1 |}.

(** A solver with one center, [L = (2)] and [E = (3 4)]. *)
Definition scenarioSolver : PGreedySolver :=
  {| _centers := [];
     _cut := {| rows := 1; cols := 1; coeffM := λ _ _, 2%R |};
     _greedyIDs := [0];
     _inSize := 1;
     _outSize := 2;
     _kernel_eval :=
       {| rows := 1; cols := 2;
          coeffM := λ _ j, match j with 0 => 3%R | _ => 4%R end |};
     _basisMatrix := Zero 1 1;
     _powerFunction := [0%R] |}.

(** *** Clearing and the size accessors *)

(** [clear()]: [Eigen::MatrixXd()] is the matrix without coefficients;
    [_basisMatrix] and [_powerFunction] are not assigned. *)
Definition clear (s : PGreedySolver) : PGreedySolver :=
  {| _centers := [];
     _cut := Zero 0 0;
     _greedyIDs := [];
     _inSize := 0;
     _outSize := 0;
     _kernel_eval := Zero 0 0;
     _basisMatrix := _basisMatrix s;
     _powerFunction := _powerFunction s |}.

Definition getInputSize (s : PGreedySolver) : nat := _inSize s.

Definition getOutputSize (s : PGreedySolver) : nat := _outSize s.

(** The volume-spline kernel [phi(r) = |r|], which vanishes at 0. *)
Definition volumeSplines : RADIAL_BASIS_FUNCTION_T :=
  {| evaluate := Rabs;
     isStrictlyPositiveDefinite := false |}.

End PGreedy.

(** ** PGreedySolver on binary64 doubles *)

(** The constructor of PGreedySolver.hpp once more, with every [double] a
    binary64 floating-point number and every operation rounded as IEEE 754
    rounds it (no fused multiply-add).  Containers, loops, assertions and
    outcomes are those of the embedding above. *)
Module binary64.
Import PrimFloat.

Record Vertex : Type := {
  rawCoords : float * float * float;
  getID : nat
}.

(** Of a mesh the constructor reads the vertices only. *)
Record Mesh : Type := {
  vertices : list Vertex
}.

Definition coeff (v : list float) (k : nat) : float :=
  default 0%float (v !! k).

(** Sum of the terms from the left, starting from zero.  Eigen may add the
    terms of a product in another order when there are more than two. *)
Definition fsum (v : list float) : float := foldl add 0%float v.

Record Matrix : Type := {
  rows : nat;
  cols : nat;
  coeffM : nat → nat → float
}.

Definition Zero (r c : nat) : Matrix :=
  {| rows := r; cols := c; coeffM := λ _ _, 0%float |}.

(** [M(i, j) = x] *)
Definition setCoeff (M : Matrix) (i j : nat) (x : float) : Outcome Matrix :=
  _ ← eigen_assert (i < rows M ∧ j < cols M);
  Returns {| rows := rows M; cols := cols M;
             coeffM := λ r c, if decide (r = i ∧ c = j) then x
                              else coeffM M r c |}.

(** [M.col(n) = v] *)
Definition setCol (M : Matrix) (n : nat) (v : list float) : Outcome Matrix :=
  _ ← eigen_assert (n < cols M ∧ length v = rows M);
  Returns {| rows := rows M; cols := cols M;
             coeffM := λ r c, if decide (c = n) then coeff v r
                              else coeffM M r c |}.

(** [(M.block(j, 0, 1, n) * M.block(i, 0, 1, n).transpose())(0, 0)] *)
Definition rowDot (M : Matrix) (j i n : nat) : Outcome float :=
  _ ← eigen_assert (j < rows M ∧ i < rows M ∧ n ≤ cols M);
  Returns (fsum ((λ k, coeffM M j k * coeffM M i k)%float <$> seq 0 n)).

(** Coefficient of [M.triangularView<Eigen::Lower>()]. *)
Definition lower (M : Matrix) (r c : nat) : float :=
  if decide (c ≤ r) then coeffM M r c else 0%float.

(** [C.block(n, 0, 1, n).noalias() =
       -B.block(i, 0, 1, n) * C.block(0, 0, n, n).triangularView<Eigen::Lower>()] *)
Definition setNewtonRow (C B : Matrix) (i n : nat) : Outcome Matrix :=
  _ ← eigen_assert (n < rows C ∧ n ≤ cols C ∧ i < rows B ∧ n ≤ cols B);
  Returns {| rows := rows C; cols := cols C;
             coeffM := λ r c,
               if decide (r = n ∧ c < n) then
                 fsum ((λ k, (- coeffM B i k) * lower C k c)%float
                       <$> seq 0 n)
               else coeffM C r c |}.

(** [C.block(n, 0, 1, n + 1) /= x] *)
Definition divideRow (C : Matrix) (n : nat) (x : float) : Outcome Matrix :=
  _ ← eigen_assert (n < rows C ∧ n + 1 ≤ cols C);
  Returns {| rows := rows C; cols := cols C;
             coeffM := λ r c,
               if decide (r = n ∧ c < n + 1) then (coeffM C r c / x)%float
               else coeffM C r c |}.

(** [_powerFunction.maxCoeff(&maxIndex)]: the visitor keeps the first
    coefficient and replaces it only by a strictly larger one. *)
Fixpoint maxCoeff_visit (l : list float) (k : nat) (res : nat * float)
    : nat * float :=
  match l with
  | [] => res
  | x :: l' =>
      maxCoeff_visit l' (S k) (if (snd res <? x)%float then (k, x) else res)
  end.

Definition maxCoeff (v : list float) : Outcome (nat * float) :=
  match v with
  | [] => Aborts EmptyMatrix
  | x :: l => Returns (maxCoeff_visit l 1 (0, x))
  end.

(** The template parameter [RADIAL_BASIS_FUNCTION_T]. *)
Record RADIAL_BASIS_FUNCTION_T : Type := {
  evaluate : float → float;
  isStrictlyPositiveDefinite : bool
}.

Record PGreedySolver : Type := {
  _centers : list Vertex;
  _cut : Matrix;
  _greedyIDs : list nat;
  _inSize : nat;
  _outSize : nat;
  _kernel_eval : Matrix;
  _basisMatrix : Matrix;
  _powerFunction : list float
}.

Definition _maxIter : nat := 1000.

(** The binary64 number that the literal [1e-10] denotes. *)
Definition _tolP : float := 0x1.b7cdfd9d7bdbbp-34%float.

(** The locals of the constructor that live across iterations. *)
Record Locals : Type := {
  solver : PGreedySolver;
  v : list float;
  centerBits : list bool
}.

(** [static_cast<int>(activeAxis[d])], converted to [double] by the
    product. *)
Definition b2f (b : bool) : float := if b then 1%float else 0%float.

Definition computeSquaredDifference2 (u v : float * float * float)
    (activeAxis : bool * bool * bool) : float :=
  let '(u0, u1, u2) := u in
  let '(v0, v1, v2) := v in
  let '(a0, a1, a2) := activeAxis in
  let w0 := ((u0 - v0) * b2f a0)%float in
  let w1 := ((u1 - v1) * b2f a1)%float in
  let w2 := ((u2 - v2) * b2f a2)%float in
  (((0 + w0 * w0) + w1 * w1) + w2 * w2)%float.

Definition select (s : PGreedySolver) : Outcome (nat * float) :=
  maxCoeff (_powerFunction s).

Definition buildEvaluationMatrix (basisFunction : RADIAL_BASIS_FUNCTION_T)
    (outputMesh inputMesh : Mesh) (greedyIDs : list nat) : Outcome Matrix :=
  let inputVertices := vertices inputMesh in
  let outputVertices := vertices outputMesh in
  let matrixA := Zero (length greedyIDs) (length outputVertices) in
  for_loop 0 (length greedyIDs) (λ i matrixA,
    id ← readAt greedyIDs i;
    u ← readAt inputVertices id;
    for_loop 0 (length outputVertices) (λ j matrixA,
      v ← readAt outputVertices j;
      let squaredDifference :=
        computeSquaredDifference2 (rawCoords u) (rawCoords v)
                                  (true, true, true) in
      setCoeff matrixA i j (evaluate basisFunction (sqrt squaredDifference)))
      matrixA) matrixA.

Definition updateKernelVector (basisFunction : RADIAL_BASIS_FUNCTION_T)
    (inputMesh : Mesh) (kernelVector : list float) (x : Vertex)
    : Outcome (list float) :=
  let vertices := vertices inputMesh in
  for_loop 0 (length vertices) (λ j kernelVector,
    y ← readAt vertices j;
    writeAt kernelVector j
      (evaluate basisFunction
         (sqrt (computeSquaredDifference2 (rawCoords x) (rawCoords y)
                                          (true, true, true)))))
    kernelVector.

(** The update loop over [j] of one iteration (PGreedySolver.hpp:202-208). *)
Definition updateLoop (_inSize : nat) (_basisMatrix : Matrix)
    (centerBits : list bool) (i n : nat) (sqrtP : float)
    (v _powerFunction : list float) : Outcome (list float * list float) :=
  for_loop 0 _inSize (λ j '(v, _powerFunction),
    isCenter ← readAt centerBits j;
    if negb isCenter then
      d ← rowDot _basisMatrix j i n;
      vj ← readAt v j;
      v ← writeAt v j (vj - d)%float;
      vj ← readAt v j;
      v ← writeAt v j (vj / sqrtP)%float;
      vj ← readAt v j;
      pj ← readAt _powerFunction j;
      _powerFunction ← writeAt _powerFunction j (pj - vj * vj)%float;
      Returns (v, _powerFunction)
    else Returns (v, _powerFunction)) (v, _powerFunction).

(** The body of the selection loop (PGreedySolver.hpp:191-217) at
    iteration [n]. *)
Definition iteration (basisFunction : RADIAL_BASIS_FUNCTION_T)
    (inputMesh : Mesh) (n : nat) (l : Locals)
    : Outcome (PGreedy.Step Locals) :=
  let s := solver l in
  '(i, pMax) ← select s;
  x ← readAt (vertices inputMesh) i;
  if (pMax <? _tolP)%float then Returns (PGreedy.Break l)
  else
    let greedyIDs := _greedyIDs s ++ [i] in
    v ← updateKernelVector basisFunction inputMesh (v l) x;
    let sqrtP := sqrt pMax in
    '(v, powerFunction) ←
      updateLoop (_inSize s) (_basisMatrix s) (centerBits l) i n sqrtP
                 v (_powerFunction s);
    centerBits ← writeAt (centerBits l) i true;
    basisMatrix ← setCol (_basisMatrix s) n v;
    cut ← setNewtonRow (_cut s) basisMatrix i n;
    cut ← setCoeff cut n n 1%float;
    vi ← readAt v i;
    cut ← divideRow cut n vi;
    Returns (PGreedy.Continue
      {| solver :=
           {| _centers := _centers s;
              _cut := cut;
              _greedyIDs := greedyIDs;
              _inSize := _inSize s;
              _outSize := _outSize s;
              _kernel_eval := _kernel_eval s;
              _basisMatrix := basisMatrix;
              _powerFunction := powerFunction |};
         v := v;
         centerBits := centerBits |}).

(** [for (int n = first; n < first + remaining; ++n) { ...; break; ... }] *)
Fixpoint selectionLoop (basisFunction : RADIAL_BASIS_FUNCTION_T)
    (inputMesh : Mesh) (remaining n : nat) (l : Locals) : Outcome Locals :=
  match remaining with
  | 0 => Returns l
  | S remaining' =>
      r ← iteration basisFunction inputMesh n l;
      match r with
      | PGreedy.Break l' => Returns l'
      | PGreedy.Continue l' =>
          selectionLoop basisFunction inputMesh remaining' (S n) l'
      end
  end.

(** The state of the constructor when the selection loop starts
    (PGreedySolver.hpp:171-186); [v] is allocated without initial values
    and is overwritten by [updateKernelVector] before it is read. *)
Definition initialLocals (basisFunction : RADIAL_BASIS_FUNCTION_T)
    (inputMesh outputMesh : Mesh) : Locals :=
  let inSize := length (vertices inputMesh) in
  let matWidth := Nat.min inSize _maxIter in
  {| solver :=
       {| _centers := [];
          _cut := Zero matWidth matWidth;
          _greedyIDs := [];
          _inSize := inSize;
          _outSize := length (vertices outputMesh);
          _kernel_eval := Zero 0 0;
          _basisMatrix := Zero inSize matWidth;
          _powerFunction := replicate inSize (evaluate basisFunction 0%float) |};
     v := replicate inSize 0%float;
     centerBits := replicate inSize false |}.

Definition construct (basisFunction : RADIAL_BASIS_FUNCTION_T)
    (inputMesh : Mesh) (inputIDs : list nat) (outputMesh : Mesh)
    (outputIDs : list nat) (deadAxis : list bool)
    (polynomial : PGreedy.Polynomial) : Outcome PGreedySolver :=
  _ ← PRECICE_ASSERT (bool_decide (polynomial = PGreedy.OFF));
  activeAxis ← PGreedy.toActiveAxis deadAxis;
  l ← selectionLoop basisFunction inputMesh _maxIter 0
        (initialLocals basisFunction inputMesh outputMesh);
  let s := solver l in
  kernel_eval ← buildEvaluationMatrix basisFunction outputMesh inputMesh
                                      (_greedyIDs s);
  Returns {| _centers := _centers s;
             _cut := _cut s;
             _greedyIDs := _greedyIDs s;
             _inSize := _inSize s;
             _outSize := _outSize s;
             _kernel_eval := kernel_eval;
             _basisMatrix := _basisMatrix s;
             _powerFunction := _powerFunction s |}.

(** *** A kernel with a large value at 0 on a mesh of one vertex *)

(** Modelled from the spec: the multiquadric basis function
    [phi(r) = sqrt(r^2 + c^2)] (spec section 4.2), whose class is not among
    the sources; [phi(0) = c]. *)
Definition multiquadrics (c : float) : RADIAL_BASIS_FUNCTION_T :=
  {| evaluate := λ r, sqrt (r * r + c * c)%float;
     isStrictlyPositiveDefinite := false |}.

Definition oneVertex : Mesh :=
  {| vertices := [ {| rawCoords := (0, 0, 0)%float; getID := 0 |} ] |}.

End binary64.

(** ** Further notions used to state the properties *)

(** Scalar product of two vectors. *)
Definition dot (a b : list R) : R :=
  Rsum ((λ k, coeff a k * coeff b k)%R <$> seq 0 (length a)).

(** How often the global index [g] occurs in the slices of the ranks
    [0 .. N-1]. *)
Definition copies (N : nat) (distribution : gmap nat (list nat)) (g : nat)
    : nat :=
  foldr Nat.add 0
    ((λ r, length (filter (λ i, (distribution !!! r) !! i = Some g)
                          (seq 0 (length (distribution !!! r)))))
     <$> seq 0 N).

(** [a * x + b * y], entry by entry. *)
Definition axpby (a : R) (x : list R) (b : R) (y : list R) : list R :=
  zip_with (λ u v, a * u + b * v)%R x y.

(** * Properties *)

(** ** Small evaluations of the model *)

Example maxCoeff_keeps_first_maximum :
  maxCoeff [1; 3; 3; 2]%R = Returns (1, 3%R).
Proof.
  unfold maxCoeff. cbn [maxCoeff_visit snd].
  destruct (Rlt_dec 1 3) as [_|Hge]; [| lra]. cbn [snd].
  destruct (Rlt_dec 3 3) as [Hlt|_]; [lra |]. cbn [snd].
  destruct (Rlt_dec 3 2) as [Hlt|_]; [lra |]. reflexivity.
Qed.

Example maxCoeff_of_nothing : maxCoeff [] = Aborts EmptyMatrix.
Proof. reflexivity. Qed.

Example squared_difference_with_dead_axis :
  PGreedy.computeSquaredDifference2 (0, 1, 0)%R (3, 5, 0)%R (true, false, true)
  = 9%R.
Proof. cbn. lra. Qed.

Example active_axes_of_two_dead_flags :
  PGreedy.toActiveAxis [true; false] = Returns (false, true, false).
Proof. reflexivity. Qed.

Example active_axes_overflow :
  PGreedy.toActiveAxis [true; false; false; true] = Aborts OutOfRange.
Proof. reflexivity. Qed.

Example resize_pads_with_zeros :
  NearestNeighborMapping.resize 3 [7] = [7; 0; 0].
Proof. reflexivity. Qed.

Example accumulate_outside_the_target :
  accumulateLoop 1 [2] 1 [1%R] [0%R; 0%R] = Aborts OutOfRange.
Proof. reflexivity. Qed.

Example assign_copies_by_index :
  assignLoop 2 [1; 0] 1 [10; 20]%R [0; 0]%R = Returns [20; 10]%R.
Proof. reflexivity. Qed.

Example polynomial_on_is_refused :
  PGreedy.construct (PGreedy.gaussian 1) PGreedy.scenarioInput []
    PGreedy.scenarioOutput [] [] PGreedy.ON = Aborts AssertionFailed.
Proof. reflexivity. Qed.

(** ** Loops and vectors *)

Lemma bind_Returns {A B : Type} (a : A) (k : A → Outcome B) :
  (Returns a ≫= k) = k a.
Proof. reflexivity. Qed.

Lemma for_loop_foldl {St : Type} (P : St → Prop) (g : nat → St → St)
    (body : nat → St → Outcome St) (count : nat) :
  ∀ first s,
    P s →
    (∀ i s, first ≤ i < first + count → P s →
            body i s = Returns (g i s) ∧ P (g i s)) →
    for_loop first count body s
      = Returns (foldl (λ s i, g i s) s (seq first count))
    ∧ P (foldl (λ s i, g i s) s (seq first count)).
Proof.
  induction count as [|c IH]; intros first s Hs Hbody; simpl.
  - done.
  - destruct (Hbody first s) as [-> Hg]; [lia | done |].
    rewrite bind_Returns. apply IH; [done |].
    intros i s' Hi Hs'. apply Hbody; [lia | done].
Qed.

Lemma coeff_lookup (v : list R) (k : nat) (x : R) :
  v !! k = Some x → coeff v k = x.
Proof. unfold coeff. by intros ->. Qed.

Lemma lookup_coeff (v : list R) (k : nat) :
  k < length v → v !! k = Some (coeff v k).
Proof.
  intros Hk. destruct (lookup_lt_is_Some_2 v k Hk) as [x Hx].
  by rewrite (coeff_lookup _ _ _ Hx).
Qed.

Lemma coeff_ge (v : list R) (k : nat) : length v ≤ k → coeff v k = 0%R.
Proof. intros Hk. unfold coeff. by rewrite lookup_ge_None_2. Qed.

Lemma coeff_ext (a b : list R) :
  length a = length b →
  (∀ k, k < length a → coeff a k = coeff b k) →
  a = b.
Proof.
  intros Hlen Hcoeff. apply list_eq. intros k.
  destruct (decide (k < length a)) as [Hk|Hk].
  - rewrite (lookup_coeff a k Hk), (lookup_coeff b k) by lia.
    by rewrite Hcoeff.
  - by rewrite !lookup_ge_None_2 by lia.
Qed.

Lemma readAt_Some {A : Type} (v : list A) (k : nat) (x : A) :
  v !! k = Some x → readAt v k = Returns x.
Proof. unfold readAt. by intros ->. Qed.

Lemma readAt_lt {A : Type} (v : list A) (k : nat) (d : A) :
  k < length v → readAt v k = Returns (nth k v d).
Proof.
  intros Hk. unfold readAt.
  destruct (lookup_lt_is_Some_2 v k Hk) as [x Hx].
  rewrite Hx. f_equal. symmetry. by apply nth_lookup_Some.
Qed.

Lemma readAt_coeff (v : list R) (k : nat) :
  k < length v → readAt v k = Returns (coeff v k).
Proof. intros Hk. unfold readAt. by rewrite lookup_coeff. Qed.

Lemma writeAt_lt {A : Type} (v : list A) (k : nat) (x : A) :
  k < length v → writeAt v k x = Returns (<[k:=x]> v).
Proof. intros Hk. unfold writeAt. by rewrite decide_True. Qed.

Lemma coeff_insert (v : list R) (k j : nat) (x : R) :
  k < length v →
  coeff (<[k:=x]> v) j = if decide (j = k) then x else coeff v j.
Proof.
  intros Hk. unfold coeff. destruct (decide (j = k)) as [->|Hne].
  - by rewrite list_lookup_insert_eq.
  - by rewrite list_lookup_insert_ne.
Qed.

Lemma length_addAt (k : nat) (x : R) (v : list R) :
  length (addAt k x v) = length v.
Proof. apply length_insert. Qed.

Lemma coeff_addAt (v : list R) (k j : nat) (x : R) :
  k < length v →
  coeff (addAt k x v) j
    = if decide (j = k) then (coeff v j + x)%R else coeff v j.
Proof.
  intros Hk. unfold addAt. rewrite coeff_insert by done.
  by destruct (decide (j = k)) as [->|].
Qed.

Lemma index_lt (n D i j : nat) : i < n → j < D → i * D + j < n * D.
Proof. intros Hi Hj. nia. Qed.

Lemma index_inj (D g d g' d' : nat) :
  d < D → d' < D → g * D + d = g' * D + d' → g = g' ∧ d = d'.
Proof.
  intros Hd Hd' Heq.
  destruct (Nat.lt_trichotomy g g') as [Hlt|[->|Hlt]].
  - assert (S g * D ≤ g' * D) by (apply Nat.mul_le_mono_r; lia). lia.
  - lia.
  - assert (S g' * D ≤ g * D) by (apply Nat.mul_le_mono_r; lia). lia.
Qed.

Lemma foldl_length {A B : Type} (f : list A → B → list A) (l : list B) :
  (∀ v b, length (f v b) = length v) →
  ∀ v, length (foldl f v l) = length v.
Proof.
  intros Hf. induction l as [|b l IH]; intros v; simpl; [done |].
  by rewrite IH, Hf.
Qed.

Lemma nth_Forall_lt (G : nat) (idx : list nat) (i : nat) :
  Forall (λ g, g < G) idx → i < length idx → nth i idx 0 < G.
Proof.
  intros Hall Hi. destruct (lookup_lt_is_Some_2 idx i Hi) as [g Hg].
  rewrite (nth_lookup_Some _ _ _ _ Hg).
  by eapply (proj1 (Forall_lookup _ _) Hall).
Qed.

Lemma lookup_nth (idx : list nat) (i : nat) :
  i < length idx → idx !! i = Some (nth i idx 0).
Proof.
  intros Hi. destruct (lookup_lt_is_Some_2 idx i Hi) as [g Hg].
  by rewrite (nth_lookup_Some _ _ _ _ Hg).
Qed.

(** *** Sums *)

Lemma Rsum_cons (x : R) (a : list R) : Rsum (x :: a) = (x + Rsum a)%R.
Proof. reflexivity. Qed.

Lemma Rsum_nil : Rsum [] = 0%R.
Proof. reflexivity. Qed.

Lemma Rsum_app (a b : list R) : Rsum (a ++ b) = (Rsum a + Rsum b)%R.
Proof.
  induction a as [|x a IH].
  - rewrite app_nil_l, Rsum_nil. lra.
  - rewrite <- app_comm_cons, !Rsum_cons, IH. lra.
Qed.

Lemma Rsum_ext {A : Type} (f g : A → R) (l : list A) :
  (∀ a, a ∈ l → f a = g a) → Rsum (f <$> l) = Rsum (g <$> l).
Proof.
  induction l as [|a l IH]; intros Hfg; [done |].
  rewrite !fmap_cons, !Rsum_cons, Hfg, IH; [done | | left].
  intros b Hb. apply Hfg. by right.
Qed.

Lemma Rsum_zero {A : Type} (f : A → R) (l : list A) :
  (∀ a, a ∈ l → f a = 0%R) → Rsum (f <$> l) = 0%R.
Proof.
  induction l as [|a l IH]; intros Hf; [done |].
  rewrite fmap_cons, Rsum_cons, Hf, IH; [lra | | left].
  intros b Hb. apply Hf. by right.
Qed.

Lemma Rsum_coeff_seq (v : list R) :
  Rsum (coeff v <$> seq 0 (length v)) = Rsum v.
Proof.
  induction v as [|x v IH]; [done |].
  simpl length. rewrite <- cons_seq, fmap_cons, !Rsum_cons.
  rewrite <- fmap_S_seq, <- list_fmap_compose.
  f_equal. rewrite <- IH. by apply Rsum_ext.
Qed.

Lemma Rsum_blocks (f : nat → R) (D n : nat) :
  Rsum ((λ i, Rsum ((λ j, f (i * D + j)) <$> seq 0 D)) <$> seq 0 n)
  = Rsum (f <$> seq 0 (n * D)).
Proof.
  induction n as [|n IH]; [done |].
  rewrite seq_S, fmap_app, Rsum_app, IH.
  replace (S n * D) with (n * D + D) by lia.
  rewrite seq_app, fmap_app, Rsum_app.
  rewrite fmap_cons, fmap_nil, Rsum_cons, Rsum_nil, !Nat.add_0_l.
  replace (seq (n * D) D) with (Nat.add (n * D) <$> seq 0 D).
  - rewrite <- list_fmap_compose. unfold compose. lra.
  - rewrite fmap_add_seq. f_equal. lia.
Qed.

Lemma Rsum_insert (v : list R) (k : nat) (y : R) :
  k < length v → Rsum (<[k:=y]> v) = (Rsum v - coeff v k + y)%R.
Proof.
  revert k. induction v as [|x v IH]; intros k Hk; simpl in Hk; [lia |].
  destruct k as [|k]; simpl.
  - unfold coeff. simpl. lra.
  - rewrite IH by lia. unfold coeff. simpl. lra.
Qed.

Lemma Rsum_addAt (v : list R) (k : nat) (x : R) :
  k < length v → Rsum (addAt k x v) = (Rsum v + x)%R.
Proof. intros Hk. unfold addAt. rewrite Rsum_insert by done. lra. Qed.

Lemma coeff_replicate_0 (n k : nat) : coeff (replicate n 0%R) k = 0%R.
Proof.
  unfold coeff. destruct (replicate n 0%R !! k) as [x|] eqn:Hx; [|done].
  by apply lookup_replicate in Hx as [-> _].
Qed.

(** *** The accumulating loop nest *)

Lemma length_scatterAddOver (positions idx : list nat) (D : nat)
    (src dst : list R) :
  length (scatterAddOver positions idx D src dst) = length dst.
Proof.
  unfold scatterAddOver. apply foldl_length. intros v i.
  apply foldl_length. intros w j. apply length_addAt.
Qed.

Lemma accumulateLoop_pure (G D : nat) (idx : list nat) (src dst : list R) :
  Forall (λ g, g < G) idx →
  length src = length idx * D →
  length dst = G * D →
  accumulateLoop (length idx) idx D src dst = Returns (scatterAdd idx D src dst).
Proof.
  intros Hidx Hsrc Hdst. unfold accumulateLoop, scatterAdd, scatterAddOver.
  refine (proj1 (for_loop_foldl (λ dst, length dst = G * D)
    (λ i dst, foldl (λ dst j,
       addAt (nth i idx 0 * D + j) (coeff src (i * D + j)) dst) dst (seq 0 D))
    _ _ 0 dst Hdst _)).
  intros i s Hi Hs.
  rewrite (readAt_lt idx i 0) by lia. rewrite bind_Returns.
  pose proof (nth_Forall_lt G idx i Hidx ltac:(lia)) as Hg.
  refine (for_loop_foldl (λ dst, length dst = G * D)
    (λ j dst, addAt (nth i idx 0 * D + j) (coeff src (i * D + j)) dst)
    _ _ 0 s Hs _).
  intros j s' Hj Hs'.
  assert (i * D + j < length src) by (rewrite Hsrc; apply index_lt; lia).
  assert (nth i idx 0 * D + j < length s')
    by (rewrite Hs'; apply index_lt; lia).
  rewrite (readAt_coeff src) by done. rewrite bind_Returns.
  rewrite (readAt_coeff s') by done. rewrite bind_Returns.
  rewrite writeAt_lt by done. split; [done |].
  by rewrite length_addAt.
Qed.

Lemma inner_add_coeff (base : nat) (f : nat → R) (k : nat) :
  ∀ cnt lo v,
    base + lo + cnt ≤ length v →
    coeff (foldl (λ v j, addAt (base + j) (f j) v) v (seq lo cnt)) k
    = if decide (base + lo ≤ k < base + lo + cnt)
      then (coeff v k + f (k - base)%nat)%R else coeff v k.
Proof.
  induction cnt as [|c IH]; intros lo v Hlen; simpl.
  - rewrite decide_False by lia. done.
  - rewrite IH by (rewrite length_addAt; lia).
    rewrite coeff_addAt by lia.
    destruct (decide (k = base + lo)) as [->|Hne].
    + rewrite decide_False by lia. rewrite decide_True by lia.
      by replace (base + lo - base) with lo by lia.
    + destruct (decide (base + S lo ≤ k < base + S lo + c)).
      * by rewrite decide_True by lia.
      * by rewrite decide_False by lia.
Qed.

Lemma contribution_cons (i : nat) (positions idx : list nat) (D : nat)
    (src : list R) (g d : nat) :
  contribution (i :: positions) idx D src g d
  = ((if decide (idx !! i = Some g) then coeff src (i * D + d) else 0)
     + contribution positions idx D src g d)%R.
Proof.
  unfold contribution. rewrite filter_cons.
  destruct (decide (idx !! i = Some g)).
  - by rewrite fmap_cons, Rsum_cons.
  - lra.
Qed.

Lemma scatterAddOver_coeff (G D : nat) (idx : list nat) (src : list R)
    (g d : nat) :
  g < G → d < D → Forall (λ g, g < G) idx →
  ∀ positions dst,
    Forall (λ i, i < length idx) positions →
    length dst = G * D →
    coeff (scatterAddOver positions idx D src dst) (g * D + d)
    = (coeff dst (g * D + d) + contribution positions idx D src g d)%R.
Proof.
  intros Hg Hd Hidx. induction positions as [|i ps IH]; intros dst Hps Hdst.
  - unfold contribution. simpl. lra.
  - apply Forall_cons in Hps as [Hi Hps].
    pose proof (nth_Forall_lt G idx i Hidx Hi) as Hb.
    change (scatterAddOver (i :: ps) idx D src dst)
      with (scatterAddOver ps idx D src
              (foldl (λ v j, addAt (nth i idx 0 * D + j)
                                   ((λ j, coeff src (i * D + j)) j) v)
                     dst (seq 0 D))).
    rewrite IH; [| done | by rewrite foldl_length; [|intros; apply length_addAt]].
    rewrite inner_add_coeff
      by (rewrite Hdst; pose proof (index_lt G D (nth i idx 0) 0 Hb); nia).
    rewrite contribution_cons, (lookup_nth idx i Hi).
    destruct (decide (nth i idx 0 * D + 0 ≤ g * D + d
                      < nth i idx 0 * D + 0 + D)) as [Hin|Hout].
    + assert (nth i idx 0 = g) as Heq.
      { assert (∃ d', d' < D ∧ g * D + d = nth i idx 0 * D + d')
          as (d' & Hd' & Hsum)
          by (exists (g * D + d - nth i idx 0 * D); lia).
        by destruct (index_inj D g d (nth i idx 0) d' Hd Hd' Hsum). }
      rewrite decide_True by (by rewrite Heq).
      rewrite Heq. replace (g * D + d - g * D) with d by lia. lra.
    + rewrite decide_False; [lra |]. intros [= Heq]. apply Hout.
      rewrite Heq. lia.
Qed.

Lemma scatterAdd_coeff (G D : nat) (idx : list nat) (src dst : list R)
    (g d : nat) :
  g < G → d < D → Forall (λ g, g < G) idx → length dst = G * D →
  coeff (scatterAdd idx D src dst) (g * D + d)
  = (coeff dst (g * D + d)
     + contribution (seq 0 (length idx)) idx D src g d)%R.
Proof.
  intros Hg Hd Hidx Hdst. unfold scatterAdd.
  apply (scatterAddOver_coeff G); try done.
  apply Forall_forall. intros i Hi. apply elem_of_seq in Hi. lia.
Qed.

Lemma inner_add_sum (base : nat) (f : nat → R) :
  ∀ cnt lo v,
    base + lo + cnt ≤ length v →
    Rsum (foldl (λ v j, addAt (base + j) (f j) v) v (seq lo cnt))
    = (Rsum v + Rsum (f <$> seq lo cnt))%R.
Proof.
  induction cnt as [|c IH]; intros lo v Hlen.
  - simpl. lra.
  - rewrite <- cons_seq, fmap_cons, Rsum_cons. cbn [foldl].
    rewrite IH by (rewrite length_addAt; lia).
    rewrite Rsum_addAt by lia. lra.
Qed.

Lemma scatterAdd_sum (G D : nat) (idx : list nat) (src dst : list R) :
  Forall (λ g, g < G) idx →
  length src = length idx * D →
  length dst = G * D →
  Rsum (scatterAdd idx D src dst) = (Rsum dst + Rsum src)%R.
Proof.
  intros Hidx Hsrc Hdst.
  assert (∀ positions dst,
    Forall (λ i, i < length idx) positions → length dst = G * D →
    Rsum (scatterAddOver positions idx D src dst)
    = (Rsum dst
       + Rsum ((λ i, Rsum ((λ j, coeff src (i * D + j)) <$> seq 0 D))
               <$> positions))%R) as Hgen.
  { induction positions as [|i ps IH]; intros v Hps Hv.
    - simpl. lra.
    - apply Forall_cons in Hps as [Hi Hps].
      pose proof (nth_Forall_lt G idx i Hidx Hi) as Hb.
      change (scatterAddOver (i :: ps) idx D src v)
        with (scatterAddOver ps idx D src
                (foldl (λ v j, addAt (nth i idx 0 * D + j)
                                     ((λ j, coeff src (i * D + j)) j) v)
                       v (seq 0 D))).
      rewrite IH; [| done | by rewrite foldl_length; [|intros; apply length_addAt]].
      rewrite inner_add_sum
        by (rewrite Hv; pose proof (index_lt G D (nth i idx 0) 0 Hb); nia).
      rewrite fmap_cons, Rsum_cons. lra. }
  unfold scatterAdd. rewrite Hgen; [| | done].
  - rewrite (Rsum_blocks (coeff src)), <- Hsrc, Rsum_coeff_seq. done.
  - apply Forall_forall. intros i Hi. apply elem_of_seq in Hi. lia.
Qed.

(** *** The assigning loop nest *)

Lemma length_copyFrom (idx : list nat) (D : nat) (src dst : list R) :
  length (copyFrom idx D src dst) = length dst.
Proof.
  unfold copyFrom. apply foldl_length. intros v i.
  apply foldl_length. intros w j. apply length_insert.
Qed.

Lemma assignLoop_pure (G D : nat) (idx : list nat) (src dst : list R) :
  Forall (λ g, g < G) idx →
  length src = G * D →
  length dst = length idx * D →
  assignLoop (length idx) idx D src dst = Returns (copyFrom idx D src dst).
Proof.
  intros Hidx Hsrc Hdst. unfold assignLoop, copyFrom.
  refine (proj1 (for_loop_foldl (λ dst, length dst = length idx * D)
    (λ i dst, foldl (λ dst j,
       <[i * D + j := coeff src (nth i idx 0 * D + j)]> dst) dst (seq 0 D))
    _ _ 0 dst Hdst _)).
  intros i s Hi Hs.
  rewrite (readAt_lt idx i 0) by lia. rewrite bind_Returns.
  pose proof (nth_Forall_lt G idx i Hidx ltac:(lia)) as Hg.
  refine (for_loop_foldl (λ dst, length dst = length idx * D)
    (λ j dst, <[i * D + j := coeff src (nth i idx 0 * D + j)]> dst)
    _ _ 0 s Hs _).
  intros j s' Hj Hs'.
  assert (nth i idx 0 * D + j < length src)
    by (rewrite Hsrc; apply index_lt; lia).
  assert (i * D + j < length s') by (rewrite Hs'; apply index_lt; lia).
  rewrite (readAt_coeff src) by done. rewrite bind_Returns.
  rewrite writeAt_lt by done. split; [done |].
  by rewrite length_insert.
Qed.

Lemma inner_set_coeff (base : nat) (f : nat → R) (k : nat) :
  ∀ cnt lo v,
    base + lo + cnt ≤ length v →
    coeff (foldl (λ v j, <[base + j := f j]> v) v (seq lo cnt)) k
    = if decide (base + lo ≤ k < base + lo + cnt)
      then f (k - base) else coeff v k.
Proof.
  induction cnt as [|c IH]; intros lo v Hlen; simpl.
  - rewrite decide_False by lia. done.
  - rewrite IH by (rewrite length_insert; lia).
    rewrite coeff_insert by lia.
    destruct (decide (k = base + lo)) as [->|Hne].
    + rewrite decide_False by lia. rewrite decide_True by lia.
      by replace (base + lo - base) with lo by lia.
    + destruct (decide (base + S lo ≤ k < base + S lo + c)).
      * by rewrite decide_True by lia.
      * by rewrite decide_False by lia.
Qed.

Lemma copyFrom_coeff (idx : list nat) (D : nat) (src dst : list R) (i d : nat) :
  i < length idx → d < D → length dst = length idx * D →
  coeff (copyFrom idx D src dst) (i * D + d) = coeff src (nth i idx 0 * D + d).
Proof.
  intros Hi Hd Hdst.
  assert (∀ positions v,
    Forall (λ i', i' < length idx) positions → length v = length idx * D →
    coeff (foldl (λ dst i',
             foldl (λ dst j,
               <[i' * D + j := coeff src (nth i' idx 0 * D + j)]> dst)
               dst (seq 0 D)) v positions) (i * D + d)
    = if decide (i ∈ positions) then coeff src (nth i idx 0 * D + d)
      else coeff v (i * D + d)) as Hgen.
  { induction positions as [|i' ps IH]; intros v Hps Hv.
    - cbn [foldl]. rewrite decide_False; [done | by apply not_elem_of_nil].
    - apply Forall_cons in Hps as [Hi' Hps]. cbn [foldl].
      rewrite IH; [| done | by rewrite foldl_length; [|intros; apply length_insert]].
      rewrite (inner_set_coeff (i' * D)
                 (λ j, coeff src (nth i' idx 0 * D + j)))
        by (rewrite Hv; pose proof (index_lt (length idx) D i' 0 Hi'); nia).
      destruct (decide (i ∈ ps)) as [Hin|Hnin].
      + rewrite decide_True; [done | by right].
      + destruct (decide (i' * D + 0 ≤ i * D + d < i' * D + 0 + D))
          as [Hrange|Hrange].
        * assert (i' = i) as ->.
          { assert (∃ d', d' < D ∧ i * D + d = i' * D + d')
              as (d' & Hd' & Hsum) by (exists (i * D + d - i' * D); lia).
            by destruct (index_inj D i d i' d' Hd Hd' Hsum). }
          rewrite decide_True by left.
          by replace (i * D + d - i * D) with d by lia.
        * rewrite decide_False; [done |].
          intros [->|Hin]%elem_of_cons; [lia | done]. }
  unfold copyFrom. rewrite Hgen; [| | done].
  - rewrite decide_True; [done |]. apply elem_of_seq. lia.
  - apply Forall_forall. intros i' Hi'. apply elem_of_seq in Hi'. lia.
Qed.

(** *** Loops with an invariant that follows the counter *)

Lemma for_loop_invariant {St : Type} (P : nat → St → Prop)
    (body : nat → St → Outcome St) (count : nat) :
  ∀ first s,
    P first s →
    (∀ i s, first ≤ i < first + count → P i s →
            ∃ s', body i s = Returns s' ∧ P (S i) s') →
    ∃ s', for_loop first count body s = Returns s' ∧ P (first + count) s'.
Proof.
  induction count as [|c IH]; intros first s Hs Hbody; simpl.
  - exists s. by rewrite Nat.add_0_r.
  - destruct (Hbody first s) as (s1 & -> & Hs1); [lia | done |].
    rewrite bind_Returns.
    destruct (IH (S first) s1 Hs1) as (s2 & Hrun & Hs2).
    + intros i s' Hi Hs'. apply Hbody; [lia | done].
    + exists s2. split; [done |]. by replace (first + S c) with (S first + c) by lia.
Qed.

Lemma Rsum_single (f : nat → R) (l : list nat) (x : nat) :
  NoDup l → x ∈ l → (∀ y, y ∈ l → y ≠ x → f y = 0%R) →
  Rsum (f <$> l) = f x.
Proof.
  induction l as [|a l IH]; intros Hnd Hx Hf.
  - by apply elem_of_nil in Hx.
  - apply NoDup_cons in Hnd as [Ha Hnd]. rewrite fmap_cons, Rsum_cons.
    apply elem_of_cons in Hx as [->|Hx].
    + rewrite Rsum_zero; [lra |]. intros y Hy. apply Hf; [by right |].
      intros ->. done.
    + rewrite IH; [| done | done |].
      * rewrite (Hf a); [lra | left |]. intros ->. done.
      * intros y Hy Hne. apply Hf; [by right | done].
Qed.

Lemma contribution_alt (positions idx : list nat) (D : nat) (src : list R)
    (g d : nat) :
  contribution positions idx D src g d
  = Rsum ((λ i, if decide (idx !! i = Some g) then coeff src (i * D + d)
                else 0%R) <$> positions).
Proof.
  induction positions as [|i ps IH]; [done |].
  rewrite contribution_cons, fmap_cons, Rsum_cons, IH. done.
Qed.

Lemma scatterAdd_nothing (idx : list nat) (D : nat) (src dst : list R) :
  length idx * D = 0 → scatterAdd idx D src dst = dst.
Proof.
  intros Hzero. unfold scatterAdd, scatterAddOver.
  destruct D as [|D].
  - generalize (seq 0 (length idx)). intros l. revert dst.
    induction l as [|i l IH]; intros dst; [done |]. simpl. apply IH.
  - assert (length idx = 0) as -> by lia. done.
Qed.

(** ** The gather/scatter channel *)

Section gather_scatter.
Import mesh com GatherScatterCommunication.

Variables (N : nat) (_mesh : Mesh) (D : nat).

Let distribution := getVertexDistribution _mesh.
Let G := getGlobalNumberOfVertices _mesh.

Hypothesis several_ranks : 1 < N.
Hypothesis indices_in_range :
  ∀ r, r < N → Forall (λ g, g < G) (distribution !!! r).

Lemma length_gather_over (contributions : nat → list R) (ranks : list nat)
    (global : list R) :
  length (foldl (λ global r,
            scatterAdd (distribution !!! r) D (contributions r) global)
            global ranks)
  = length global.
Proof.
  apply foldl_length. intros v r. apply length_scatterAddOver.
Qed.

Lemma coeff_gather_over (contributions : nat → list R) (g d : nat) :
  g < G → d < D →
  ∀ ranks global,
    Forall (λ r, r < N) ranks →
    length global = G * D →
    coeff (foldl (λ global r,
             scatterAdd (distribution !!! r) D (contributions r) global)
             global ranks) (g * D + d)
    = (coeff global (g * D + d)
       + Rsum ((λ r, contribution (seq 0 (length (distribution !!! r)))
                       (distribution !!! r) D (contributions r) g d)
               <$> ranks))%R.
Proof.
  intros Hg Hd. induction ranks as [|r rs IH]; intros global Hrs Hlen.
  - simpl. lra.
  - apply Forall_cons in Hrs as [Hr Hrs]. cbn [foldl].
    rewrite IH; [| done | by unfold scatterAdd; rewrite length_scatterAddOver].
    rewrite (scatterAdd_coeff G) by auto.
    rewrite fmap_cons, Rsum_cons. lra.
Qed.

Lemma coeff_gather_spec (contributions : nat → list R) (g d : nat) :
  g < G → d < D →
  coeff (gather_spec N distribution G D contributions) (g * D + d)
  = slotSum N distribution D contributions g d.
Proof.
  intros Hg Hd. unfold gather_spec, slotSum.
  rewrite coeff_gather_over; try done.
  - rewrite coeff_replicate_0. lra.
  - apply Forall_forall. intros r Hr. apply elem_of_seq in Hr. lia.
  - apply length_replicate.
Qed.

Lemma length_gather_spec (contributions : nat → list R) :
  length (gather_spec N distribution G D contributions) = G * D.
Proof.
  unfold gather_spec. rewrite length_gather_over. apply length_replicate.
Qed.

Lemma slotSum_single (contributions : nat → list R) (g r i d : nat) :
  r < N → (distribution !!! r) !! i = Some g →
  occursOnlyAt N distribution g r i →
  slotSum N distribution D contributions g d
  = coeff (contributions r) (i * D + d).
Proof.
  intros Hr Hi Honly. unfold slotSum.
  rewrite (Rsum_single _ _ r).
  - rewrite contribution_alt. rewrite (Rsum_single _ _ i).
    + by rewrite decide_True.
    + apply NoDup_seq.
    + apply elem_of_seq. apply lookup_lt_Some in Hi. lia.
    + intros i' _ Hne. rewrite decide_False; [done |].
      intros Hi'. by destruct (Honly r i' Hr Hi').
  - apply NoDup_seq.
  - apply elem_of_seq. lia.
  - intros r' Hr' Hne. apply elem_of_seq in Hr'.
    rewrite contribution_alt. apply Rsum_zero.
    intros i' _. rewrite decide_False; [done |].
    intros Hi'. destruct (Honly r' i'); [lia | done | done].
Qed.

Lemma preconditions_process (r : nat) :
  preconditions (process N r) = Returns ().
Proof.
  unfold preconditions, process. cbn.
  rewrite (bool_decide_true (1 < N)) by done.
  by destruct (decide (r = 0)) as [->|Hne];
    [rewrite (bool_decide_true (0 = 0)) by done
    |rewrite (bool_decide_true (r ≠ 0)) by done].
Qed.

Lemma buffer_all (v : list R) (n : nat) :
  length v = n → buffer v n = Returns v.
Proof.
  intros <-. unfold buffer. rewrite decide_True by done.
  by rewrite firstn_all.
Qed.

(** The coordinator's [send]: every pending worker message is consumed in
    ascending rank order and the assembled vector is appended to the
    inter-participant link. *)
Lemma send_coordinator (contributions : nat → list R) (size : nat) (w : World) :
  length (contributions 0) = length (distribution !!! 0) * D →
  (∀ r, 1 ≤ r < N → 0 < length (distribution !!! r) * D →
        ∃ q, toCoordinator w !!! r = contributions r :: q
             ∧ length (contributions r) = length (distribution !!! r) * D) →
  ∃ w', send (process N 0) _mesh (contributions 0) size D w = Returns w'
        ∧ toPeer w' = toPeer w ++ [gather_spec N distribution G D contributions]
        ∧ toWorker w' = toWorker w
        ∧ fromPeer w' = fromPeer w.
Proof.
  intros Hlen0 Hmsgs. unfold send.
  rewrite preconditions_process, bind_Returns.
  cbn [process isSlave isMaster getRank getSize].
  rewrite (bool_decide_false (0 ≠ 0)) by auto.
  rewrite (bool_decide_true (0 = 0)) by done.
  cbn [PRECICE_ASSERT]. rewrite bind_Returns.
  fold distribution. fold G.
  rewrite (accumulateLoop_pure G)
    by first [done | apply indices_in_range; lia | apply length_replicate].
  rewrite bind_Returns.
  pose (P := λ (k : nat) (s : list R * World),
    s.1 = foldl (λ global r,
            scatterAdd (distribution !!! r) D (contributions r) global)
            (replicate (G * D) 0%R) (seq 0 k)
    ∧ toPeer s.2 = toPeer w ∧ toWorker s.2 = toWorker w
    ∧ fromPeer s.2 = fromPeer w
    ∧ ∀ r, k ≤ r → toCoordinator s.2 !!! r = toCoordinator w !!! r).
  match goal with
  | |- ∃ w', (for_loop 1 (N - 1) ?body ?s ≫= _) = _ ∧ _ =>
      destruct (for_loop_invariant P body (N - 1) 1 s) as ([glob w1] & -> & HP)
  end.
  - unfold P. cbn [fst snd]. done.
  - intros r [glob w1] Hr (Hglob & HtoPeer & HtoWorker & HfromPeer & Hpending).
    cbn [fst snd] in *.
    assert (length glob = G * D) as Hgl
      by (rewrite Hglob, length_gather_over; apply length_replicate).
    destruct (decide (0 < length (distribution !!! r) * D)) as [Hpos|Hzero].
    + rewrite bool_decide_true by done.
      destruct (Hmsgs r ltac:(lia) Hpos) as (q & Hq & Hlenr).
      unfold receiveFromWorker. rewrite Hpending, Hq by lia.
      cbn [fetch]. rewrite decide_True by done. rewrite !bind_Returns.
      cbn beta iota.
      rewrite (accumulateLoop_pure G)
        by first [done | apply indices_in_range; lia].
      rewrite bind_Returns. eexists. split; [done |].
      unfold P. cbn [fst snd toPeer toWorker fromPeer toCoordinator].
      repeat split; try done.
      * by rewrite seq_S, foldl_app, <- Hglob.
      * intros r' Hr'. rewrite lookup_total_insert_ne by lia.
        apply Hpending. lia.
    + rewrite bool_decide_false by done. eexists. split; [done |].
      unfold P. cbn [fst snd]. repeat split; try done.
      * rewrite seq_S, foldl_app, <- Hglob. cbn [foldl].
        rewrite Nat.add_0_l, scatterAdd_nothing by lia. done.
      * intros r' Hr'. apply Hpending. lia.
  - destruct HP as (Hglob & HtoPeer & HtoWorker & HfromPeer & _).
    cbn [fst snd] in *. rewrite bind_Returns.
    replace (1 + (N - 1)) with N in Hglob by lia.
    change (glob = gather_spec N distribution G D contributions) in Hglob.
    rewrite buffer_all, bind_Returns
      by (rewrite Hglob; apply length_gather_spec).
    eexists. split; [done |].
    cbn. by rewrite HtoPeer, Hglob.
Qed.

Lemma send_worker (r : nat) (items : list R) (w : World) :
  r ≠ 0 →
  send (process N r) _mesh items (length items) D w
  = Returns (if decide (0 < length items) then sendToCoordinator r items w
             else w).
Proof.
  intros Hr. unfold send. rewrite preconditions_process, bind_Returns.
  cbn [process isSlave isMaster getRank getSize].
  rewrite (bool_decide_true (r ≠ 0)) by done.
  destruct (decide (0 < length items)).
  - rewrite bool_decide_true by done. by rewrite buffer_all.
  - by rewrite bool_decide_false by done.
Qed.

(** After the workers' sends, the message of every worker with data is
    the only one pending on its link. *)
Lemma send_workers (localItems : nat → list R) :
  ∃ w, for_loop 1 (N - 1) (λ r w,
         send (process N r) _mesh (localItems r) (length (localItems r)) D w)
         idle = Returns w
       ∧ toPeer w = [] ∧ toWorker w = ∅ ∧ fromPeer w = []
       ∧ ∀ r, 1 ≤ r < N → 0 < length (localItems r) →
              toCoordinator w !!! r = [localItems r].
Proof.
  pose (P := λ (k : nat) (w : World),
    toPeer w = [] ∧ toWorker w = ∅ ∧ fromPeer w = []
    ∧ (∀ r, 1 ≤ r < k → 0 < length (localItems r) →
            toCoordinator w !!! r = [localItems r])
    ∧ (∀ r, k ≤ r → toCoordinator w !!! r = [])).
  match goal with
  | |- ∃ w, for_loop 1 (N - 1) ?body ?s = _ ∧ _ =>
      destruct (for_loop_invariant P body (N - 1) 1 s) as (w & Hrun & HP)
  end.
  - unfold P, idle. cbn.
    repeat split; try done; intros; lia.
  - intros r w Hr (HtoPeer & HtoWorker & HfromPeer & Hsent & Hpending).
    rewrite send_worker by lia. eexists. split; [done |].
    destruct (decide (0 < length (localItems r))) as [Hpos|Hzero].
    + unfold P, sendToCoordinator. cbn. repeat split; try done.
      * intros r' Hr' Hpos'. destruct (decide (r' = r)) as [->|Hne].
        -- rewrite lookup_total_insert_eq. by rewrite Hpending.
        -- rewrite lookup_total_insert_ne by done. apply Hsent; [lia | done].
      * intros r' Hr'. rewrite lookup_total_insert_ne by lia.
        apply Hpending. lia.
    + unfold P. repeat split; try done.
      * intros r' Hr' Hpos'. destruct (decide (r' = r)) as [->|Hne];
          [done | apply Hsent; [lia | done]].
      * intros r' Hr'. apply Hpending. lia.
  - exists w. destruct HP as (? & ? & ? & Hsent & _).
    repeat split; try done.
    intros r Hr. apply Hsent. lia.
Qed.

Lemma receive_coordinator (global : list R) (buffers : nat → list R)
    (size : nat) (w : World) :
  length global = G * D →
  fromPeer w = [global] →
  toWorker w = ∅ →
  (∀ r, r < N → length (buffers r) = length (distribution !!! r) * D) →
  ∃ w', receive (process N 0) _mesh (buffers 0) size D w
        = Returns (scattered distribution D global buffers 0, w')
        ∧ ∀ r, 1 ≤ r < N → 0 < length (buffers r) →
               toWorker w' !!! r = [scattered distribution D global buffers r].
Proof.
  intros Hglobal Hpeer Hworker Hbuffers. unfold receive.
  rewrite preconditions_process, bind_Returns.
  cbn [process isSlave isMaster getRank getSize].
  rewrite (bool_decide_false (0 ≠ 0)) by auto.
  rewrite (bool_decide_true (0 = 0)) by done.
  unfold receiveFromPeer. rewrite Hpeer. cbn [fetch].
  fold G. rewrite decide_True by done. rewrite !bind_Returns.
  cbn beta iota. cbn [PRECICE_ASSERT]. rewrite bind_Returns.
  fold distribution.
  rewrite (assignLoop_pure G)
    by first [done | apply indices_in_range; lia | apply Hbuffers; lia].
  rewrite bind_Returns.
  pose (P := λ (k : nat) (w' : World),
    (∀ r, 1 ≤ r < k → 0 < length (buffers r) →
          toWorker w' !!! r = [scattered distribution D global buffers r])
    ∧ (∀ r, k ≤ r → toWorker w' !!! r = [])).
  match goal with
  | |- ∃ w', (for_loop 1 (N - 1) ?body ?s ≫= _) = _ ∧ _ =>
      destruct (for_loop_invariant P body (N - 1) 1 s) as (w1 & -> & HP)
  end.
  - unfold P. cbn. rewrite Hworker. split; [intros; lia | done].
  - intros r w1 Hr (Hsent & Hpending).
    destruct (decide (0 < length (distribution !!! r) * D)) as [Hpos|Hzero].
    + rewrite bool_decide_true by done.
      rewrite (assignLoop_pure G)
        by first [done | apply indices_in_range; lia | apply length_replicate].
      rewrite bind_Returns.
      rewrite buffer_all, bind_Returns
        by (rewrite length_copyFrom; apply length_replicate).
      eexists. split; [done |].
      unfold P, sendToWorker. cbn. split.
      * intros r' Hr' Hpos'. destruct (decide (r' = r)) as [->|Hne].
        -- rewrite lookup_total_insert_eq, Hpending by done.
           unfold scattered. rewrite decide_False by lia.
           by rewrite decide_True by done.
        -- rewrite lookup_total_insert_ne by done. apply Hsent; [lia | done].
      * intros r' Hr'. rewrite lookup_total_insert_ne by lia.
        apply Hpending. lia.
    + rewrite bool_decide_false by done. eexists. split; [done |].
      unfold P. split.
      * intros r' Hr' Hpos'. destruct (decide (r' = r)) as [->|Hne].
        -- rewrite Hbuffers in Hpos' by lia. done.
        -- apply Hsent; [lia | done].
      * intros r' Hr'. apply Hpending. lia.
  - rewrite bind_Returns. exists w1. split.
    + unfold scattered. by rewrite decide_True by done.
    + intros r Hr. apply (proj1 HP). lia.
Qed.

Lemma receive_worker (r : nat) (buf msg : list R) (w : World) :
  r ≠ 0 → 0 < length buf →
  toWorker w !!! r = [msg] → length msg = length buf →
  receive (process N r) _mesh buf (length buf) D w
  = Returns (msg, {| toCoordinator := toCoordinator w;
                     toWorker := <[r := []]> (toWorker w);
                     toPeer := toPeer w; fromPeer := fromPeer w |}).
Proof.
  intros Hr Hpos Hmsg Hlen. unfold receive.
  rewrite preconditions_process, bind_Returns.
  cbn [process isSlave isMaster getRank getSize].
  rewrite (bool_decide_false (r = 0)) by done.
  rewrite (bool_decide_true (r ≠ 0)) by done.
  rewrite bind_Returns. cbn beta iota.
  rewrite bool_decide_true by done.
  unfold receiveFromCoordinator. rewrite Hmsg. cbn [fetch].
  rewrite decide_True by done. rewrite !bind_Returns. cbn beta iota.
  unfold store. rewrite decide_True by done. rewrite bind_Returns.
  by rewrite drop_all, app_nil_r.
Qed.

Lemma receive_worker_nothing (r : nat) (buf : list R) (w : World) :
  r ≠ 0 → ¬ 0 < length buf →
  receive (process N r) _mesh buf (length buf) D w = Returns (buf, w).
Proof.
  intros Hr Hzero. unfold receive.
  rewrite preconditions_process, bind_Returns.
  cbn [process isSlave isMaster getRank getSize].
  rewrite (bool_decide_false (r = 0)) by done.
  rewrite (bool_decide_true (r ≠ 0)) by done.
  rewrite bind_Returns. cbn beta iota.
  by rewrite bool_decide_false by done.
Qed.

Lemma length_scattered (global : list R) (buffers : nat → list R) (r : nat) :
  r < N →
  (∀ r, r < N → length (buffers r) = length (distribution !!! r) * D) →
  length (scattered distribution D global buffers r) = length (buffers r).
Proof.
  intros Hr Hbuffers. unfold scattered.
  destruct (decide (r = 0)) as [->|Hne]; [apply length_copyFrom |].
  destruct (decide (0 < length (buffers r))); [| done].
  rewrite length_copyFrom, length_replicate. symmetry. by apply Hbuffers.
Qed.

Lemma receive_all (global : list R) (buffers : nat → list R) (w : World) :
  length global = G * D →
  fromPeer w = [global] →
  toWorker w = ∅ →
  (∀ r, r < N → length (buffers r) = length (distribution !!! r) * D) →
  ∃ w', receiveOnAllRanks N _mesh D buffers w
        = Returns (scattered distribution D global buffers <$> seq 0 N, w').
Proof.
  intros Hglobal Hpeer Hworker Hbuffers. unfold receiveOnAllRanks.
  destruct (receive_coordinator global buffers (length (buffers 0)) w)
    as (w0 & -> & Hsent); try done.
  rewrite bind_Returns. cbn beta iota.
  pose (P := λ (k : nat) (s : list (list R) * World),
    s.1 = scattered distribution D global buffers <$> seq 0 k
    ∧ ∀ r, k ≤ r < N → 0 < length (buffers r) →
           toWorker s.2 !!! r = [scattered distribution D global buffers r]).
  match goal with
  | |- ∃ w', for_loop 1 (N - 1) ?body ?s = _ =>
      destruct (for_loop_invariant P body (N - 1) 1 s)
        as ([received w1] & Hrun & Hrec & _)
  end.
  - unfold P. cbn [fst snd]. split; [done |]. intros r Hr. apply Hsent. lia.
  - intros r [received w1] Hr [Hrec Hpending]. cbn [fst snd] in *.
    destruct (decide (0 < length (buffers r))) as [Hpos|Hzero].
    + rewrite (receive_worker r (buffers r)
                 (scattered distribution D global buffers r));
        [| lia | done | apply Hpending; [lia | done]
         | apply length_scattered; [lia | done]].
      rewrite bind_Returns. cbn beta iota. eexists. split; [done |].
      unfold P. cbn [fst snd toWorker]. split.
      * by rewrite Hrec, seq_S, fmap_app.
      * intros r' Hr' Hpos'. rewrite lookup_total_insert_ne by lia.
        apply Hpending; [lia | done].
    + rewrite receive_worker_nothing by (done || lia).
      rewrite bind_Returns. cbn beta iota. eexists. split; [done |].
      unfold P. cbn [fst snd]. split.
      * rewrite Hrec, seq_S, fmap_app. cbn. unfold scattered at 3.
        rewrite decide_False by lia. by rewrite decide_False by done.
      * intros r' Hr' Hpos'. apply Hpending; [lia | done].
  - cbn [fst snd] in Hrec. exists w1. rewrite Hrun, Hrec.
    by replace (1 + (N - 1)) with N by lia.
Qed.

Lemma round_trip (localItems buffers : nat → list R) :
  (∀ r, r < N → length (localItems r) = length (distribution !!! r) * D) →
  (∀ r, r < N → length (buffers r) = length (distribution !!! r) * D) →
  ∃ w', roundTrip N _mesh D localItems buffers
        = Returns (scattered distribution D
                     (gather_spec N distribution G D localItems) buffers
                   <$> seq 0 N, w').
Proof.
  intros Hitems Hbuffers. unfold roundTrip, sendOnAllRanks.
  destruct (send_workers localItems)
    as (w0 & -> & HtoPeer & HtoWorker & HfromPeer & Hsent).
  rewrite bind_Returns.
  destruct (send_coordinator localItems (length (localItems 0)) w0)
    as (w1 & -> & HtoPeer1 & HtoWorker1 & HfromPeer1).
  - apply Hitems. lia.
  - intros r Hr Hpos. exists []. split; [| apply Hitems; lia].
    apply Hsent; [done |]. rewrite Hitems by lia. done.
  - rewrite bind_Returns.
    apply (receive_all (gather_spec N distribution G D localItems));
      try done.
    + apply length_gather_spec.
    + cbn. by rewrite HfromPeer1, HfromPeer, HtoPeer1, HtoPeer.
    + cbn. by rewrite HtoWorker1.
Qed.

End gather_scatter.

(** Evaluation of a slot sum of the two-rank scenario. *)
Lemma scenario_slice_0 :
  mesh.getVertexDistribution GatherScatterCommunication.scenarioMesh !!! 0
  = [0; 1].
Proof. reflexivity. Qed.

Lemma scenario_slice_1 :
  mesh.getVertexDistribution GatherScatterCommunication.scenarioMesh !!! 1
  = [2; 3].
Proof. reflexivity. Qed.

Ltac scenario_slot H :=
  unfold GatherScatterCommunication.slotSum in H;
  cbn [seq fmap list_fmap] in H;
  rewrite scenario_slice_0, scenario_slice_1 in H;
  unfold contribution in H; cbn in H;
  repeat first [ rewrite decide_True in H by done
               | rewrite decide_False in H by congruence ];
  cbn in H.

(** C2 (gather semantics of [send]).  On the coordinator of [N] ranks, with
    the slice of every worker that has data pending on its link, [send]
    returns and appends exactly one vector to the inter-participant link.
    That vector has [globalVertexCount * valueDimension] entries; it is the
    zeroed vector to which rank 0's and then the workers' contributions, in
    ascending rank order, were added at [distribution[r][i]*valueDimension + d]
    ([gather_spec]); and the slot of global index [g] and component [d]
    holds the sum of all contributions made to it ([slotSum]). *)
Theorem send_gathers_by_summation (N : nat) (_mesh : mesh.Mesh)
    (valueDimension size : nat) (contributions : nat → list R)
    (w : com.World) :
  1 < N →
  (∀ r, r < N →
        Forall (λ g, g < mesh.getGlobalNumberOfVertices _mesh)
               (mesh.getVertexDistribution _mesh !!! r)) →
  length (contributions 0)
    = length (mesh.getVertexDistribution _mesh !!! 0) * valueDimension →
  (∀ r, 1 ≤ r < N →
        0 < length (mesh.getVertexDistribution _mesh !!! r) * valueDimension →
        ∃ q, com.toCoordinator w !!! r = contributions r :: q
             ∧ length (contributions r)
               = length (mesh.getVertexDistribution _mesh !!! r)
                 * valueDimension) →
  ∃ w' global,
    GatherScatterCommunication.send (GatherScatterCommunication.process N 0)
      _mesh (contributions 0) size valueDimension w = Returns w'
    ∧ com.toPeer w' = com.toPeer w ++ [global]
    ∧ length global = mesh.getGlobalNumberOfVertices _mesh * valueDimension
    ∧ global = GatherScatterCommunication.gather_spec N
                 (mesh.getVertexDistribution _mesh)
                 (mesh.getGlobalNumberOfVertices _mesh) valueDimension
                 contributions
    ∧ ∀ g d, g < mesh.getGlobalNumberOfVertices _mesh → d < valueDimension →
             coeff global (g * valueDimension + d)
             = GatherScatterCommunication.slotSum N
                 (mesh.getVertexDistribution _mesh) valueDimension
                 contributions g d.
Proof.
  intros HN Hrange Hlen0 Hmsgs.
  destruct (send_coordinator N _mesh valueDimension HN Hrange contributions
              size w Hlen0 Hmsgs) as (w' & Hrun & HtoPeer & _).
  exists w'. eexists. split; [exact Hrun |]. split; [exact HtoPeer |].
  split; [by apply length_gather_spec |]. split; [done |].
  intros g d Hg Hd. by apply coeff_gather_spec.
Qed.

Lemma send_gathers_by_summation_witness :
  ∃ w' global,
    GatherScatterCommunication.send (GatherScatterCommunication.process 2 0)
      GatherScatterCommunication.scenarioMesh
      (GatherScatterCommunication.scenarioItems 0) 2 1
      GatherScatterCommunication.scenarioPosted = Returns w'
    ∧ com.toPeer w' = [global]
    ∧ coeff global 0 = 10%R ∧ coeff global 1 = 20%R
    ∧ coeff global 2 = 30%R ∧ coeff global 3 = 40%R.
Proof.
  destruct (send_gathers_by_summation 2
              GatherScatterCommunication.scenarioMesh 1 2
              GatherScatterCommunication.scenarioItems
              GatherScatterCommunication.scenarioPosted)
    as (w' & global & Hrun & HtoPeer & Hlen & Hspec & Hslots).
  - lia.
  - intros [|[|r]] Hr; [vm_compute; repeat constructor.. | lia].
  - reflexivity.
  - intros [|[|r]] Hr _; [lia | | lia]. exists []. split; reflexivity.
  - exists w', global. split; [exact Hrun |]. split; [exact HtoPeer |].
    pose proof (Hslots 0 0 ltac:(cbn; lia) ltac:(lia)) as H0.
    pose proof (Hslots 1 0 ltac:(cbn; lia) ltac:(lia)) as H1.
    pose proof (Hslots 2 0 ltac:(cbn; lia) ltac:(lia)) as H2.
    pose proof (Hslots 3 0 ltac:(cbn; lia) ltac:(lia)) as H3.
    scenario_slot H0. scenario_slot H1. scenario_slot H2. scenario_slot H3.
    rewrite H0, H1, H2, H3. repeat split; lra.
Defined.

(** C1 (gather/scatter round trip).  For [N > 1] ranks, a distribution whose
    indices lie below the global vertex count and local vectors of
    [|distribution[r]| * valueDimension] entries: [send] on all ranks, the
    peer handing the assembled vector back unchanged, then [receive] on all
    ranks returns, and rank [r] then holds a vector as long as its original
    whose entry for position [i] and component [d] is the sum of all entries
    that any rank contributed to the global index [distribution[r][i]].  Where
    that global index occurs nowhere else in the distribution, the entry is
    the original one; so with a distribution in which no global index occurs
    twice every rank receives back exactly its original vector. *)
Theorem gather_scatter_round_trip (N : nat) (_mesh : mesh.Mesh)
    (valueDimension : nat) (localItems buffers : nat → list R) :
  1 < N →
  (∀ r, r < N →
        Forall (λ g, g < mesh.getGlobalNumberOfVertices _mesh)
               (mesh.getVertexDistribution _mesh !!! r)) →
  (∀ r, r < N →
        length (localItems r)
        = length (mesh.getVertexDistribution _mesh !!! r) * valueDimension) →
  (∀ r, r < N →
        length (buffers r)
        = length (mesh.getVertexDistribution _mesh !!! r) * valueDimension) →
  ∃ received w',
    GatherScatterCommunication.roundTrip N _mesh valueDimension
      localItems buffers = Returns (received, w')
    ∧ length received = N
    ∧ (∀ r i g d,
        r < N → (mesh.getVertexDistribution _mesh !!! r) !! i = Some g →
        d < valueDimension →
        ∃ items,
          received !! r = Some items
          ∧ length items = length (localItems r)
          ∧ coeff items (i * valueDimension + d)
            = GatherScatterCommunication.slotSum N
                (mesh.getVertexDistribution _mesh) valueDimension
                localItems g d
          ∧ (GatherScatterCommunication.occursOnlyAt N
               (mesh.getVertexDistribution _mesh) g r i →
             coeff items (i * valueDimension + d)
             = coeff (localItems r) (i * valueDimension + d)))
    ∧ ((∀ r i g,
          r < N → (mesh.getVertexDistribution _mesh !!! r) !! i = Some g →
          GatherScatterCommunication.occursOnlyAt N
            (mesh.getVertexDistribution _mesh) g r i) →
       ∀ r, r < N → received !! r = Some (localItems r)).
Proof.
  intros HN Hrange Hitems Hbuffers.
  destruct (round_trip N _mesh valueDimension HN Hrange localItems buffers
              Hitems Hbuffers) as (w' & Hrun).
  set (global := GatherScatterCommunication.gather_spec N
                   (mesh.getVertexDistribution _mesh)
                   (mesh.getGlobalNumberOfVertices _mesh) valueDimension
                   localItems) in *.
  assert (∀ r i g d,
    r < N → (mesh.getVertexDistribution _mesh !!! r) !! i = Some g →
    d < valueDimension →
    coeff (GatherScatterCommunication.scattered
             (mesh.getVertexDistribution _mesh) valueDimension global
             buffers r) (i * valueDimension + d)
    = GatherScatterCommunication.slotSum N
        (mesh.getVertexDistribution _mesh) valueDimension localItems g d)
    as Hslot.
  { intros r i g d Hr Hi Hd.
    pose proof (lookup_lt_Some _ _ _ Hi) as Hilt.
    assert (g < mesh.getGlobalNumberOfVertices _mesh) as Hg
      by (eapply (proj1 (Forall_lookup _ _) (Hrange r Hr)); exact Hi).
    unfold GatherScatterCommunication.scattered.
    destruct (decide (r = 0)) as [->|Hne].
    - rewrite copyFrom_coeff by (done || by apply Hbuffers).
      rewrite (nth_lookup_Some _ _ _ _ Hi).
      by apply coeff_gather_spec.
    - rewrite decide_True
        by (rewrite Hbuffers by done;
            pose proof (index_lt _ valueDimension i d Hilt Hd); lia).
      rewrite copyFrom_coeff by (done || apply length_replicate).
      rewrite (nth_lookup_Some _ _ _ _ Hi).
      by apply coeff_gather_spec. }
  assert (∀ r, r < N →
    length (GatherScatterCommunication.scattered
              (mesh.getVertexDistribution _mesh) valueDimension global
              buffers r) = length (localItems r)) as Hlength.
  { intros r Hr. rewrite (length_scattered N _mesh valueDimension) by done.
    by rewrite Hitems, Hbuffers by done. }
  eexists. exists w'. split; [exact Hrun |].
  split; [by rewrite length_fmap, length_seq |]. split.
  - intros r i g d Hr Hi Hd. eexists.
    split; [by rewrite list_lookup_fmap, lookup_seq_lt by done |].
    rewrite Nat.add_0_l. split; [by apply Hlength |].
    split; [by apply Hslot |].
    intros Honly. rewrite (Hslot r i g d) by done.
    by apply slotSum_single.
  - intros Hdisjoint r Hr.
    rewrite list_lookup_fmap, lookup_seq_lt by done. cbn. f_equal.
    apply coeff_ext; [by apply Hlength |].
    intros k Hk. rewrite Hlength, Hitems in Hk by done.
    assert (0 < valueDimension) as HD by (destruct valueDimension; lia).
    pose proof (Nat.div_mod_eq k valueDimension) as Hsplit.
    pose proof (Nat.mod_upper_bound k valueDimension ltac:(lia)) as Hd.
    assert (k `div` valueDimension
            < length (mesh.getVertexDistribution _mesh !!! r)) as Hi
      by (apply Nat.Div0.div_lt_upper_bound; lia).
    destruct (lookup_lt_is_Some_2 _ _ Hi) as [g Hg].
    replace k with (k `div` valueDimension * valueDimension
                    + k `mod` valueDimension) by lia.
    rewrite (Hslot r _ g _ Hr Hg Hd).
    apply slotSum_single; try done. by apply Hdisjoint.
Qed.

Lemma gather_scatter_round_trip_witness :
  ∃ w',
    GatherScatterCommunication.roundTrip 2
      GatherScatterCommunication.scenarioMesh 1
      GatherScatterCommunication.scenarioItems
      GatherScatterCommunication.scenarioBuffers
    = Returns ([[10; 20]; [30; 40]]%R, w').
Proof.
  destruct (gather_scatter_round_trip 2
              GatherScatterCommunication.scenarioMesh 1
              GatherScatterCommunication.scenarioItems
              GatherScatterCommunication.scenarioBuffers)
    as (received & w' & Hrun & Hlen & _ & Hsame).
  - lia.
  - intros [|[|r]] Hr; [vm_compute; repeat constructor.. | lia].
  - intros [|[|r]] Hr; [reflexivity.. | lia].
  - intros [|[|r]] Hr; [reflexivity.. | lia].
  - exists w'. rewrite Hrun. do 2 f_equal.
    assert (∀ r i g, r < 2 →
      (mesh.getVertexDistribution GatherScatterCommunication.scenarioMesh
         !!! r) !! i = Some g →
      GatherScatterCommunication.occursOnlyAt 2
        (mesh.getVertexDistribution GatherScatterCommunication.scenarioMesh)
        g r i) as Honly.
    { intros r i g Hr Hi r' i' Hr' Hi'.
      destruct r as [|[|r]]; [| | lia];
        destruct r' as [|[|r']]; try lia;
        rewrite ?scenario_slice_0, ?scenario_slice_1 in Hi;
        rewrite ?scenario_slice_0, ?scenario_slice_1 in Hi';
        destruct i as [|[|i]]; destruct i' as [|[|i']];
        cbn in Hi, Hi';
        try (by destruct i); try (by destruct i');
        split; congruence. }
    pose proof (Hsame Honly 0 ltac:(lia)) as H0.
    pose proof (Hsame Honly 1 ltac:(lia)) as H1.
    destruct received as [|a [|b [|c received]]]; try discriminate Hlen.
    cbn in H0, H1. by injection H0 as ->; injection H1 as ->.
Defined.

(** ** Nearest-neighbour mapping *)

Lemma bind_inv {A B : Type} (m : Outcome A) (k : A → Outcome B) (b : B) :
  (m ≫= k) = Returns b → ∃ a, m = Returns a ∧ k a = Returns b.
Proof. destruct m as [a|f]; [by exists a | done]. Qed.

Lemma for_loop_preserves {St : Type} (P : St → Prop)
    (body : nat → St → Outcome St) (count : nat) :
  (∀ i s s', body i s = Returns s' → P s → P s') →
  ∀ first s s', for_loop first count body s = Returns s' → P s → P s'.
Proof.
  intros Hbody. induction count as [|c IH]; intros first s s' Hrun Hs.
  - by injection Hrun as <-.
  - cbn [for_loop] in Hrun. apply bind_inv in Hrun as (s1 & H1 & Hrun).
    eapply IH; [exact Hrun |]. by eapply Hbody.
Qed.

Lemma writeAt_length {A : Type} (v v' : list A) (k : nat) (x : A) :
  writeAt v k x = Returns v' → length v' = length v.
Proof.
  unfold writeAt. destruct (decide (k < length v)); [| done].
  intros [= <-]. apply length_insert.
Qed.

Section nearest_neighbor.
Import mesh NearestNeighborMapping.

Lemma for_each_preserves {A St : Type} (P : St → Prop)
    (body : A → St → Outcome St) (l : list A) :
  (∀ a s s', body a s = Returns s' → P s → P s') →
  ∀ s s', for_each l body s = Returns s' → P s → P s'.
Proof.
  intros Hbody. induction l as [|a l IH]; intros s s' Hrun Hs.
  - by injection Hrun as <-.
  - cbn [for_each] in Hrun. apply bind_inv in Hrun as (s1 & H1 & Hrun).
    eapply IH; [exact Hrun |]. by eapply Hbody.
Qed.

Lemma length_resize (n : nat) (l : list nat) : length (resize n l) = n.
Proof.
  unfold resize. rewrite length_app, length_take, length_replicate. lia.
Qed.

Lemma indexOnVertices_length (rtree : SpatialIndex)
    (reference opposite : list Vertex) (indices indices' : list nat) :
  indexOnVertices rtree reference opposite indices = Returns indices' →
  length indices' = length reference.
Proof.
  unfold indexOnVertices. intros Hrun.
  eapply (for_loop_preserves (λ v, length v = length reference));
    [| exact Hrun | apply length_resize].
  intros i s s' Hbody Hs. apply bind_inv in Hbody as (vertex & _ & Hbody).
  eapply (for_each_preserves (λ v, length v = length reference));
    [| exact Hbody | exact Hs].
  intros val t t' Hstep Ht. apply bind_inv in Hstep as (nearest & _ & Hstep).
  by rewrite (writeAt_length _ _ _ _ Hstep).
Qed.

(** What [computeMapping] leaves behind: the meshes and the constraint are
    unchanged, the constraint is one of the two the source handles, and
    there is one index per vertex of the reference mesh. *)
Lemma computeMapping_returns (rtree : SpatialIndex)
    (nn0 nn : NearestNeighborMapping) :
  computeMapping rtree nn0 = Returns nn →
  getConstraint nn = getConstraint nn0
  ∧ input nn = input nn0 ∧ output nn = output nn0
  ∧ _hasComputedMapping nn = true
  ∧ ((getConstraint nn = CONSISTENT
      ∧ length (_vertexIndices nn) = length (vertices (output nn)))
     ∨ (getConstraint nn = CONSERVATIVE
        ∧ length (_vertexIndices nn) = length (vertices (input nn)))).
Proof.
  unfold computeMapping. intros Hrun.
  apply bind_inv in Hrun as (indices & Hindices & [= <-]). cbn.
  repeat split; try done.
  destruct (decide (getConstraint nn0 = CONSISTENT)) as [Hc|Hc].
  - left. split; [done |]. by eapply indexOnVertices_length.
  - right. apply bind_inv in Hindices as ([] & Hassert & Hindices).
    unfold PRECICE_ASSERT in Hassert.
    destruct (bool_decide (getConstraint nn0 = CONSERVATIVE)) eqn:Hb;
      [| done].
    apply bool_decide_eq_true in Hb. split; [done |].
    by eapply indexOnVertices_length.
Qed.

Lemma assertSize_ok (n D : nat) :
  0 < D → assertSize (n * D) D n = Returns ().
Proof.
  intros HD. unfold assertSize. rewrite decide_False by lia.
  rewrite bool_decide_true; [done |]. apply Nat.div_mul. lia.
Qed.

(** [map] on a computed mapping over matching data channels. *)
Lemma map_returns (nn : NearestNeighborMapping)
    (inputDataID outputDataID : nat) (inputData outputData : Data) :
  let D := getDimensions inputData in
  data (input nn) !! inputDataID = Some inputData →
  data (output nn) !! outputDataID = Some outputData →
  D = getDimensions outputData →
  0 < D →
  length (values inputData) = length (vertices (input nn)) * D →
  length (values outputData) = length (vertices (output nn)) * D →
  ∃ nn',
    (getConstraint nn = CONSISTENT →
     length (_vertexIndices nn) = length (vertices (output nn)) →
     Forall (λ g, g < length (vertices (input nn))) (_vertexIndices nn) →
     map nn inputDataID outputDataID = Returns nn'
     ∧ outputValues nn' outputDataID
       = copyFrom (_vertexIndices nn) D (values inputData)
                  (values outputData))
    ∧ (getConstraint nn = CONSERVATIVE →
       length (_vertexIndices nn) = length (vertices (input nn)) →
       Forall (λ g, g < length (vertices (output nn))) (_vertexIndices nn) →
       map nn inputDataID outputDataID = Returns nn'
       ∧ outputValues nn' outputDataID
         = scatterAdd (_vertexIndices nn) D (values inputData)
                      (values outputData)).
Proof.
  intros D Hin Hout Hdim HD Hlin Hlout.
  destruct (getConstraint nn) eqn:Hc.
  - eexists. split; [| done]. intros _ Hlen Hrange.
    unfold map, getData. rewrite Hin, Hout, !bind_Returns.
    fold D. rewrite (bool_decide_true (D = _)) by done.
    cbn [PRECICE_ASSERT]. rewrite bind_Returns.
    rewrite Hlin, Hlout, !assertSize_ok, !bind_Returns by done.
    rewrite Hc, decide_True by done.
    rewrite <- Hlen.
    rewrite (assignLoop_pure (length (vertices (input nn))))
      by (done || by rewrite Hlen).
    rewrite bind_Returns. split; [reflexivity |].
    unfold outputValues. cbn. by rewrite lookup_insert_eq.
  - eexists. split; [done |]. intros _ Hlen Hrange.
    unfold map, getData. rewrite Hin, Hout, !bind_Returns.
    fold D. rewrite (bool_decide_true (D = _)) by done.
    cbn [PRECICE_ASSERT]. rewrite bind_Returns.
    rewrite Hlin, Hlout, !assertSize_ok, !bind_Returns by done.
    rewrite Hc, decide_False by done.
    rewrite (bool_decide_true (CONSERVATIVE = _)) by done.
    cbn [PRECICE_ASSERT]. rewrite bind_Returns.
    rewrite <- Hlen.
    rewrite (accumulateLoop_pure (length (vertices (output nn))))
      by (done || by rewrite Hlen).
    rewrite bind_Returns. split; [reflexivity |].
    unfold outputValues. cbn. by rewrite lookup_insert_eq.
  - exists nn. done.
Qed.

End nearest_neighbor.

Lemma Rsum_all_zero (v : list R) : Forall (λ x, x = 0%R) v → Rsum v = 0%R.
Proof.
  induction 1 as [|x v -> _ IH]; [done |]. rewrite Rsum_cons, IH. lra.
Qed.

Lemma scenario_computeMapping :
  NearestNeighborMapping.computeMapping NearestNeighborMapping.firstVertex
    NearestNeighborMapping.scenario
  = Returns NearestNeighborMapping.scenarioComputed.
Proof. reflexivity. Qed.

(** C3 (nearest-neighbour [map]).  Let [nn] be a mapping on which
    [computeMapping] returned, whose indices point into the opposite mesh,
    and take an input and an output data channel of the same value dimension
    [D > 0], each holding [D] values per vertex.  Then [map] returns.  Under
    the consistent constraint every output entry [i*D + d] becomes
    [inputValues[_vertexIndices[i]*D + d]], whatever it held before.  Under
    the conservative constraint the output is the old output to which
    [inputValues[i*D + d]] was added at [_vertexIndices[i]*D + d] for every
    input vertex [i] and component [d]: entry [g*D + d] is its old value plus
    the input entries of all vertices mapped to [g]; nothing is zeroed. *)
Theorem nearest_neighbor_map_formulas
    (rtree : NearestNeighborMapping.SpatialIndex)
    (nn0 nn : NearestNeighborMapping.NearestNeighborMapping)
    (inputDataID outputDataID : nat) (inputData outputData : mesh.Data) :
  NearestNeighborMapping.computeMapping rtree nn0 = Returns nn →
  mesh.data (NearestNeighborMapping.input nn) !! inputDataID
    = Some inputData →
  mesh.data (NearestNeighborMapping.output nn) !! outputDataID
    = Some outputData →
  mesh.getDimensions inputData = mesh.getDimensions outputData →
  0 < mesh.getDimensions inputData →
  length (mesh.values inputData)
    = length (mesh.vertices (NearestNeighborMapping.input nn))
      * mesh.getDimensions inputData →
  length (mesh.values outputData)
    = length (mesh.vertices (NearestNeighborMapping.output nn))
      * mesh.getDimensions inputData →
  Forall (λ g, g < length (mesh.vertices
                 (if decide (NearestNeighborMapping.getConstraint nn
                             = NearestNeighborMapping.CONSISTENT)
                  then NearestNeighborMapping.input nn
                  else NearestNeighborMapping.output nn)))
         (NearestNeighborMapping._vertexIndices nn) →
  ∃ nn',
    NearestNeighborMapping.map nn inputDataID outputDataID = Returns nn'
    ∧ (NearestNeighborMapping.getConstraint nn
         = NearestNeighborMapping.CONSISTENT →
       ∀ i d,
         i < length (mesh.vertices (NearestNeighborMapping.output nn)) →
         d < mesh.getDimensions inputData →
         coeff (NearestNeighborMapping.outputValues nn' outputDataID)
               (i * mesh.getDimensions inputData + d)
         = coeff (mesh.values inputData)
                 (nth i (NearestNeighborMapping._vertexIndices nn) 0
                  * mesh.getDimensions inputData + d))
    ∧ (NearestNeighborMapping.getConstraint nn
         = NearestNeighborMapping.CONSERVATIVE →
       NearestNeighborMapping.outputValues nn' outputDataID
         = scatterAdd (NearestNeighborMapping._vertexIndices nn)
             (mesh.getDimensions inputData) (mesh.values inputData)
             (mesh.values outputData)
       ∧ ∀ g d,
           g < length (mesh.vertices (NearestNeighborMapping.output nn)) →
           d < mesh.getDimensions inputData →
           coeff (NearestNeighborMapping.outputValues nn' outputDataID)
                 (g * mesh.getDimensions inputData + d)
           = (coeff (mesh.values outputData)
                    (g * mesh.getDimensions inputData + d)
              + contribution
                  (seq 0 (length (mesh.vertices
                                    (NearestNeighborMapping.input nn))))
                  (NearestNeighborMapping._vertexIndices nn)
                  (mesh.getDimensions inputData) (mesh.values inputData)
                  g d)%R).
Proof.
  intros Hcomputed Hin Hout Hdim HD Hlin Hlout Hrange.
  destruct (computeMapping_returns _ _ _ Hcomputed)
    as (_ & _ & _ & _ & Hkind).
  destruct (map_returns nn inputDataID outputDataID inputData outputData
              Hin Hout Hdim HD Hlin Hlout) as (nn' & Hcons & Hconv).
  exists nn'. destruct Hkind as [[Hc Hlen]|[Hc Hlen]].
  - rewrite Hc, decide_True in Hrange by done.
    destruct (Hcons Hc Hlen Hrange) as [Hrun Hvalues].
    split; [exact Hrun |]. split; [| by rewrite Hc].
    intros _ i d Hi Hd. rewrite Hvalues.
    apply copyFrom_coeff; [lia | done | by rewrite Hlen].
  - rewrite Hc, decide_False in Hrange by done.
    destruct (Hconv Hc Hlen Hrange) as [Hrun Hvalues].
    split; [exact Hrun |]. split; [by rewrite Hc |].
    intros _. split; [exact Hvalues |].
    intros g d Hg Hd. rewrite Hvalues, <- Hlen.
    by apply (scatterAdd_coeff
                (length (mesh.vertices (NearestNeighborMapping.output nn)))).
Qed.

Lemma nearest_neighbor_map_formulas_witness :
  ∃ nn',
    NearestNeighborMapping.map NearestNeighborMapping.scenarioComputed 0 0
    = Returns nn'
    ∧ coeff (NearestNeighborMapping.outputValues nn' 0) 0 = 8%R.
Proof.
  destruct (nearest_neighbor_map_formulas
              NearestNeighborMapping.firstVertex
              NearestNeighborMapping.scenario
              NearestNeighborMapping.scenarioComputed 0 0
              {| mesh.values := [1; 2]%R; mesh.getDimensions := 1 |}
              {| mesh.values := [5]%R; mesh.getDimensions := 1 |})
    as (nn' & Hrun & _ & Hconservative).
  - reflexivity.
  - reflexivity.
  - reflexivity.
  - reflexivity.
  - cbn. lia.
  - reflexivity.
  - reflexivity.
  - cbn. repeat constructor.
  - exists nn'. split; [exact Hrun |].
    destruct (Hconservative eq_refl) as [_ Hentry].
    pose proof (Hentry 0 0 ltac:(cbn; lia) ltac:(cbn; lia)) as H0.
    unfold contribution in H0. cbn in H0.
    repeat first [ rewrite decide_True in H0 by done
                 | rewrite decide_False in H0 by congruence ].
    cbn in H0. rewrite H0. lra.
Defined.

(** C4 (conservative nearest-neighbour mapping preserves the sum).  For a
    computed conservative mapping whose indices point into the output mesh
    and data channels as in C3: if every output value is zero before [map],
    then after [map] the sum of all output values equals the sum of all
    input values. *)
Theorem conservative_map_preserves_sum
    (rtree : NearestNeighborMapping.SpatialIndex)
    (nn0 nn : NearestNeighborMapping.NearestNeighborMapping)
    (inputDataID outputDataID : nat) (inputData outputData : mesh.Data) :
  NearestNeighborMapping.computeMapping rtree nn0 = Returns nn →
  NearestNeighborMapping.getConstraint nn
    = NearestNeighborMapping.CONSERVATIVE →
  mesh.data (NearestNeighborMapping.input nn) !! inputDataID
    = Some inputData →
  mesh.data (NearestNeighborMapping.output nn) !! outputDataID
    = Some outputData →
  mesh.getDimensions inputData = mesh.getDimensions outputData →
  0 < mesh.getDimensions inputData →
  length (mesh.values inputData)
    = length (mesh.vertices (NearestNeighborMapping.input nn))
      * mesh.getDimensions inputData →
  length (mesh.values outputData)
    = length (mesh.vertices (NearestNeighborMapping.output nn))
      * mesh.getDimensions inputData →
  Forall (λ g, g < length (mesh.vertices (NearestNeighborMapping.output nn)))
         (NearestNeighborMapping._vertexIndices nn) →
  Forall (λ x, x = 0%R) (mesh.values outputData) →
  ∃ nn',
    NearestNeighborMapping.map nn inputDataID outputDataID = Returns nn'
    ∧ Rsum (NearestNeighborMapping.outputValues nn' outputDataID)
      = Rsum (mesh.values inputData).
Proof.
  intros Hcomputed Hc Hin Hout Hdim HD Hlin Hlout Hrange Hzero.
  destruct (computeMapping_returns _ _ _ Hcomputed)
    as (_ & _ & _ & _ & [[Hc' _]|[_ Hlen]]); [congruence |].
  destruct (map_returns nn inputDataID outputDataID inputData outputData
              Hin Hout Hdim HD Hlin Hlout) as (nn' & _ & Hconv).
  destruct (Hconv Hc Hlen Hrange) as [Hrun Hvalues].
  exists nn'. split; [exact Hrun |]. rewrite Hvalues.
  rewrite (scatterAdd_sum
             (length (mesh.vertices (NearestNeighborMapping.output nn))))
    by (done || by rewrite Hlen).
  rewrite (Rsum_all_zero _ Hzero). lra.
Qed.

Lemma conservative_map_preserves_sum_witness :
  ∃ nn',
    NearestNeighborMapping.map NearestNeighborMapping.scenarioComputed 0 1
    = Returns nn'
    ∧ Rsum (NearestNeighborMapping.outputValues nn' 1) = 3%R.
Proof.
  destruct (conservative_map_preserves_sum
              NearestNeighborMapping.firstVertex
              NearestNeighborMapping.scenario
              NearestNeighborMapping.scenarioComputed 0 1
              {| mesh.values := [1; 2]%R; mesh.getDimensions := 1 |}
              {| mesh.values := [0]%R; mesh.getDimensions := 1 |})
    as (nn' & Hrun & Hsum).
  - reflexivity.
  - reflexivity.
  - reflexivity.
  - reflexivity.
  - reflexivity.
  - cbn. lia.
  - reflexivity.
  - reflexivity.
  - cbn. repeat constructor.
  - cbn. repeat constructor.
  - exists nn'. split; [exact Hrun |]. rewrite Hsum. cbn. lra.
Defined.

(** ** P-Greedy: kernel distances, evaluation matrix, solves *)

Lemma coeff_fmap_seq (f : nat → R) (n j : nat) :
  j < n → coeff (f <$> seq 0 n) j = f j.
Proof.
  intros Hj. unfold coeff.
  by rewrite list_lookup_fmap, lookup_seq_lt by done.
Qed.

Lemma Rsum_seq_split (f : nat → R) (k n : nat) :
  k ≤ n →
  Rsum (f <$> seq 0 n)
  = (Rsum (f <$> seq 0 k) + Rsum (f <$> seq k (n - k)))%R.
Proof.
  intros Hk. replace n with (k + (n - k)) at 1 by lia.
  by rewrite seq_app, fmap_app, Rsum_app.
Qed.

Section pgreedy_kernel.
Import mesh PGreedy.

Variable basisFunction : RADIAL_BASIS_FUNCTION_T.

Lemma computeSquaredDifference2_full (u v : R * R * R) :
  computeSquaredDifference2 u v (true, true, true) = squaredDistance u v.
Proof.
  destruct u as [[u0 u1] u2], v as [[v0 v1] v2].
  unfold computeSquaredDifference2, squaredDistance, b2r. cbn. lra.
Qed.

Lemma computeSquaredDifference2_same (u : R * R * R) :
  computeSquaredDifference2 u u (true, true, true) = 0%R.
Proof.
  rewrite computeSquaredDifference2_full.
  destruct u as [[u0 u1] u2]. unfold squaredDistance. cbn. lra.
Qed.

Lemma updateKernelVector_pure (inputMesh : Mesh) (kernelVector : list R)
    (x : Vertex) :
  length kernelVector = length (vertices inputMesh) →
  updateKernelVector basisFunction inputMesh kernelVector x
  = Returns (kernelColumn basisFunction inputMesh x).
Proof.
  intros Hlen. unfold updateKernelVector.
  pose (P := λ (k : nat) (kv : list R),
    length kv = length (vertices inputMesh)
    ∧ take k kv = take k (kernelColumn basisFunction inputMesh x)).
  match goal with
  | |- for_loop 0 ?n ?body ?s = _ =>
      destruct (for_loop_invariant P body n 0 s) as (kv & -> & Hkv & Htake)
  end.
  - split; [done |]. by rewrite !take_0.
  - intros j kv Hj [Hkv Htake].
    destruct (lookup_lt_is_Some_2 (vertices inputMesh) j ltac:(lia))
      as [y Hy].
    rewrite (readAt_Some _ _ _ Hy), bind_Returns.
    rewrite writeAt_lt by lia. eexists. split; [done |].
    split; [by rewrite length_insert |].
    assert (kernelColumn basisFunction inputMesh x !! j
            = Some (evaluate basisFunction
                      (sqrt (computeSquaredDifference2 (rawCoords x)
                               (rawCoords y) (true, true, true)))))
      as Hcol.
    { unfold kernelColumn. rewrite list_lookup_fmap, Hy. cbn.
      by rewrite computeSquaredDifference2_full. }
    rewrite (take_S_r _ _ _ Hcol).
    erewrite take_S_r by (apply list_lookup_insert_eq; lia).
    by rewrite take_insert_ge, Htake by lia.
  - f_equal. rewrite Nat.add_0_l in Htake.
    rewrite <- Hkv in Htake at 1. rewrite firstn_all in Htake.
    rewrite take_ge in Htake; [done |].
    unfold kernelColumn. by rewrite length_fmap.
Qed.

Lemma buildEvaluationMatrix_returns (outputMesh inputMesh : Mesh)
    (greedyIDs : list nat) :
  Forall (λ id, id < length (vertices inputMesh)) greedyIDs →
  ∃ E, buildEvaluationMatrix basisFunction outputMesh inputMesh greedyIDs
       = Returns E
       ∧ rows E = length greedyIDs
       ∧ cols E = length (vertices outputMesh)
       ∧ ∀ i j id u y,
           greedyIDs !! i = Some id →
           vertices inputMesh !! id = Some u →
           vertices outputMesh !! j = Some y →
           coeffM E i j
           = evaluate basisFunction
               (sqrt (squaredDistance (rawCoords u) (rawCoords y))).
Proof.
  intros Hids. unfold buildEvaluationMatrix.
  pose (value := λ (i j : nat) (x : R),
    ∀ id u y, greedyIDs !! i = Some id →
              vertices inputMesh !! id = Some u →
              vertices outputMesh !! j = Some y →
              x = evaluate basisFunction
                    (sqrt (squaredDistance (rawCoords u) (rawCoords y)))).
  pose (P := λ (k : nat) (M : Matrix),
    rows M = length greedyIDs ∧ cols M = length (vertices outputMesh)
    ∧ ∀ i j, i < k → value i j (coeffM M i j)).
  match goal with
  | |- ∃ E, for_loop 0 ?n ?body ?s = _ ∧ _ =>
      destruct (for_loop_invariant P body n 0 s)
        as (E & -> & Hrows & Hcols & Hvalues)
  end.
  - repeat split; try done. intros i j Hi. lia.
  - intros i M Hi (Hrows & Hcols & Hvalues).
    destruct (lookup_lt_is_Some_2 greedyIDs i ltac:(lia)) as [id Hid].
    rewrite (readAt_Some _ _ _ Hid), bind_Returns.
    pose proof (proj1 (Forall_lookup _ _) Hids i id Hid) as Hidlt.
    destruct (lookup_lt_is_Some_2 (vertices inputMesh) id Hidlt) as [u Hu].
    rewrite (readAt_Some _ _ _ Hu), bind_Returns.
    pose (Q := λ (l : nat) (M : Matrix),
      rows M = length greedyIDs ∧ cols M = length (vertices outputMesh)
      ∧ (∀ i' j, i' < i → value i' j (coeffM M i' j))
      ∧ ∀ j, j < l → value i j (coeffM M i j)).
    match goal with
    | |- ∃ s', for_loop 0 ?n ?body ?s = _ ∧ _ =>
        destruct (for_loop_invariant Q body n 0 s)
          as (M' & -> & Hrows' & Hcols' & Hold & Hnew)
    end.
    + repeat split; try done. intros j Hj. lia.
    + intros j M1 Hj (Hrows1 & Hcols1 & Hold & Hnew).
      destruct (lookup_lt_is_Some_2 (vertices outputMesh) j ltac:(lia))
        as [y Hy].
      rewrite (readAt_Some _ _ _ Hy), bind_Returns.
      unfold setCoeff, eigen_assert.
      rewrite decide_True by lia. rewrite bind_Returns.
      eexists. split; [done |]. unfold Q. cbn.
      repeat split; try done.
      * intros i' j' Hi'. rewrite decide_False by lia. by apply Hold.
      * intros j' Hj'. destruct (decide (i = i ∧ j' = j)) as [[_ ->]|Hne].
        -- intros id' u' y' Hid' Hu' Hy'.
           rewrite Hid in Hid'. injection Hid' as <-.
           rewrite Hu in Hu'. injection Hu' as <-.
           rewrite Hy in Hy'. injection Hy' as <-.
           by rewrite computeSquaredDifference2_full.
        -- apply Hnew. lia.
    + exists M'. split; [done |]. unfold P. repeat split; try done.
      intros i' j Hi'. destruct (decide (i' = i)) as [->|Hne].
      * destruct (decide (j < length (vertices outputMesh))) as [Hj|Hj].
        -- by apply Hnew.
        -- intros id' u' y' _ _ Hy'. apply lookup_lt_Some in Hy'. lia.
      * apply Hold. lia.
  - exists E. repeat split; try done.
    intros i j id u y Hid Hu Hy.
    pose proof (lookup_lt_Some _ _ _ Hid) as Hi.
    by apply (Hvalues i j ltac:(lia) id u y).
Qed.

End pgreedy_kernel.

(** ** P-Greedy: the selection loop *)

Lemma maxCoeff_visit_spec (l : list R) :
  ∀ (pre : list R) (b : nat) (m : R),
    pre !! b = Some m →
    (∀ j x, pre !! j = Some x → (x <= m)%R) →
    (pre ++ l) !! (maxCoeff_visit l (length pre) (b, m)).1
      = Some (maxCoeff_visit l (length pre) (b, m)).2
    ∧ ∀ j x, (pre ++ l) !! j = Some x →
             (x <= (maxCoeff_visit l (length pre) (b, m)).2)%R.
Proof.
  induction l as [|x l IH]; intros pre b m Hb Hmax.
  - rewrite app_nil_r. cbn. done.
  - cbn [maxCoeff_visit snd].
    replace (pre ++ x :: l) with ((pre ++ [x]) ++ l) by (by rewrite <- app_assoc).
    replace (S (length pre)) with (length (pre ++ [x]))
      by (rewrite length_app; cbn; lia).
    destruct (Rlt_dec m x) as [Hlt|Hge].
    + apply IH.
      * by rewrite lookup_app_r, Nat.sub_diag by done.
      * intros j y Hj. apply lookup_app_Some in Hj as [Hj|[_ Hj]].
        -- pose proof (Hmax j y Hj). lra.
        -- apply list_lookup_singleton_Some in Hj as [_ <-]. lra.
    + apply IH.
      * by apply lookup_app_l_Some.
      * intros j y Hj. apply lookup_app_Some in Hj as [Hj|[_ Hj]].
        -- by apply (Hmax j).
        -- apply list_lookup_singleton_Some in Hj as [_ <-]. lra.
Qed.

(** [maxCoeff] of a non-empty vector returns the position and the value of
    an entry that no entry exceeds. *)
Lemma maxCoeff_spec (p : list R) :
  0 < length p →
  ∃ i m, maxCoeff p = Returns (i, m)
         ∧ p !! i = Some m
         ∧ ∀ j x, p !! j = Some x → (x <= m)%R.
Proof.
  intros Hlen. destruct p as [|x l]; [cbn in Hlen; lia |].
  exists (maxCoeff_visit l 1 (0, x)).1, (maxCoeff_visit l 1 (0, x)).2.
  split; [cbn; by destruct (maxCoeff_visit l 1 (0, x)) |].
  apply (maxCoeff_visit_spec l [x] 0 x); [done |].
  intros j y Hj. apply list_lookup_singleton_Some in Hj as [_ <-]. lra.
Qed.

Lemma maxValue_spec (p : list R) (i : nat) (m : R) :
  maxCoeff p = Returns (i, m) → PGreedy.maxValue p = m.
Proof. unfold PGreedy.maxValue. by intros ->. Qed.

(** Pointwise smaller vectors have a smaller maximum. *)
Lemma maxValue_mono (p q : list R) :
  0 < length p → length q = length p →
  (∀ j, j < length p → (coeff q j <= coeff p j)%R) →
  (PGreedy.maxValue q <= PGreedy.maxValue p)%R.
Proof.
  intros Hlen Hq Hle.
  destruct (maxCoeff_spec p Hlen) as (i & m & Hp & Hi & Hmax).
  destruct (maxCoeff_spec q ltac:(lia)) as (i' & m' & Hq' & Hi' & _).
  rewrite (maxValue_spec _ _ _ Hp), (maxValue_spec _ _ _ Hq').
  pose proof (lookup_lt_Some _ _ _ Hi') as Hlt. rewrite Hq in Hlt.
  specialize (Hle i' Hlt). rewrite (coeff_lookup _ _ _ Hi') in Hle.
  pose proof (Hmax i' (coeff p i') (lookup_coeff p i' Hlt)). lra.
Qed.

Lemma NoDup_bounded_length (l : list nat) (N : nat) :
  NoDup l → Forall (λ j, j < N) l → length l ≤ N.
Proof.
  intros Hnd Hall. rewrite <- (length_seq N 0).
  apply submseteq_length, NoDup_submseteq; [done |].
  intros j Hj. apply elem_of_seq.
  pose proof (proj1 (Forall_forall _ _) Hall j Hj) as Hlt. cbn in Hlt. lia.
Qed.

Lemma tolP_pos : (0 < PGreedy._tolP)%R.
Proof. unfold PGreedy._tolP. lra. Qed.

Lemma normalised_square (pMax : R) :
  (0 < pMax)%R →
  (pMax / sqrt pMax = sqrt pMax)%R
  ∧ (pMax / sqrt pMax * (pMax / sqrt pMax) = pMax)%R.
Proof.
  intros Hpos. pose proof (sqrt_lt_R0 pMax Hpos) as Hs.
  pose proof (sqrt_sqrt pMax ltac:(lra)) as Hss.
  assert (pMax / sqrt pMax = sqrt pMax)%R as Heq.
  { rewrite <- Hss at 1. field. lra. }
  split; [exact Heq |]. by rewrite Heq.
Qed.

Section pgreedy_loop.
Import mesh PGreedy.

Variable basisFunction : RADIAL_BASIS_FUNCTION_T.
Variable inputMesh : Mesh.

Lemma eigen_assert_holds (P : Prop) `{Decision P} :
  P → eigen_assert P = Returns ().
Proof. intros HP. unfold eigen_assert. by rewrite decide_True. Qed.

Lemma rowDot_returns (B : Matrix) (j i n : nat) :
  j < rows B → i < rows B → n ≤ cols B →
  rowDot B j i n = Returns (rowProduct B j i n).
Proof.
  intros Hj Hi Hn. unfold rowDot.
  by rewrite eigen_assert_holds by done.
Qed.

(** The update loop: entries of non-centers are projected, normalised and
    subtracted as squares; entries of centers are left alone. *)
Lemma updateLoop_returns (N : nat) (B : Matrix) (bits : list bool)
    (i n : nat) (sqrtP : R) (kernel power : list R) :
  length kernel = N → length power = N → length bits = N →
  rows B = N → i < N → n ≤ cols B →
  ∃ kernel' power',
    updateLoop N B bits i n sqrtP kernel power = Returns (kernel', power')
    ∧ length kernel' = N ∧ length power' = N
    ∧ ∀ j,
        (bits !! j = Some true →
         coeff kernel' j = coeff kernel j ∧ coeff power' j = coeff power j)
        ∧ (bits !! j = Some false →
           coeff kernel' j = ((coeff kernel j - rowProduct B j i n) / sqrtP)%R
           ∧ coeff power' j
             = (coeff power j - coeff kernel' j * coeff kernel' j)%R).
Proof.
  intros Hkernel Hpower Hbits Hrows Hi Hn. unfold updateLoop.
  pose (P := λ (k : nat) (s : list R * list R),
    length s.1 = N ∧ length s.2 = N
    ∧ (∀ j, j < k →
         (bits !! j = Some true →
          coeff s.1 j = coeff kernel j ∧ coeff s.2 j = coeff power j)
         ∧ (bits !! j = Some false →
            coeff s.1 j = ((coeff kernel j - rowProduct B j i n) / sqrtP)%R
            ∧ coeff s.2 j = (coeff power j - coeff s.1 j * coeff s.1 j)%R))
    ∧ (∀ j, k ≤ j →
         coeff s.1 j = coeff kernel j ∧ coeff s.2 j = coeff power j)).
  match goal with
  | |- ∃ kernel' power', for_loop 0 N ?body ?s = _ ∧ _ =>
      destruct (for_loop_invariant P body N 0 s)
        as ([kernel' power'] & Hrun & Hk' & Hp' & Hdone & _)
  end.
  - unfold P. cbn [fst snd]. split; [done |]. split; [done |].
    split; [intros j Hj; lia | done].
  - intros j [kernel1 power1] Hj (Hk1 & Hp1 & Hdone & Hrest).
    cbn [fst snd] in *. cbn beta iota.
    destruct (lookup_lt_is_Some_2 bits j ltac:(lia)) as [b Hb].
    rewrite (readAt_Some _ _ _ Hb), bind_Returns.
    destruct (Hrest j ltac:(lia)) as [Hkj Hpj].
    destruct b; cbn [negb].
    + eexists. split; [done |]. unfold P. cbn [fst snd].
      split; [done |]. split; [done |]. split.
      * intros j' Hj'. destruct (decide (j' = j)) as [->|Hne].
        -- split; [intros _; by apply Hrest | congruence].
        -- apply Hdone. lia.
      * intros j' Hj'. apply Hrest. lia.
    + rewrite rowDot_returns, bind_Returns by lia.
      rewrite (readAt_coeff kernel1), bind_Returns by lia.
      rewrite (writeAt_lt kernel1), bind_Returns by lia.
      rewrite (readAt_coeff (<[j:=_]> kernel1)), bind_Returns
        by (rewrite length_insert; lia).
      rewrite (writeAt_lt (<[j:=_]> kernel1)), bind_Returns
        by (rewrite length_insert; lia).
      rewrite (readAt_coeff (<[j:=_]> (<[j:=_]> kernel1))), bind_Returns
        by (rewrite !length_insert; lia).
      rewrite (readAt_coeff power1), bind_Returns by lia.
      rewrite (writeAt_lt power1), bind_Returns by lia.
      rewrite list_insert_insert_eq.
      rewrite !coeff_insert by (rewrite ?length_insert; lia).
      rewrite !decide_True by done.
      eexists. split; [done |]. unfold P. cbn [fst snd].
      rewrite !length_insert. split; [done |]. split; [done |]. split.
      * intros j' Hj'. rewrite !coeff_insert by lia.
        destruct (decide (j' = j)) as [->|Hne].
        -- split; [congruence |]. intros _. by rewrite Hkj, Hpj.
        -- apply Hdone. lia.
      * intros j' Hj'. rewrite !coeff_insert by lia.
        rewrite !decide_False by lia. apply Hrest. lia.
  - cbn [fst snd] in *. exists kernel', power'.
    split; [exact Hrun |]. split; [done |]. split; [done |].
    intros j. destruct (decide (j < N)) as [Hj|Hj]; [apply Hdone; lia |].
    split; intros Hb; apply lookup_lt_Some in Hb; lia.
Qed.

Lemma rowProduct_setCol (B : Matrix) (column : list R) (j n : nat) :
  rowProduct
    {| rows := rows B; cols := cols B;
       coeffM := λ r c, if decide (c = n) then coeff column r
                        else coeffM B r c |} j j (S n)
  = (rowProduct B j j n + coeff column j * coeff column j)%R.
Proof.
  unfold rowProduct. rewrite seq_S, fmap_app, Rsum_app. cbn [coeffM].
  rewrite fmap_cons, fmap_nil, Rsum_cons, Rsum_nil, Nat.add_0_l.
  rewrite decide_True by done.
  rewrite (Rsum_ext _ (λ k, coeffM B j k * coeffM B j k)%R); [lra |].
  intros k Hk. apply elem_of_seq in Hk. by rewrite decide_False by lia.
Qed.

Lemma kernelColumn_center (i : nat) (x : Vertex) :
  vertices inputMesh !! i = Some x →
  coeff (kernelColumn basisFunction inputMesh x) i
  = evaluate basisFunction 0%R.
Proof.
  intros Hx. apply coeff_lookup. unfold kernelColumn.
  rewrite list_lookup_fmap, Hx. cbn.
  rewrite <- computeSquaredDifference2_full, computeSquaredDifference2_same.
  by rewrite sqrt_0.
Qed.

Lemma centers_in_range (n : nat) (l : Locals) :
  Invariant basisFunction inputMesh n l →
  Forall (λ j, j < length (vertices inputMesh)) (_greedyIDs (solver l)).
Proof.
  intros Hinv. apply Forall_forall. intros j Hj.
  apply (inv_centers _ _ _ _ Hinv) in Hj. apply lookup_lt_Some in Hj.
  by rewrite (inv_bits _ _ _ _ Hinv) in Hj.
Qed.

(** One iteration from a state that satisfies the invariant. *)
Lemma iteration_step (n : nat) (l : Locals) :
  Invariant basisFunction inputMesh n l →
  n < _maxIter →
  0 < length (vertices inputMesh) →
  ∃ i pMax,
    maxCoeff (_powerFunction (solver l)) = Returns (i, pMax)
    ∧ ((pMax < _tolP)%R
       ∧ iteration basisFunction inputMesh n l = Returns (Break l)
       ∨ ¬ (pMax < _tolP)%R
         ∧ ∃ l',
             iteration basisFunction inputMesh n l = Returns (Continue l')
             ∧ Invariant basisFunction inputMesh (S n) l'
             ∧ centerBits l !! i = Some false
             ∧ (i ∉ _greedyIDs (solver l))
             ∧ _greedyIDs (solver l') = _greedyIDs (solver l) ++ [i]
             ∧ coeff (v l') i = sqrt pMax
             ∧ coeff (_powerFunction (solver l')) i = 0%R
             ∧ ∀ j, ∃ w, coeff (_powerFunction (solver l')) j
                         = (coeff (_powerFunction (solver l)) j - w * w)%R).
Proof.
  intros Hinv Hn HN. pose proof Hinv as [HinSize Hp Hv Hbits HBr HBc HCr HCc
    Hcount Hnodup Hcenters Hpc Hpo].
  destruct (maxCoeff_spec (_powerFunction (solver l)) ltac:(lia))
    as (i & pMax & Hmax & Hi & Hle).
  exists i, pMax. split; [exact Hmax |].
  pose proof (lookup_lt_Some _ _ _ Hi) as HiN. rewrite Hp in HiN.
  destruct (lookup_lt_is_Some_2 (vertices inputMesh) i HiN) as [x Hx].
  unfold iteration, select. rewrite Hmax, bind_Returns. cbn beta iota.
  rewrite (readAt_Some _ _ _ Hx), bind_Returns.
  destruct (Rlt_dec pMax _tolP) as [Hlt|Hge]; [by left |]. right.
  split; [exact Hge |].
  pose proof tolP_pos as Htol.
  assert (0 < pMax)%R as Hpos by lra.
  assert (centerBits l !! i = Some false) as Hbit.
  { destruct (lookup_lt_is_Some_2 (centerBits l) i ltac:(lia)) as [[] Hb];
      [| done].
    pose proof (Hpc i Hb) as Hzero.
    rewrite (coeff_lookup _ _ _ Hi) in Hzero. lra. }
  assert (i ∉ _greedyIDs (solver l)) as Hfresh
    by (rewrite Hcenters; congruence).
  assert (n < length (vertices inputMesh)) as HnN.
  { assert (length (_greedyIDs (solver l) ++ [i])
            ≤ length (vertices inputMesh)) as Hbound.
    { apply NoDup_bounded_length.
      - apply NoDup_app. split; [done |]. split; [| apply NoDup_singleton].
        intros j Hj ->%list_elem_of_singleton. done.
      - apply Forall_app. split; [by eapply centers_in_range |].
        by apply Forall_singleton. }
    rewrite length_app, Hcount in Hbound. cbn in Hbound. lia. }
  rewrite updateKernelVector_pure, bind_Returns by done.
  destruct (updateLoop_returns (_inSize (solver l)) (_basisMatrix (solver l))
              (centerBits l) i n (sqrt pMax)
              (kernelColumn basisFunction inputMesh x)
              (_powerFunction (solver l)))
    as (kernel' & power' & -> & Hk' & Hp' & Hupd);
    try (rewrite ?HinSize; unfold kernelColumn; rewrite ?length_fmap; lia).
  rewrite bind_Returns. cbn beta iota.
  rewrite HinSize in Hk', Hp'.
  rewrite writeAt_lt, bind_Returns by lia.
  unfold setCol. rewrite eigen_assert_holds, !bind_Returns by lia.
  unfold setNewtonRow. cbn [rows cols].
  rewrite eigen_assert_holds, !bind_Returns by lia.
  unfold setCoeff. cbn [rows cols].
  rewrite eigen_assert_holds, !bind_Returns by lia.
  rewrite (readAt_coeff kernel'), bind_Returns by lia.
  unfold divideRow. cbn [rows cols].
  rewrite eigen_assert_holds, !bind_Returns by lia.
  destruct (Hupd i) as [_ Hnew]. destruct (Hnew Hbit) as [Hki Hpi].
  rewrite (kernelColumn_center i x Hx) in Hki.
  rewrite <- (Hpo i Hbit), (coeff_lookup _ _ _ Hi) in Hki.
  destruct (normalised_square pMax Hpos) as [Hroot Hsquare].
  eexists. split; [reflexivity |].
  cbn [solver v centerBits _greedyIDs _powerFunction].
  split; [| split; [done |]; split; [done |]; split; [done |];
            split; [by rewrite Hki |]; split].
  - constructor; cbn [solver v centerBits _inSize _powerFunction _basisMatrix
                      _cut _greedyIDs rows cols coeffM]; try done.
    + by rewrite length_insert.
    + rewrite length_app, Hcount. cbn. lia.
    + apply NoDup_app. split; [done |]. split; [| apply NoDup_singleton].
      intros j Hj ->%list_elem_of_singleton. done.
    + intros j. rewrite elem_of_app, list_elem_of_singleton.
      destruct (decide (j = i)) as [->|Hne].
      * rewrite list_lookup_insert_eq by lia. split; [done | by right].
      * rewrite list_lookup_insert_ne by done. rewrite Hcenters.
        split; [by intros [?|?] | by left].
    + intros j Hj. destruct (decide (j = i)) as [->|Hne].
      * rewrite Hpi, Hki, Hsquare, (coeff_lookup _ _ _ Hi). lra.
      * rewrite list_lookup_insert_ne in Hj by done.
        destruct (Hupd j) as [Hold _]. destruct (Hold Hj) as [_ ->].
        by apply Hpc.
    + intros j Hj. destruct (decide (j = i)) as [->|Hne].
      * rewrite list_lookup_insert_eq in Hj by lia. done.
      * rewrite list_lookup_insert_ne in Hj by done.
        destruct (Hupd j) as [_ Hnew']. destruct (Hnew' Hj) as [_ ->].
        rewrite (Hpo j Hj), rowProduct_setCol. lra.
  - rewrite Hpi, Hki, Hsquare, (coeff_lookup _ _ _ Hi). lra.
  - intros j. destruct (centerBits l !! j) as [[]|] eqn:Hb.
    + exists 0%R. destruct (Hupd j) as [Hold _].
      destruct (Hold Hb) as [_ ->]. lra.
    + exists (coeff kernel' j). destruct (Hupd j) as [_ Hnew'].
      by destruct (Hnew' Hb) as [_ ->].
    + exists 0%R. apply lookup_ge_None in Hb.
      rewrite !coeff_ge by lia. lra.
Qed.

Lemma initial_invariant (outputMesh : Mesh) :
  Invariant basisFunction inputMesh 0
            (initialLocals basisFunction inputMesh outputMesh).
Proof.
  constructor; cbn [initialLocals solver v centerBits _inSize _powerFunction
                    _basisMatrix _cut _greedyIDs Zero rows cols];
    rewrite ?length_replicate; try done.
  - apply NoDup_nil_2.
  - intros j. split; [by intros ?%elem_of_nil |].
    by intros [[=] _]%lookup_replicate.
  - by intros j [[=] _]%lookup_replicate.
  - intros j [_ Hj]%lookup_replicate. unfold rowProduct. cbn.
    unfold coeff. rewrite lookup_replicate_2 by done. cbn. lra.
Qed.

Lemma iteration_empty (n : nat) (l : Locals) :
  Invariant basisFunction inputMesh n l →
  length (vertices inputMesh) = 0 →
  iteration basisFunction inputMesh n l = Aborts EmptyMatrix.
Proof.
  intros Hinv HN. pose proof (inv_power _ _ _ _ Hinv) as Hp.
  rewrite HN in Hp. apply length_zero_iff_nil in Hp.
  unfold iteration, select. by rewrite Hp.
Qed.

Lemma reached_invariant (outputMesh : Mesh) (n : nat) (l : Locals) :
  Reached basisFunction inputMesh outputMesh n l →
  Invariant basisFunction inputMesh n l.
Proof.
  induction 1 as [|n l l' _ IH Hn Hstep]; [apply initial_invariant |].
  destruct (decide (0 < length (vertices inputMesh))) as [HN|HN].
  - destruct (iteration_step n l IH Hn HN)
      as (i & pMax & _ & [[_ Hrun]|[_ (l1 & Hrun & Hinv & _)]]);
      rewrite Hrun in Hstep; [done |]. by injection Hstep as <-.
  - rewrite iteration_empty in Hstep by (done || lia). done.
Qed.

(** The selection loop returns; it ends either at a state whose power
    function lies below the tolerance everywhere, or after all of its
    iterations. *)
Lemma selectionLoop_returns (remaining : nat) :
  ∀ n l,
    Invariant basisFunction inputMesh n l →
    n + remaining ≤ _maxIter →
    0 < length (vertices inputMesh) →
    ∃ l' n',
      selectionLoop basisFunction inputMesh remaining n l = Returns l'
      ∧ Invariant basisFunction inputMesh n' l'
      ∧ n' ≤ n + remaining
      ∧ ((maxValue (_powerFunction (solver l')) < _tolP)%R
         ∨ n' = n + remaining).
Proof.
  induction remaining as [|r IH]; intros n l Hinv Hn HN.
  - exists l, n. cbn [selectionLoop].
    split; [done |]. split; [done |]. split; [lia |]. right. lia.
  - cbn [selectionLoop].
    destruct (iteration_step n l Hinv ltac:(lia) HN)
      as (i & pMax & Hmax & [[Hlt ->]|[_ (l1 & -> & Hinv1 & _)]]).
    + rewrite bind_Returns. exists l, n.
      split; [done |]. split; [done |]. split; [lia |]. left.
      by rewrite (maxValue_spec _ _ _ Hmax).
    + rewrite bind_Returns.
      destruct (IH (S n) l1 Hinv1 ltac:(lia) HN)
        as (l' & n' & Hrun & Hinv' & Hle & Hend).
      exists l', n'. split; [done |]. split; [done |]. split; [lia |].
      destruct Hend as [?|?]; [by left | right; lia].
Qed.

Lemma toActiveAxis_returns (deadAxis : list bool) :
  length deadAxis ≤ 3 → ∃ activeAxis, toActiveAxis deadAxis = Returns activeAxis.
Proof.
  intros Hlen. destruct deadAxis as [|a [|b [|c [|d deadAxis]]]];
    cbn in Hlen; try lia; by eexists.
Qed.

Lemma toActiveAxis_aborts (deadAxis : list bool) :
  3 < length deadAxis → toActiveAxis deadAxis = Aborts OutOfRange.
Proof.
  intros Hlen. by destruct deadAxis as [|a [|b [|c [|d deadAxis]]]];
    cbn in Hlen; try lia.
Qed.

(** The constructor on a mesh with at least one vertex, polynomial off and a
    dead-axis vector that fits the three-slot array. *)
Lemma construct_returns (inputIDs outputIDs : list nat) (outputMesh : Mesh)
    (deadAxis : list bool) :
  0 < length (vertices inputMesh) →
  length deadAxis ≤ 3 →
  ∃ s l n,
    construct basisFunction inputMesh inputIDs outputMesh outputIDs deadAxis OFF
    = Returns s
    ∧ Invariant basisFunction inputMesh n l
    ∧ n ≤ _maxIter
    ∧ ((maxValue (_powerFunction s) < _tolP)%R ∨ n = _maxIter)
    ∧ _greedyIDs s = _greedyIDs (solver l)
    ∧ _cut s = _cut (solver l)
    ∧ _powerFunction s = _powerFunction (solver l)
    ∧ rows (_kernel_eval s) = length (_greedyIDs s)
    ∧ cols (_kernel_eval s) = length (vertices outputMesh).
Proof.
  intros HN Hdead. unfold construct.
  rewrite (bool_decide_true (OFF = OFF)) by done.
  cbn [PRECICE_ASSERT]. rewrite bind_Returns.
  destruct (toActiveAxis_returns deadAxis Hdead) as [activeAxis ->].
  rewrite bind_Returns.
  destruct (selectionLoop_returns _maxIter 0
              (initialLocals basisFunction inputMesh outputMesh)
              (initial_invariant outputMesh) ltac:(lia) HN)
    as (l & n & -> & Hinv & Hle & Hend).
  rewrite bind_Returns.
  destruct (buildEvaluationMatrix_returns basisFunction outputMesh inputMesh
              (_greedyIDs (solver l)) (centers_in_range n l Hinv))
    as (E & -> & Hrows & Hcols & _).
  rewrite bind_Returns. eexists. exists l, n.
  split; [reflexivity |]. cbn [_greedyIDs _cut _powerFunction _kernel_eval].
  split; [done |]. split; [lia |].
  split; [destruct Hend as [?|?]; [by left | right; lia] |].
  by rewrite Hrows, Hcols.
Qed.

Lemma construct_aborts (inputIDs outputIDs : list nat) (outputMesh : Mesh)
    (deadAxis : list bool) (polynomial : Polynomial) (s : PGreedySolver) :
  construct basisFunction inputMesh inputIDs outputMesh outputIDs deadAxis
            polynomial = Returns s →
  0 < length (vertices inputMesh) ∧ polynomial = OFF ∧ length deadAxis ≤ 3.
Proof.
  unfold construct. intros Hrun.
  apply bind_inv in Hrun as ([] & Hpoly & Hrun).
  apply bind_inv in Hrun as (activeAxis & Hdead & Hrun).
  apply bind_inv in Hrun as (l & Hloop & Hrun).
  split; [| split].
  - destruct (decide (0 < length (vertices inputMesh))) as [|HN]; [done |].
    unfold _maxIter in Hloop. cbn [selectionLoop] in Hloop.
    rewrite iteration_empty in Hloop;
      [done | apply initial_invariant | lia].
  - unfold PRECICE_ASSERT in Hpoly.
    destruct (bool_decide (polynomial = OFF)) eqn:Hb; [| done].
    by apply bool_decide_eq_true in Hb.
  - destruct (decide (length deadAxis ≤ 3)) as [|Hlong]; [done |].
    rewrite toActiveAxis_aborts in Hdead by lia. done.
Qed.

End pgreedy_loop.

Lemma gaussian_at_0 : PGreedy.evaluate (PGreedy.gaussian 1) 0 = 1%R.
Proof.
  cbn. replace (- (1 * 0 * (1 * 0)))%R with 0%R by lra. apply exp_0.
Qed.

(** The first iteration of the Gaussian scenario selects a center. *)
Lemma scenario_first_iteration :
  ∃ l', PGreedy.iteration (PGreedy.gaussian 1) PGreedy.scenarioInput 0
          (PGreedy.initialLocals (PGreedy.gaussian 1) PGreedy.scenarioInput
             PGreedy.scenarioOutput)
        = Returns (PGreedy.Continue l').
Proof.
  destruct (iteration_step (PGreedy.gaussian 1) PGreedy.scenarioInput 0
              (PGreedy.initialLocals (PGreedy.gaussian 1)
                 PGreedy.scenarioInput PGreedy.scenarioOutput))
    as (i & pMax & Hmax & [[Hlt _]|[_ (l' & Hrun & _)]]).
  - apply initial_invariant.
  - unfold PGreedy._maxIter. lia.
  - cbn. lia.
  - exfalso. destruct (maxCoeff_spec
      (PGreedy._powerFunction (PGreedy.solver
         (PGreedy.initialLocals (PGreedy.gaussian 1) PGreedy.scenarioInput
            PGreedy.scenarioOutput)))) as (i' & m & Hmax' & Hi & _);
      [cbn; lia |].
    rewrite Hmax in Hmax'. injection Hmax' as <- <-.
    cbn [PGreedy.initialLocals PGreedy.solver PGreedy._powerFunction] in Hi.
    apply lookup_replicate in Hi as [Hi _]. rewrite gaussian_at_0 in Hi.
    unfold PGreedy._tolP in Hlt. lra.
  - by exists l'.
Qed.

(** Number of centers and termination in exact real arithmetic, where the
    power function is exactly zero at a selected center.  With
    [maxIter = 1000] and [tolP = 1e-10]:
    when the constructor returns, it has selected at most
    [K = min(n, 1000)] centers, and either the largest entry of the power
    function is below [tolP] or exactly [K] centers were selected; it fails
    to return only on an empty input mesh, with polynomial not off, or with
    a dead-axis vector longer than the three-slot array.  In every iteration
    the loop reaches, it breaks, leaving the state as it is, exactly when
    the largest power-function entry is below [tolP]; otherwise it selects
    one more center. *)
Theorem pgreedy_center_count (basisFunction : PGreedy.RADIAL_BASIS_FUNCTION_T)
    (inputMesh : mesh.Mesh) (inputIDs : list nat) (outputMesh : mesh.Mesh)
    (outputIDs : list nat) (deadAxis : list bool)
    (polynomial : PGreedy.Polynomial) :
  match PGreedy.construct basisFunction inputMesh inputIDs outputMesh
                          outputIDs deadAxis polynomial with
  | Returns s =>
      length (PGreedy._greedyIDs s)
        ≤ Nat.min (length (mesh.vertices inputMesh)) 1000
      ∧ ((PGreedy.maxValue (PGreedy._powerFunction s) < 1e-10)%R
         ∨ length (PGreedy._greedyIDs s)
           = Nat.min (length (mesh.vertices inputMesh)) 1000)
  | Aborts _ =>
      length (mesh.vertices inputMesh) = 0
      ∨ polynomial ≠ PGreedy.OFF
      ∨ 3 < length deadAxis
  end
  ∧ ∀ n l,
      PGreedy.Reached basisFunction inputMesh outputMesh n l →
      n < PGreedy._maxIter →
      match PGreedy.iteration basisFunction inputMesh n l with
      | Returns (PGreedy.Break l') =>
          l' = l
          ∧ (PGreedy.maxValue (PGreedy._powerFunction (PGreedy.solver l))
             < PGreedy._tolP)%R
      | Returns (PGreedy.Continue l') =>
          ¬ (PGreedy.maxValue (PGreedy._powerFunction (PGreedy.solver l))
             < PGreedy._tolP)%R
          ∧ length (PGreedy._greedyIDs (PGreedy.solver l')) = S n
      | Aborts _ => length (mesh.vertices inputMesh) = 0
      end.
Proof.
  split.
  - destruct (PGreedy.construct basisFunction inputMesh inputIDs outputMesh
                outputIDs deadAxis polynomial) as [s|f] eqn:Hrun.
    + destruct (construct_aborts _ _ _ _ _ _ _ _ Hrun) as (HN & -> & Hdead).
      destruct (construct_returns basisFunction inputMesh inputIDs outputIDs
                  outputMesh deadAxis HN Hdead)
        as (s' & l & n & Hrun' & Hinv & Hle & Hend & Hids & _).
      rewrite Hrun in Hrun'. injection Hrun' as <-.
      pose proof (PGreedy.inv_count _ _ _ _ Hinv) as Hcount.
      pose proof (NoDup_bounded_length _ _
                    (PGreedy.inv_distinct _ _ _ _ Hinv)
                    (centers_in_range _ _ _ _ Hinv)) as Hbound.
      rewrite Hids, Hcount. rewrite Hcount in Hbound.
      change 1000 with PGreedy._maxIter.
      split; [lia |]. destruct Hend as [Hlow| ->]; [by left | right; lia].
    + destruct (decide (length (mesh.vertices inputMesh) = 0)) as [|HN];
        [by left | right].
      destruct (decide (polynomial = PGreedy.OFF)) as [->|]; [| by left].
      right. destruct (decide (3 < length deadAxis)) as [|Hdead]; [done |].
      destruct (construct_returns basisFunction inputMesh inputIDs outputIDs
                  outputMesh deadAxis ltac:(lia) ltac:(lia))
        as (s' & l & n & Hrun' & _).
      rewrite Hrun in Hrun'. done.
  - intros n l Hreached Hn.
    pose proof (reached_invariant _ _ _ _ _ Hreached) as Hinv.
    destruct (decide (0 < length (mesh.vertices inputMesh))) as [HN|HN].
    + destruct (iteration_step _ _ n l Hinv Hn HN)
        as (i & pMax & Hmax & [[Hlt ->]|[Hge (l' & -> & Hinv' & _)]]);
        rewrite (maxValue_spec _ _ _ Hmax); [done |].
      split; [done |]. apply (PGreedy.inv_count _ _ _ _ Hinv').
    + rewrite iteration_empty by (done || lia). lia.
Qed.

Lemma pgreedy_center_count_witness :
  ∃ s,
    PGreedy.construct (PGreedy.gaussian 1) PGreedy.scenarioInput []
      PGreedy.scenarioOutput [] [false; false; false] PGreedy.OFF
    = Returns s
    ∧ length (PGreedy._greedyIDs s) ≤ 2.
Proof.
  pose proof (pgreedy_center_count (PGreedy.gaussian 1)
                PGreedy.scenarioInput [] PGreedy.scenarioOutput []
                [false; false; false] PGreedy.OFF) as [Hcount _].
  destruct (construct_returns (PGreedy.gaussian 1) PGreedy.scenarioInput
              [] [] PGreedy.scenarioOutput [false; false; false])
    as (s & _ & _ & Hrun & _); [cbn; lia.. |].
  rewrite Hrun in Hcount. exists s. split; [exact Hrun |].
  destruct Hcount as [Hle _]. exact Hle.
Defined.

Section pgreedy_binary64.
Import PrimFloat binary64.

(** C5 (number of centers and termination), on binary64 numbers.  Input
    mesh of one vertex, so [K = min(1, 1000) = 1], and the multiquadric
    kernel with [phi(0) = 1e7].  Iteration 0 selects vertex 0 and leaves
    [p(0) = 1e7 - (1e7 / sqrt(1e7))^2], which rounds to [2^-29] and not to
    0.  In iteration 1 [select] returns vertex 0 again, [2^-29] is not below
    [tolP], so the loop does not stop although [K] centers are selected:
    vertex 0 is appended a second time and the assignment to column 1 of
    the one-column [_basisMatrix] fails.  The constructor has no defined
    result. *)
Theorem binary64_selects_a_center_twice :
  ∃ l1,
    iteration (multiquadrics 1e7%float) oneVertex 0
      (initialLocals (multiquadrics 1e7%float) oneVertex oneVertex)
    = Returns (PGreedy.Continue l1)
    ∧ _greedyIDs (solver l1) = [0]
    ∧ _powerFunction (solver l1) = [0x1p-29%float]
    ∧ select (solver l1) = Returns (0, 0x1p-29%float)
    ∧ (0x1p-29 <? _tolP)%float = false
    ∧ cols (_basisMatrix (solver l1)) = 1
    ∧ iteration (multiquadrics 1e7%float) oneVertex 1 l1
      = Aborts AssertionFailed
    ∧ construct (multiquadrics 1e7%float) oneVertex [] oneVertex [] []
                PGreedy.OFF
      = Aborts AssertionFailed.
Proof.
  eexists. split; [vm_compute; reflexivity |].
  repeat split; vm_compute; reflexivity.
Qed.

End pgreedy_binary64.

(** C6 (the power-function maximum never grows).  The power function starts
    as [phi(0)] in every entry.  From every state the selection loop reaches,
    an iteration that selects a center only subtracts squares from the
    entries, so the largest entry after the iteration is at most the largest
    entry before it; an iteration that breaks leaves the state as it is. *)
Theorem pgreedy_power_max_non_increasing
    (basisFunction : PGreedy.RADIAL_BASIS_FUNCTION_T)
    (inputMesh outputMesh : mesh.Mesh) :
  PGreedy._powerFunction
    (PGreedy.solver (PGreedy.initialLocals basisFunction inputMesh outputMesh))
  = replicate (length (mesh.vertices inputMesh))
              (PGreedy.evaluate basisFunction 0%R)
  ∧ ∀ n l,
      PGreedy.Reached basisFunction inputMesh outputMesh n l →
      n < PGreedy._maxIter →
      match PGreedy.iteration basisFunction inputMesh n l with
      | Returns (PGreedy.Continue l') =>
          (PGreedy.maxValue (PGreedy._powerFunction (PGreedy.solver l'))
           <= PGreedy.maxValue (PGreedy._powerFunction (PGreedy.solver l)))%R
          ∧ ∀ j, ∃ w,
              coeff (PGreedy._powerFunction (PGreedy.solver l')) j
              = (coeff (PGreedy._powerFunction (PGreedy.solver l)) j
                 - w * w)%R
      | Returns (PGreedy.Break l') => l' = l
      | Aborts _ => length (mesh.vertices inputMesh) = 0
      end.
Proof.
  split; [reflexivity |].
  intros n l Hreached Hn.
  pose proof (reached_invariant _ _ _ _ _ Hreached) as Hinv.
  destruct (decide (0 < length (mesh.vertices inputMesh))) as [HN|HN].
  - destruct (iteration_step _ _ n l Hinv Hn HN)
      as (i & pMax & Hmax & [[Hlt ->]|[Hge (l' & -> & Hinv' & Hrest)]]);
      [done |].
    destruct Hrest as (_ & _ & _ & _ & _ & Hsquares).
    split; [| exact Hsquares].
    pose proof (PGreedy.inv_power _ _ _ _ Hinv) as Hp.
    pose proof (PGreedy.inv_power _ _ _ _ Hinv') as Hp'.
    apply maxValue_mono; [lia | lia |].
    intros j _. destruct (Hsquares j) as [w ->]. nra.
  - rewrite iteration_empty by (done || lia). lia.
Qed.

Lemma pgreedy_power_max_non_increasing_witness :
  ∃ l',
    PGreedy.iteration (PGreedy.gaussian 1) PGreedy.scenarioInput 0
      (PGreedy.initialLocals (PGreedy.gaussian 1) PGreedy.scenarioInput
         PGreedy.scenarioOutput)
    = Returns (PGreedy.Continue l')
    ∧ (PGreedy.maxValue (PGreedy._powerFunction (PGreedy.solver l'))
       <= PGreedy.maxValue
            (PGreedy._powerFunction
               (PGreedy.solver
                  (PGreedy.initialLocals (PGreedy.gaussian 1)
                     PGreedy.scenarioInput PGreedy.scenarioOutput))))%R.
Proof.
  destruct scenario_first_iteration as [l' Hrun]. exists l'.
  split; [exact Hrun |].
  pose proof (pgreedy_power_max_non_increasing (PGreedy.gaussian 1)
                PGreedy.scenarioInput PGreedy.scenarioOutput) as [_ Hstep].
  specialize (Hstep 0 _ (PGreedy.reached_first _ _ _)
                ltac:(unfold PGreedy._maxIter; lia)).
  rewrite Hrun in Hstep. exact (proj1 Hstep).
Defined.

(** C10 (centers are never selected twice).  From every state the selection
    loop reaches, an iteration that selects index [i] finds [centerBits[i]]
    still unset, so entry [i] is updated: after normalisation [v(i)] is
    [sqrt(pMax)] and [p(i)] becomes exactly zero; [i] is none of the centers
    selected before, and the list of centers stays free of duplicates.
    Whenever some entry of a vertex that is no center is at least [tolP],
    [select] returns an index that is none of the centers.  The centers of a
    constructed solver are pairwise distinct. *)
Theorem pgreedy_centers_distinct
    (basisFunction : PGreedy.RADIAL_BASIS_FUNCTION_T)
    (inputMesh : mesh.Mesh) (inputIDs : list nat) (outputMesh : mesh.Mesh)
    (outputIDs : list nat) (deadAxis : list bool)
    (polynomial : PGreedy.Polynomial) :
  match PGreedy.construct basisFunction inputMesh inputIDs outputMesh
                          outputIDs deadAxis polynomial with
  | Returns s => NoDup (PGreedy._greedyIDs s)
  | Aborts _ => True
  end
  ∧ ∀ n l,
      PGreedy.Reached basisFunction inputMesh outputMesh n l →
      n < PGreedy._maxIter →
      match PGreedy.iteration basisFunction inputMesh n l,
            maxCoeff (PGreedy._powerFunction (PGreedy.solver l)) with
      | Returns (PGreedy.Continue l'), Returns (i, pMax) =>
          PGreedy.centerBits l !! i = Some false
          ∧ coeff (PGreedy.v l') i = sqrt pMax
          ∧ coeff (PGreedy._powerFunction (PGreedy.solver l')) i = 0%R
          ∧ (i ∉ PGreedy._greedyIDs (PGreedy.solver l))
          ∧ PGreedy._greedyIDs (PGreedy.solver l')
            = PGreedy._greedyIDs (PGreedy.solver l) ++ [i]
          ∧ NoDup (PGreedy._greedyIDs (PGreedy.solver l'))
      | _, _ => True
      end
      ∧ ∀ j,
          PGreedy.centerBits l !! j = Some false →
          (PGreedy._tolP
           <= coeff (PGreedy._powerFunction (PGreedy.solver l)) j)%R →
          ∃ i pMax,
            PGreedy.select (PGreedy.solver l) = Returns (i, pMax)
            ∧ (i ∉ PGreedy._greedyIDs (PGreedy.solver l)).
Proof.
  split.
  - destruct (PGreedy.construct basisFunction inputMesh inputIDs outputMesh
                outputIDs deadAxis polynomial) as [s|f] eqn:Hrun; [| done].
    destruct (construct_aborts _ _ _ _ _ _ _ _ Hrun) as (HN & -> & Hdead).
    destruct (construct_returns basisFunction inputMesh inputIDs outputIDs
                outputMesh deadAxis HN Hdead)
      as (s' & l & n & Hrun' & Hinv & _ & _ & Hids & _).
    rewrite Hrun in Hrun'. injection Hrun' as <-.
    rewrite Hids. apply (PGreedy.inv_distinct _ _ _ _ Hinv).
  - intros n l Hreached Hn.
    pose proof (reached_invariant _ _ _ _ _ Hreached) as Hinv.
    split.
    + destruct (decide (0 < length (mesh.vertices inputMesh))) as [HN|HN].
      * destruct (iteration_step _ _ n l Hinv Hn HN)
          as (i & pMax & -> & [[Hlt ->]|[Hge (l' & -> & Hinv' & Hrest)]]);
          [done |].
        destruct Hrest as (Hbit & Hfresh & Hids & Hv & Hp & _).
        repeat (split; [done |]).
        apply (PGreedy.inv_distinct _ _ _ _ Hinv').
      * by rewrite iteration_empty by (done || lia).
    + intros j Hj Hlarge.
      pose proof (lookup_lt_Some _ _ _ Hj) as HjN.
      rewrite (PGreedy.inv_bits _ _ _ _ Hinv) in HjN.
      destruct (iteration_step _ _ n l Hinv Hn ltac:(lia))
        as (i & pMax & Hmax & Hcases).
      exists i, pMax. split; [exact Hmax |].
      destruct Hcases as [[Hlt _]|[_ (l' & _ & _ & _ & Hfresh & _)]];
        [| exact Hfresh].
      destruct (maxCoeff_spec (PGreedy._powerFunction (PGreedy.solver l)))
        as (i' & m & Hmax' & _ & Hle);
        [rewrite (PGreedy.inv_power _ _ _ _ Hinv); lia |].
      rewrite Hmax in Hmax'. injection Hmax' as <- <-.
      pose proof (Hle j _ (lookup_coeff _ j
        ltac:(rewrite (PGreedy.inv_power _ _ _ _ Hinv); lia))).
      lra.
Qed.

Lemma pgreedy_centers_distinct_witness :
  ∃ l' i pMax,
    PGreedy.iteration (PGreedy.gaussian 1) PGreedy.scenarioInput 0
      (PGreedy.initialLocals (PGreedy.gaussian 1) PGreedy.scenarioInput
         PGreedy.scenarioOutput)
    = Returns (PGreedy.Continue l')
    ∧ maxCoeff
        (PGreedy._powerFunction
           (PGreedy.solver
              (PGreedy.initialLocals (PGreedy.gaussian 1)
                 PGreedy.scenarioInput PGreedy.scenarioOutput)))
      = Returns (i, pMax)
    ∧ coeff (PGreedy.v l') i = sqrt pMax
    ∧ coeff (PGreedy._powerFunction (PGreedy.solver l')) i = 0%R
    ∧ PGreedy._greedyIDs (PGreedy.solver l') = [i].
Proof.
  destruct scenario_first_iteration as [l' Hrun].
  destruct (maxCoeff_spec
              (PGreedy._powerFunction
                 (PGreedy.solver
                    (PGreedy.initialLocals (PGreedy.gaussian 1)
                       PGreedy.scenarioInput PGreedy.scenarioOutput))))
    as (i & pMax & Hmax & _); [cbn; lia |].
  exists l', i, pMax. split; [exact Hrun |]. split; [exact Hmax |].
  pose proof (pgreedy_centers_distinct (PGreedy.gaussian 1)
                PGreedy.scenarioInput [] PGreedy.scenarioOutput []
                [] PGreedy.OFF) as [_ Hstep].
  specialize (Hstep 0 _ (PGreedy.reached_first _ _ _)
                ltac:(unfold PGreedy._maxIter; lia)).
  destruct Hstep as [Hstep _]. rewrite Hrun, Hmax in Hstep.
  destruct Hstep as (_ & Hv & Hp & _ & Hids & _).
  split; [exact Hv |]. split; [exact Hp |]. exact Hids.
Defined.

(** ** P-Greedy: the two solves *)

Lemma indexed_returns (inputData : list R) (ids : list nat) :
  Forall (λ id, id < length inputData) ids →
  PGreedy.indexed inputData ids = Returns (coeff inputData <$> ids).
Proof.
  induction 1 as [|id ids Hid _ IH]; [done |].
  cbn [PGreedy.indexed]. rewrite readAt_coeff, bind_Returns by done.
  by rewrite IH, bind_Returns.
Qed.

Lemma coeff_fmap_nth (inputData : list R) (ids : list nat) (c : nat) :
  c < length ids →
  coeff (coeff inputData <$> ids) c = coeff inputData (nth c ids 0).
Proof.
  intros Hc. apply coeff_lookup.
  by rewrite list_lookup_fmap, (lookup_nth ids c Hc).
Qed.

(** Row [r] of a lower-triangular matrix ends at column [r]. *)
Lemma Rsum_lower_row (M : Matrix) (y : nat → R) (r n : nat) :
  r < n →
  Rsum ((λ c, lower M r c * y c)%R <$> seq 0 n)
  = Rsum ((λ c, coeffM M r c * y c)%R <$> seq 0 (S r)).
Proof.
  intros Hr. rewrite (Rsum_seq_split _ (S r) n) by lia.
  rewrite (Rsum_zero _ (seq (S r) (n - S r))).
  - rewrite Rplus_0_r. apply Rsum_ext. intros c Hc. apply elem_of_seq in Hc.
    unfold lower. by rewrite decide_True by lia.
  - intros c Hc. apply elem_of_seq in Hc. unfold lower.
    rewrite decide_False by lia. lra.
Qed.

(** Column [k] of a lower-triangular matrix starts at row [k]. *)
Lemma Rsum_lower_column (M : Matrix) (z : nat → R) (k n : nat) :
  k ≤ n →
  Rsum ((λ r, lower M r k * z r)%R <$> seq 0 n)
  = Rsum ((λ r, coeffM M r k * z r)%R <$> seq k (n - k)).
Proof.
  intros Hk. rewrite (Rsum_seq_split _ k n) by lia.
  rewrite (Rsum_zero _ (seq 0 k)).
  - rewrite Rplus_0_l. apply Rsum_ext. intros r Hr. apply elem_of_seq in Hr.
    unfold lower. by rewrite decide_True by lia.
  - intros r Hr. apply elem_of_seq in Hr. unfold lower.
    rewrite decide_False by lia. lra.
Qed.

(** A constructed solver is well sized: its centers index the input mesh,
    [_cut] holds a row and a column per center, and the evaluation matrix has
    a row per center and a column per output vertex. *)
Lemma construct_well_sized
    (basisFunction : PGreedy.RADIAL_BASIS_FUNCTION_T)
    (inputMesh : mesh.Mesh) (inputIDs : list nat) (outputMesh : mesh.Mesh)
    (outputIDs : list nat) (deadAxis : list bool)
    (polynomial : PGreedy.Polynomial) (s : PGreedy.PGreedySolver) :
  PGreedy.construct basisFunction inputMesh inputIDs outputMesh outputIDs
                    deadAxis polynomial = Returns s →
  Forall (λ id, id < length (mesh.vertices inputMesh)) (PGreedy._greedyIDs s)
  ∧ length (PGreedy._greedyIDs s) ≤ rows (PGreedy._cut s)
  ∧ length (PGreedy._greedyIDs s) ≤ cols (PGreedy._cut s)
  ∧ rows (PGreedy._kernel_eval s) = length (PGreedy._greedyIDs s)
  ∧ cols (PGreedy._kernel_eval s) = length (mesh.vertices outputMesh).
Proof.
  intros Hrun.
  destruct (construct_aborts _ _ _ _ _ _ _ _ Hrun) as (HN & -> & Hdead).
  destruct (construct_returns basisFunction inputMesh inputIDs outputIDs
              outputMesh deadAxis HN Hdead)
    as (s' & l & n & Hrun' & Hinv & Hle & _ & Hids & Hcut & _ & Hrows & Hcols).
  rewrite Hrun in Hrun'. injection Hrun' as <-.
  pose proof (PGreedy.inv_count _ _ _ _ Hinv) as Hcount.
  pose proof (NoDup_bounded_length _ _
                (PGreedy.inv_distinct _ _ _ _ Hinv)
                (centers_in_range _ _ _ _ Hinv)) as Hbound.
  rewrite Hids, Hcut. split; [by eapply centers_in_range |].
  rewrite (PGreedy.inv_cut_rows _ _ _ _ Hinv),
    (PGreedy.inv_cut_cols _ _ _ _ Hinv).
  split; [lia |]. split; [lia |]. split; [by rewrite <- Hids | done].
Qed.

(** C7 (consistent solve).  For a solver whose [_cut] holds at least
    [|greedyIDs|] rows and columns and whose evaluation matrix has one row
    per center, and input data that covers every center index:
    [solveConsistent] returns one value per output vertex, and the value for
    output vertex [j] is entry [j] of [E^T (L^T (L y))], where [y] is the
    input data at the centers in selection order, [L] the lower triangle of
    the leading block of [_cut], and [E] the evaluation matrix. *)
Theorem solveConsistent_formula (s : PGreedy.PGreedySolver)
    (inputData : list R) (polynomial : PGreedy.Polynomial) :
  Forall (λ id, id < length inputData) (PGreedy._greedyIDs s) →
  length (PGreedy._greedyIDs s) ≤ rows (PGreedy._cut s) →
  length (PGreedy._greedyIDs s) ≤ cols (PGreedy._cut s) →
  rows (PGreedy._kernel_eval s) = length (PGreedy._greedyIDs s) →
  ∃ prediction,
    PGreedy.solveConsistent s inputData polynomial = Returns prediction
    ∧ length prediction = cols (PGreedy._kernel_eval s)
    ∧ ∀ j, j < cols (PGreedy._kernel_eval s) →
           coeff prediction j = PGreedy.spec_prediction s inputData j.
Proof.
  intros Hids Hrows Hcols Heval. unfold PGreedy.solveConsistent.
  rewrite indexed_returns, bind_Returns by done.
  rewrite !eigen_assert_holds, !bind_Returns by done.
  eexists. split; [reflexivity |].
  split; [by rewrite length_fmap, length_seq |].
  intros j Hj. rewrite coeff_fmap_seq by done.
  unfold PGreedy.spec_prediction. apply Rsum_ext.
  intros k Hk. apply elem_of_seq in Hk. f_equal.
  rewrite coeff_fmap_seq by lia.
  unfold PGreedy.spec_alpha.
  rewrite (Rsum_lower_column (PGreedy._cut s)
             (λ r, coeff ((λ r, Rsum ((λ c,
                lower (PGreedy._cut s) r c
                * coeff (coeff inputData <$> PGreedy._greedyIDs s) c)%R
                <$> seq 0 (length (PGreedy._greedyIDs s))))
                <$> seq 0 (length (PGreedy._greedyIDs s))) r)) by lia.
  apply Rsum_ext. intros r Hr. apply elem_of_seq in Hr. f_equal.
  rewrite coeff_fmap_seq by lia.
  unfold PGreedy.spec_Ly.
  rewrite (Rsum_lower_row (PGreedy._cut s)
             (λ c, coeff (coeff inputData <$> PGreedy._greedyIDs s) c))
    by lia.
  apply Rsum_ext. intros c Hc. apply elem_of_seq in Hc. f_equal.
  unfold PGreedy.spec_y. apply coeff_fmap_nth. lia.
Qed.

Lemma solveConsistent_formula_witness :
  ∃ prediction,
    PGreedy.solveConsistent PGreedy.scenarioSolver [5%R] PGreedy.OFF
    = Returns prediction
    ∧ coeff prediction 0 = 60%R ∧ coeff prediction 1 = 80%R.
Proof.
  destruct (solveConsistent_formula PGreedy.scenarioSolver [5%R] PGreedy.OFF)
    as (prediction & Hrun & _ & Hentries).
  - cbn. repeat constructor.
  - cbn. lia.
  - cbn. lia.
  - reflexivity.
  - exists prediction. split; [exact Hrun |].
    rewrite (Hentries 0), (Hentries 1) by (cbn; lia).
    unfold PGreedy.spec_prediction, PGreedy.spec_alpha, PGreedy.spec_Ly,
      PGreedy.spec_y, coeff. cbn. split; lra.
Defined.

(** C9 (conservative solve).  [solveConservative] aborts on its assertion for
    every solver, input vector and polynomial argument; it returns no
    result. *)
Theorem solveConservative_aborts (s : PGreedy.PGreedySolver)
    (inputData : list R) (polynomial : PGreedy.Polynomial) :
  PGreedy.solveConservative s inputData polynomial = Aborts AssertionFailed.
Proof. reflexivity. Qed.

(** C8 (the dead-axis argument is not used).  The kernel column of the center
    selection and the evaluation matrix are built from distances over all
    three coordinates, the mask being fixed to [{true, true, true}].  Two
    constructor calls that differ only in their dead-axis vectors, each of at
    most three entries as the three-slot array requires, have the same
    outcome: the same centers, triangular factor and evaluation matrix. *)
Theorem dead_axis_is_ignored (basisFunction : PGreedy.RADIAL_BASIS_FUNCTION_T)
    (inputMesh : mesh.Mesh) (inputIDs : list nat) (outputMesh : mesh.Mesh)
    (outputIDs : list nat) (deadAxis deadAxis' : list bool)
    (polynomial : PGreedy.Polynomial) :
  length deadAxis ≤ 3 →
  length deadAxis' ≤ 3 →
  PGreedy.construct basisFunction inputMesh inputIDs outputMesh outputIDs
                    deadAxis polynomial
  = PGreedy.construct basisFunction inputMesh inputIDs outputMesh outputIDs
                      deadAxis' polynomial
  ∧ (∀ u v,
       PGreedy.computeSquaredDifference2 u v (true, true, true)
       = PGreedy.squaredDistance u v)
  ∧ (∀ kernelVector x,
       length kernelVector = length (mesh.vertices inputMesh) →
       PGreedy.updateKernelVector basisFunction inputMesh kernelVector x
       = Returns (PGreedy.kernelColumn basisFunction inputMesh x))
  ∧ ∀ greedyIDs,
      Forall (λ id, id < length (mesh.vertices inputMesh)) greedyIDs →
      ∃ E,
        PGreedy.buildEvaluationMatrix basisFunction outputMesh inputMesh
                                      greedyIDs = Returns E
        ∧ rows E = length greedyIDs
        ∧ cols E = length (mesh.vertices outputMesh)
        ∧ ∀ i j id u y,
            greedyIDs !! i = Some id →
            mesh.vertices inputMesh !! id = Some u →
            mesh.vertices outputMesh !! j = Some y →
            coeffM E i j
            = PGreedy.evaluate basisFunction
                (sqrt (PGreedy.squaredDistance (mesh.rawCoords u)
                                               (mesh.rawCoords y))).
Proof.
  intros Hdead Hdead'. split; [| split; [| split]].
  - unfold PGreedy.construct.
    destruct (toActiveAxis_returns deadAxis Hdead) as [a ->].
    by destruct (toActiveAxis_returns deadAxis' Hdead') as [a' ->].
  - apply computeSquaredDifference2_full.
  - intros kernelVector x. apply updateKernelVector_pure.
  - apply buildEvaluationMatrix_returns.
Qed.

Lemma dead_axis_is_ignored_witness :
  PGreedy.construct (PGreedy.gaussian 1) PGreedy.scenarioInput []
    PGreedy.scenarioOutput [] [false; true; true] PGreedy.OFF
  = PGreedy.construct (PGreedy.gaussian 1) PGreedy.scenarioInput []
      PGreedy.scenarioOutput [] [false; false] PGreedy.OFF.
Proof.
  apply (dead_axis_is_ignored (PGreedy.gaussian 1) PGreedy.scenarioInput []
           PGreedy.scenarioOutput [] [false; true; true] [false; false]
           PGreedy.OFF); cbn; lia.
Defined.


(** * Further properties *)

(** ** The gather/scatter channel on arbitrary queues *)

Section gather_scatter_queues.
Import mesh com GatherScatterCommunication.

Variables (N : nat) (_mesh : Mesh) (D : nat).

Hypothesis several_ranks : 1 < N.
Hypothesis indices_in_range :
  ∀ r, r < N →
       Forall (λ g, g < getGlobalNumberOfVertices _mesh)
              (getVertexDistribution _mesh !!! r).

(** The coordinator's [receive] on arbitrary queues: the head of the
    inter-participant link is consumed, one message is appended to the link
    of every worker with data, and nothing else changes. *)
Lemma receive_coordinator_queues (global : list R) (q : list (list R))
    (buf : list R) (size : nat) (w : World) :
  length global = getGlobalNumberOfVertices _mesh * D →
  fromPeer w = global :: q →
  length buf = length (getVertexDistribution _mesh !!! 0) * D →
  ∃ w', receive (process N 0) _mesh buf size D w
        = Returns (copyFrom (getVertexDistribution _mesh !!! 0) D global buf, w')
        ∧ fromPeer w' = q
        ∧ toPeer w' = toPeer w
        ∧ toCoordinator w' = toCoordinator w
        ∧ ∀ r, toWorker w' !!! r
               = toWorker w !!! r
                 ++ (if decide (1 ≤ r < N
                                ∧ 0 < length (getVertexDistribution _mesh !!! r) * D)
                     then [copyFrom (getVertexDistribution _mesh !!! r) D global
                             (replicate
                                (length (getVertexDistribution _mesh !!! r) * D)
                                0%R)]
                     else []).
Proof.
  intros Hglobal Hpeer Hbuf. unfold receive.
  rewrite (preconditions_process N several_ranks), bind_Returns.
  cbn [process isSlave isMaster getRank getSize].
  rewrite (bool_decide_false (0 ≠ 0)) by auto.
  rewrite (bool_decide_true (0 = 0)) by done.
  unfold receiveFromPeer. rewrite Hpeer. cbn [fetch].
  rewrite decide_True by done. rewrite !bind_Returns.
  cbn beta iota. cbn [PRECICE_ASSERT]. rewrite bind_Returns.
  rewrite (assignLoop_pure (getGlobalNumberOfVertices _mesh))
    by first [done | apply indices_in_range; lia].
  rewrite bind_Returns.
  set (w0 := {| toCoordinator := toCoordinator w; toWorker := toWorker w;
                toPeer := toPeer w; fromPeer := q |}).
  pose (P := λ (k : nat) (w' : World),
    fromPeer w' = q ∧ toPeer w' = toPeer w
    ∧ toCoordinator w' = toCoordinator w
    ∧ ∀ r, toWorker w' !!! r
           = toWorker w !!! r
             ++ (if decide (1 ≤ r < k
                            ∧ 0 < length (getVertexDistribution _mesh !!! r) * D)
                 then [copyFrom (getVertexDistribution _mesh !!! r) D global
                         (replicate
                            (length (getVertexDistribution _mesh !!! r) * D)
                            0%R)]
                 else [])).
  match goal with
  | |- ∃ w', (for_loop 1 (N - 1) ?body ?s ≫= _) = _ ∧ _ =>
      destruct (for_loop_invariant P body (N - 1) 1 s) as (w1 & -> & HP)
  end.
  - unfold P, w0. cbn. split; [done |]. split; [done |]. split; [done |].
    intros r. rewrite decide_False by lia. by rewrite app_nil_r.
  - intros r w1 Hr (HfromPeer & HtoPeer & HtoCoord & Hworkers).
    destruct (decide (0 < length (getVertexDistribution _mesh !!! r) * D))
      as [Hpos|Hzero].
    + rewrite bool_decide_true by done.
      rewrite (assignLoop_pure (getGlobalNumberOfVertices _mesh))
        by first [done | apply indices_in_range; lia | apply length_replicate].
      rewrite bind_Returns.
      rewrite buffer_all, bind_Returns
        by (rewrite length_copyFrom; apply length_replicate).
      eexists. split; [done |].
      unfold P, sendToWorker. cbn.
      split; [done |]. split; [done |]. split; [done |].
      intros r'. destruct (decide (r' = r)) as [->|Hne].
      * rewrite lookup_total_insert_eq, Hworkers.
        rewrite decide_False by lia. rewrite decide_True by (split; [lia | done]).
        by rewrite app_nil_r.
      * rewrite lookup_total_insert_ne by done. rewrite Hworkers.
        destruct (decide (1 ≤ r' < r ∧ _)) as [H1|H1];
          destruct (decide (1 ≤ r' < S r ∧ _)) as [H2|H2];
          first [done | exfalso; lia].
    + rewrite bool_decide_false by done. eexists. split; [done |].
      unfold P. split; [done |]. split; [done |]. split; [done |].
      intros r'. rewrite Hworkers.
      destruct (decide (1 ≤ r' < r ∧ _)) as [H1|H1];
        destruct (decide (1 ≤ r' < S r ∧ _)) as [H2|H2];
        first [done | exfalso; lia | idtac].
      destruct H2 as [H2 H3]. assert (r' = r) as -> by lia. done.
  - rewrite bind_Returns. exists w1.
    destruct HP as (HfromPeer & HtoPeer & HtoCoord & Hworkers).
    split; [done |]. split; [done |]. split; [done |]. split; [done |].
    intros r. rewrite Hworkers.
    by replace (1 + (N - 1)) with N by lia.
Qed.

(** The coordinator's [send] on arbitrary queues: exactly the head message of
    every worker with data is consumed. *)
Lemma send_coordinator_queues (contributions : nat → list R) (size : nat)
    (w : World) :
  length (contributions 0) = length (getVertexDistribution _mesh !!! 0) * D →
  (∀ r, 1 ≤ r < N → 0 < length (getVertexDistribution _mesh !!! r) * D →
        ∃ q, toCoordinator w !!! r = contributions r :: q
             ∧ length (contributions r)
               = length (getVertexDistribution _mesh !!! r) * D) →
  ∃ w', send (process N 0) _mesh (contributions 0) size D w = Returns w'
        ∧ toPeer w'
          = toPeer w ++ [gather_spec N (getVertexDistribution _mesh)
                           (getGlobalNumberOfVertices _mesh) D contributions]
        ∧ toWorker w' = toWorker w
        ∧ fromPeer w' = fromPeer w
        ∧ ∀ r, toCoordinator w' !!! r
               = if decide (1 ≤ r < N
                            ∧ 0 < length (getVertexDistribution _mesh !!! r) * D)
                 then tail (toCoordinator w !!! r)
                 else toCoordinator w !!! r.
Proof.
  intros Hlen0 Hmsgs. unfold send.
  rewrite (preconditions_process N several_ranks), bind_Returns.
  cbn [process isSlave isMaster getRank getSize].
  rewrite (bool_decide_false (0 ≠ 0)) by auto.
  rewrite (bool_decide_true (0 = 0)) by done.
  cbn [PRECICE_ASSERT]. rewrite bind_Returns.
  rewrite (accumulateLoop_pure (getGlobalNumberOfVertices _mesh))
    by first [done | apply indices_in_range; lia | apply length_replicate].
  rewrite bind_Returns.
  pose (P := λ (k : nat) (s : list R * World),
    s.1 = foldl (λ global r,
            scatterAdd (getVertexDistribution _mesh !!! r) D (contributions r)
                       global)
            (replicate (getGlobalNumberOfVertices _mesh * D) 0%R) (seq 0 k)
    ∧ toPeer s.2 = toPeer w ∧ toWorker s.2 = toWorker w
    ∧ fromPeer s.2 = fromPeer w
    ∧ ∀ r, toCoordinator s.2 !!! r
           = if decide (1 ≤ r < k
                        ∧ 0 < length (getVertexDistribution _mesh !!! r) * D)
             then tail (toCoordinator w !!! r)
             else toCoordinator w !!! r).
  match goal with
  | |- ∃ w', (for_loop 1 (N - 1) ?body ?s ≫= _) = _ ∧ _ =>
      destruct (for_loop_invariant P body (N - 1) 1 s) as ([glob w1] & -> & HP)
  end.
  - unfold P. cbn [fst snd]. split; [done |]. split; [done |].
    split; [done |]. split; [done |].
    intros r. by rewrite decide_False by lia.
  - intros r [glob w1] Hr (Hglob & HtoPeer & HtoWorker & HfromPeer & Hqueues).
    cbn [fst snd] in *.
    assert (length glob = getGlobalNumberOfVertices _mesh * D) as Hgl.
    { rewrite Hglob.
      rewrite (length_gather_over _mesh D). apply length_replicate. }
    destruct (decide (0 < length (getVertexDistribution _mesh !!! r) * D))
      as [Hpos|Hzero].
    + rewrite bool_decide_true by done.
      destruct (Hmsgs r ltac:(lia) Hpos) as (q & Hq & Hlenr).
      unfold receiveFromWorker. rewrite Hqueues.
      rewrite decide_False by lia. rewrite Hq.
      cbn [fetch]. rewrite decide_True by done. rewrite !bind_Returns.
      cbn beta iota.
      rewrite (accumulateLoop_pure (getGlobalNumberOfVertices _mesh))
        by first [done | apply indices_in_range; lia].
      rewrite bind_Returns. eexists. split; [done |].
      unfold P. cbn [fst snd toPeer toWorker fromPeer toCoordinator].
      split; [by rewrite seq_S, foldl_app, <- Hglob |].
      split; [done |]. split; [done |]. split; [done |].
      intros r'. destruct (decide (r' = r)) as [->|Hne].
      * rewrite lookup_total_insert_eq.
        rewrite decide_True by (split; [lia | done]). by rewrite Hq.
      * rewrite lookup_total_insert_ne by done. rewrite Hqueues.
        destruct (decide (1 ≤ r' < r ∧ _)) as [H1|H1];
          destruct (decide (1 ≤ r' < S r ∧ _)) as [H2|H2];
          first [done | exfalso; lia].
    + rewrite bool_decide_false by done. eexists. split; [done |].
      unfold P. cbn [fst snd].
      split.
      { rewrite seq_S, foldl_app, <- Hglob. cbn [foldl].
        rewrite Nat.add_0_l, scatterAdd_nothing by lia. done. }
      split; [done |]. split; [done |]. split; [done |].
      intros r'. rewrite Hqueues.
      destruct (decide (1 ≤ r' < r ∧ _)) as [H1|H1];
        destruct (decide (1 ≤ r' < S r ∧ _)) as [H2|H2];
        first [done | exfalso; lia | idtac].
      destruct H2 as [H2 H3]. assert (r' = r) as -> by lia. done.
  - destruct HP as (Hglob & HtoPeer & HtoWorker & HfromPeer & Hqueues).
    cbn [fst snd] in *. rewrite bind_Returns.
    replace (1 + (N - 1)) with N in Hglob, Hqueues by lia.
    change (glob = gather_spec N (getVertexDistribution _mesh)
                     (getGlobalNumberOfVertices _mesh) D contributions) in Hglob.
    rewrite buffer_all, bind_Returns
      by (rewrite Hglob; apply length_gather_spec).
    eexists. split; [done |].
    cbn. rewrite HtoPeer, Hglob. done.
Qed.

End gather_scatter_queues.

(** *** Sums and counts *)

Lemma Rsum_replicate_0 (n : nat) : Rsum (replicate n 0%R) = 0%R.
Proof.
  induction n as [|n IH]; [done |].
  cbn [replicate]. rewrite Rsum_cons, IH. lra.
Qed.

Lemma Rsum_constant {A : Type} (f : A → R) (x : R) (l : list A) :
  (∀ a, a ∈ l → f a = x) → Rsum (f <$> l) = (INR (length l) * x)%R.
Proof.
  induction l as [|a l IH]; intros Hf.
  - rewrite fmap_nil, Rsum_nil. cbn [length INR]. lra.
  - rewrite fmap_cons, Rsum_cons, IH, (Hf a).
    + change (length (a :: l)) with (S (length l)). rewrite S_INR. lra.
    + left.
    + intros b Hb. apply Hf. by right.
Qed.

Lemma Rsum_gather_over (G D : nat) (distribution : gmap nat (list nat))
    (contributions : nat → list R) :
  ∀ ranks global,
    Forall (λ r, Forall (λ g, g < G) (distribution !!! r)
                 ∧ length (contributions r) = length (distribution !!! r) * D)
           ranks →
    length global = G * D →
    Rsum (foldl (λ global r,
            scatterAdd (distribution !!! r) D (contributions r) global)
            global ranks)
    = (Rsum global + Rsum ((λ r, Rsum (contributions r)) <$> ranks))%R.
Proof.
  induction ranks as [|r ranks IH]; intros global Hranks Hlen.
  - cbn [foldl]. rewrite fmap_nil, Rsum_nil. lra.
  - apply Forall_cons in Hranks as [[Hin Hr] Hranks].
    cbn [foldl]. rewrite IH; [| done |].
    + rewrite (scatterAdd_sum G) by done.
      rewrite fmap_cons, Rsum_cons. lra.
    + unfold scatterAdd. by rewrite length_scatterAddOver.
Qed.

Lemma contribution_constant (positions idx : list nat) (D : nat)
    (src : list R) (g d : nat) (x : R) :
  (∀ i, i ∈ positions → idx !! i = Some g → coeff src (i * D + d) = x) →
  contribution positions idx D src g d
  = (INR (length (filter (λ i, idx !! i = Some g) positions)) * x)%R.
Proof.
  intros Hx. unfold contribution. apply Rsum_constant.
  intros i Hi. apply list_elem_of_filter in Hi as [Hg Hi]. by apply Hx.
Qed.

Lemma slotSum_constant (N : nat) (distribution : gmap nat (list nat))
    (D : nat) (contributions : nat → list R) (g d : nat) (x : R) :
  (∀ r i, r < N → (distribution !!! r) !! i = Some g →
          coeff (contributions r) (i * D + d) = x) →
  GatherScatterCommunication.slotSum N distribution D contributions g d
  = (INR (copies N distribution g) * x)%R.
Proof.
  intros Hx. unfold GatherScatterCommunication.slotSum, copies.
  assert (Forall (λ r, r < N) (seq 0 N)) as Hranks.
  { apply Forall_forall. intros r Hr. apply elem_of_seq in Hr. lia. }
  induction (seq 0 N) as [|r ranks IH].
  - rewrite !fmap_nil, Rsum_nil. cbn [foldr INR]. lra.
  - apply Forall_cons in Hranks as [Hr Hranks].
    rewrite !fmap_cons, Rsum_cons. cbn [foldr].
    rewrite plus_INR, IH by done.
    rewrite (contribution_constant _ _ _ _ _ _ x).
    + lra.
    + intros i _ Hi. by apply (Hx r).
Qed.

(** *** What [send] and [receive] do to the links and to the values *)

Section gather_scatter_further.
Import mesh com GatherScatterCommunication.

(** X1 (scatter semantics of [receive]).  On the coordinator of [N] ranks,
    with a vector of [globalVertexCount * valueDimension] entries at the head
    of the inter-participant link, [receive] returns; it consumes that
    vector; entry [i * valueDimension + d] of the coordinator's buffer is
    entry [distribution[0][i] * valueDimension + d] of the vector; every
    worker with data is sent exactly one message, whose entry
    [i * valueDimension + d] is entry
    [distribution[r][i] * valueDimension + d] of the vector; no other link
    is touched. *)
Theorem receive_scatters_by_index (N : nat) (_mesh : Mesh)
    (valueDimension size : nat) (global : list R) (q : list (list R))
    (itemsToReceive : list R) (w : World) :
  1 < N →
  (∀ r, r < N →
        Forall (λ g, g < getGlobalNumberOfVertices _mesh)
               (getVertexDistribution _mesh !!! r)) →
  length global = getGlobalNumberOfVertices _mesh * valueDimension →
  fromPeer w = global :: q →
  length itemsToReceive
    = length (getVertexDistribution _mesh !!! 0) * valueDimension →
  ∃ items w',
    receive (process N 0) _mesh itemsToReceive size valueDimension w
    = Returns (items, w')
    ∧ length items = length itemsToReceive
    ∧ (∀ i d,
         i < length (getVertexDistribution _mesh !!! 0) → d < valueDimension →
         coeff items (i * valueDimension + d)
         = coeff global
             (nth i (getVertexDistribution _mesh !!! 0) 0 * valueDimension + d))
    ∧ fromPeer w' = q
    ∧ toPeer w' = toPeer w
    ∧ toCoordinator w' = toCoordinator w
    ∧ (∀ r,
         1 ≤ r < N →
         0 < length (getVertexDistribution _mesh !!! r) * valueDimension →
         ∃ msg,
           toWorker w' !!! r = toWorker w !!! r ++ [msg]
           ∧ length msg
             = length (getVertexDistribution _mesh !!! r) * valueDimension
           ∧ ∀ i d,
               i < length (getVertexDistribution _mesh !!! r) →
               d < valueDimension →
               coeff msg (i * valueDimension + d)
               = coeff global
                   (nth i (getVertexDistribution _mesh !!! r) 0
                    * valueDimension + d))
    ∧ (∀ r,
         ¬ (1 ≤ r < N
            ∧ 0 < length (getVertexDistribution _mesh !!! r) * valueDimension) →
         toWorker w' !!! r = toWorker w !!! r).
Proof.
  intros HN Hrange Hglobal Hpeer Hbuf.
  destruct (receive_coordinator_queues N _mesh valueDimension HN Hrange
              global q itemsToReceive size w Hglobal Hpeer Hbuf)
    as (w' & Hrun & HfromPeer & HtoPeer & HtoCoord & Hworkers).
  eexists _, w'. split; [exact Hrun |].
  split; [apply length_copyFrom |].
  split; [intros i d Hi Hd; by apply copyFrom_coeff |].
  split; [done |]. split; [done |]. split; [done |]. split.
  - intros r Hr Hpos. eexists. split; [| split].
    + rewrite Hworkers. by rewrite decide_True by done.
    + rewrite length_copyFrom. apply length_replicate.
    + intros i d Hi Hd. apply copyFrom_coeff; [done | done |].
      apply length_replicate.
  - intros r Hr. rewrite Hworkers. rewrite decide_False by done.
    apply app_nil_r.
Qed.

Lemma receive_scatters_by_index_witness :
  ∃ items w',
    receive (process 2 0) scenarioMesh [0; 0]%R 2 1 scenarioArrived
    = Returns (items, w')
    ∧ coeff items 0 = 10%R ∧ coeff items 1 = 20%R
    ∧ ∃ msg, toWorker w' !!! 1 = [msg]
             ∧ coeff msg 0 = 30%R ∧ coeff msg 1 = 40%R.
Proof.
  destruct (receive_scatters_by_index 2 scenarioMesh 1 2
              [10; 20; 30; 40]%R [] [0; 0]%R scenarioArrived)
    as (items & w' & Hrun & _ & Hitems & _ & _ & _ & Hsent & _).
  - lia.
  - intros [|[|r]] Hr; [vm_compute; repeat constructor.. | lia].
  - reflexivity.
  - reflexivity.
  - reflexivity.
  - exists items, w'. split; [exact Hrun |].
    pose proof (Hitems 0 0 ltac:(rewrite scenario_slice_0; cbn; lia)
                  ltac:(lia)) as H0.
    pose proof (Hitems 1 0 ltac:(rewrite scenario_slice_0; cbn; lia)
                  ltac:(lia)) as H1.
    rewrite scenario_slice_0 in H0, H1. cbn in H0, H1.
    split; [exact H0 |]. split; [exact H1 |].
    destruct (Hsent 1 ltac:(lia) ltac:(rewrite scenario_slice_1; cbn; lia))
      as (msg & Hmsg & _ & Hentries).
    exists msg. split; [exact Hmsg |].
    pose proof (Hentries 0 0 ltac:(rewrite scenario_slice_1; cbn; lia)
                  ltac:(lia)) as H2.
    pose proof (Hentries 1 0 ltac:(rewrite scenario_slice_1; cbn; lia)
                  ltac:(lia)) as H3.
    rewrite scenario_slice_1 in H2, H3. cbn in H2, H3.
    split; [exact H2 | exact H3].
Defined.

(** X2 (what the coordinator's [send] takes from the worker links).  With
    the slice of every worker that has data at the head of its link, the
    coordinator's [send] returns, removes exactly that head message from
    the link of every worker with data, leaves the links of the other ranks
    and the links towards the workers and from the peer as they were, and
    appends one vector to the link towards the peer. *)
Theorem send_consumes_one_message_per_worker (N : nat) (_mesh : Mesh)
    (valueDimension size : nat) (contributions : nat → list R) (w : World) :
  1 < N →
  (∀ r, r < N →
        Forall (λ g, g < getGlobalNumberOfVertices _mesh)
               (getVertexDistribution _mesh !!! r)) →
  length (contributions 0)
    = length (getVertexDistribution _mesh !!! 0) * valueDimension →
  (∀ r, 1 ≤ r < N →
        0 < length (getVertexDistribution _mesh !!! r) * valueDimension →
        ∃ q, toCoordinator w !!! r = contributions r :: q
             ∧ length (contributions r)
               = length (getVertexDistribution _mesh !!! r) * valueDimension) →
  ∃ w' global,
    send (process N 0) _mesh (contributions 0) size valueDimension w
    = Returns w'
    ∧ toPeer w' = toPeer w ++ [global]
    ∧ toWorker w' = toWorker w
    ∧ fromPeer w' = fromPeer w
    ∧ (∀ r,
         1 ≤ r < N →
         0 < length (getVertexDistribution _mesh !!! r) * valueDimension →
         toCoordinator w !!! r = contributions r :: toCoordinator w' !!! r)
    ∧ (∀ r,
         ¬ (1 ≤ r < N
            ∧ 0 < length (getVertexDistribution _mesh !!! r) * valueDimension) →
         toCoordinator w' !!! r = toCoordinator w !!! r).
Proof.
  intros HN Hrange Hlen0 Hmsgs.
  destruct (send_coordinator_queues N _mesh valueDimension HN Hrange
              contributions size w Hlen0 Hmsgs)
    as (w' & Hrun & HtoPeer & HtoWorker & HfromPeer & Hqueues).
  eexists w', _. split; [exact Hrun |]. split; [exact HtoPeer |].
  split; [done |]. split; [done |]. split.
  - intros r Hr Hpos. rewrite Hqueues. rewrite decide_True by done.
    destruct (Hmsgs r Hr Hpos) as (q & -> & _). done.
  - intros r Hr. rewrite Hqueues. by rewrite decide_False by done.
Qed.

Lemma send_consumes_one_message_per_worker_witness :
  ∃ w' global,
    send (process 2 0) scenarioMesh (scenarioItems 0) 2 1 scenarioPosted
    = Returns w'
    ∧ toPeer w' = [global]
    ∧ toCoordinator w' !!! 1 = [].
Proof.
  destruct (send_consumes_one_message_per_worker 2 scenarioMesh 1 2
              scenarioItems scenarioPosted)
    as (w' & global & Hrun & HtoPeer & _ & _ & Htaken & _).
  - lia.
  - intros [|[|r]] Hr; [vm_compute; repeat constructor.. | lia].
  - reflexivity.
  - intros [|[|r]] Hr _; [lia | | lia]. exists []. split; reflexivity.
  - exists w', global. split; [exact Hrun |]. split; [exact HtoPeer |].
    pose proof (Htaken 1 ltac:(lia)
                  ltac:(rewrite scenario_slice_1; cbn; lia)) as H1.
    change (toCoordinator scenarioPosted !!! 1) with [scenarioItems 1] in H1.
    by injection H1 as <-.
Defined.

(** X3 (the gather conserves the total).  When every rank contributes a
    vector of the length of its slice, the entries of the vector that the
    coordinator's [send] appends to the inter-participant link add up to
    the sum of all entries of all contributions. *)
Theorem send_conserves_the_total (N : nat) (_mesh : Mesh)
    (valueDimension size : nat) (contributions : nat → list R) (w : World) :
  1 < N →
  (∀ r, r < N →
        Forall (λ g, g < getGlobalNumberOfVertices _mesh)
               (getVertexDistribution _mesh !!! r)) →
  (∀ r, r < N →
        length (contributions r)
        = length (getVertexDistribution _mesh !!! r) * valueDimension) →
  (∀ r, 1 ≤ r < N →
        0 < length (getVertexDistribution _mesh !!! r) * valueDimension →
        ∃ q, toCoordinator w !!! r = contributions r :: q) →
  ∃ w' global,
    send (process N 0) _mesh (contributions 0) size valueDimension w
    = Returns w'
    ∧ toPeer w' = toPeer w ++ [global]
    ∧ Rsum global = Rsum ((λ r, Rsum (contributions r)) <$> seq 0 N).
Proof.
  intros HN Hrange Hlens Hmsgs.
  destruct (send_coordinator_queues N _mesh valueDimension HN Hrange
              contributions size w)
    as (w' & Hrun & HtoPeer & _).
  - apply Hlens. lia.
  - intros r Hr Hpos. destruct (Hmsgs r Hr Hpos) as (q & Hq).
    exists q. split; [done |]. apply Hlens. lia.
  - eexists w', _. split; [exact Hrun |]. split; [exact HtoPeer |].
    unfold gather_spec.
    rewrite (Rsum_gather_over (getGlobalNumberOfVertices _mesh)).
    + rewrite Rsum_replicate_0. lra.
    + apply Forall_forall. intros r Hr. apply elem_of_seq in Hr.
      split; [apply Hrange | apply Hlens]; lia.
    + apply length_replicate.
Qed.

Lemma send_conserves_the_total_witness :
  ∃ w' global,
    send (process 2 0) scenarioMesh (scenarioItems 0) 2 1 scenarioPosted
    = Returns w'
    ∧ toPeer w' = [global]
    ∧ Rsum global = 100%R.
Proof.
  destruct (send_conserves_the_total 2 scenarioMesh 1 2
              scenarioItems scenarioPosted)
    as (w' & global & Hrun & HtoPeer & Hsum).
  - lia.
  - intros [|[|r]] Hr; [vm_compute; repeat constructor.. | lia].
  - intros [|[|r]] Hr; [reflexivity.. | lia].
  - intros [|[|r]] Hr _; [lia | | lia]. exists []. reflexivity.
  - exists w', global. split; [exact Hrun |]. split; [exact HtoPeer |].
    rewrite Hsum. cbn. lra.
Defined.

(** X4 (a round trip multiplies shared values).  Let the global index [g]
    carry the same value [x] in component [d] at every position of every
    rank that refers to it.  After [send] on all ranks, the identity
    coupling and [receive] on all ranks, each of these positions holds [x]
    times the number of positions that refer to [g]. *)
Theorem round_trip_multiplies_shared_values (N : nat) (_mesh : Mesh)
    (valueDimension : nat) (localItems buffers : nat → list R)
    (g d : nat) (x : R) :
  1 < N →
  (∀ r, r < N →
        Forall (λ g, g < getGlobalNumberOfVertices _mesh)
               (getVertexDistribution _mesh !!! r)) →
  (∀ r, r < N →
        length (localItems r)
        = length (getVertexDistribution _mesh !!! r) * valueDimension) →
  (∀ r, r < N →
        length (buffers r)
        = length (getVertexDistribution _mesh !!! r) * valueDimension) →
  d < valueDimension →
  (∀ r i, r < N → (getVertexDistribution _mesh !!! r) !! i = Some g →
          coeff (localItems r) (i * valueDimension + d) = x) →
  ∃ received w',
    roundTrip N _mesh valueDimension localItems buffers
    = Returns (received, w')
    ∧ ∀ r i,
        r < N → (getVertexDistribution _mesh !!! r) !! i = Some g →
        ∃ items,
          received !! r = Some items
          ∧ coeff items (i * valueDimension + d)
            = (INR (copies N (getVertexDistribution _mesh) g) * x)%R.
Proof.
  intros HN Hrange Hitems Hbuffers Hd Hx.
  destruct (round_trip N _mesh valueDimension HN Hrange localItems buffers
              Hitems Hbuffers) as (w' & Hrun).
  eexists _, w'. split; [exact Hrun |].
  intros r i Hr Hi. eexists. split.
  { rewrite list_lookup_fmap, lookup_seq_lt by done. reflexivity. }
  assert (i < length (getVertexDistribution _mesh !!! r)) as Hilt
    by (by eapply lookup_lt_Some).
  assert (g < getGlobalNumberOfVertices _mesh) as Hg.
  { pose proof (Hrange r Hr) as HF. rewrite Forall_forall in HF.
    apply HF. by eapply list_elem_of_lookup_2. }
  assert (nth i (getVertexDistribution _mesh !!! r) 0 = g) as Hnth.
  { pose proof (lookup_nth _ _ Hilt) as Hn. congruence. }
  rewrite Nat.add_0_l.
  transitivity (coeff (gather_spec N (getVertexDistribution _mesh)
                         (getGlobalNumberOfVertices _mesh) valueDimension
                         localItems) (g * valueDimension + d)).
  - unfold scattered. destruct (decide (r = 0)) as [->|Hne].
    + rewrite copyFrom_coeff; [by rewrite Hnth | done | done |].
      apply Hbuffers. lia.
    + rewrite decide_True.
      * rewrite copyFrom_coeff; [by rewrite Hnth | done | done |].
        apply length_replicate.
      * rewrite Hbuffers by done.
        assert (0 < valueDimension) by lia. nia.
  - rewrite (coeff_gather_spec N _mesh valueDimension HN Hrange) by done.
    by apply slotSum_constant.
Qed.

(** The two-rank distribution that shares global index 1. *)
Lemma halo_slice_0 : getVertexDistribution haloMesh !!! 0 = [0; 1].
Proof.
  reflexivity.
Qed.

Lemma halo_slice_1 : getVertexDistribution haloMesh !!! 1 = [1; 2].
Proof.
  reflexivity.
Qed.

Lemma halo_copies : copies 2 (getVertexDistribution haloMesh) 1 = 2.
Proof.
  reflexivity.
Qed.

Lemma round_trip_multiplies_shared_values_witness :
  ∃ received w',
    roundTrip 2 haloMesh 1 haloItems scenarioBuffers = Returns (received, w')
    ∧ ∃ items, received !! 1 = Some items ∧ coeff items 0 = 40%R.
Proof.
  destruct (round_trip_multiplies_shared_values 2 haloMesh 1 haloItems
              scenarioBuffers 1 0 20%R)
    as (received & w' & Hrun & Hshared).
  - lia.
  - intros [|[|r]] Hr; [vm_compute; repeat constructor.. | lia].
  - intros [|[|r]] Hr; [reflexivity.. | lia].
  - intros [|[|r]] Hr; [reflexivity.. | lia].
  - lia.
  - intros [|[|r]] i Hr Hi; [| | lia].
    + rewrite halo_slice_0 in Hi.
      destruct i as [|[|i]]; [discriminate Hi | reflexivity | discriminate Hi].
    + rewrite halo_slice_1 in Hi.
      destruct i as [|[|i]]; [reflexivity | discriminate Hi..].
  - exists received, w'. split; [exact Hrun |].
    destruct (Hshared 1 0 ltac:(lia) ltac:(by rewrite halo_slice_1))
      as (items & Hitems & Hvalue).
    exists items. split; [exact Hitems |].
    change (0 * 1 + 0) with 0 in Hvalue.
    rewrite Hvalue, halo_copies. cbn. lra.
Defined.

End gather_scatter_further.

(** *** Linearity of sums *)

Lemma Rsum_plus {A : Type} (f g : A → R) (l : list A) :
  Rsum ((λ a, f a + g a)%R <$> l) = (Rsum (f <$> l) + Rsum (g <$> l))%R.
Proof.
  induction l as [|a l IH].
  - rewrite !fmap_nil, Rsum_nil. lra.
  - rewrite !fmap_cons, !Rsum_cons, IH. lra.
Qed.

Lemma Rsum_scal {A : Type} (c : R) (f : A → R) (l : list A) :
  Rsum ((λ a, c * f a)%R <$> l) = (c * Rsum (f <$> l))%R.
Proof.
  induction l as [|a l IH].
  - rewrite !fmap_nil, Rsum_nil. lra.
  - rewrite !fmap_cons, !Rsum_cons, IH. lra.
Qed.

(** *** The two loop nests are transposes of each other *)

Lemma dot_zero (x : list R) (n : nat) : dot x (replicate n 0%R) = 0%R.
Proof.
  unfold dot. apply Rsum_zero. intros k _.
  rewrite coeff_replicate_0. lra.
Qed.

Lemma dot_addAt (x v : list R) (k : nat) (c : R) :
  k < length v → length x = length v →
  dot x (addAt k c v) = (dot x v + coeff x k * c)%R.
Proof.
  intros Hk Hlen. unfold dot.
  rewrite (Rsum_ext _ (λ j, coeff x j * coeff v j
                            + (if decide (j = k) then coeff x k * c else 0))%R).
  - rewrite Rsum_plus. f_equal.
    rewrite (Rsum_single _ _ k).
    + by rewrite decide_True.
    + apply NoDup_seq.
    + apply elem_of_seq. lia.
    + intros j _ Hne. by rewrite decide_False.
  - intros j _. rewrite coeff_addAt by done.
    destruct (decide (j = k)) as [->|Hne]; lra.
Qed.

Lemma dot_inner_add (x : list R) (base : nat) (f : nat → R) :
  ∀ cnt lo v,
    base + lo + cnt ≤ length v → length x = length v →
    dot x (foldl (λ v j, addAt (base + j) (f j) v) v (seq lo cnt))
    = (dot x v + Rsum ((λ j, coeff x (base + j) * f j)%R <$> seq lo cnt))%R.
Proof.
  induction cnt as [|cnt IH]; intros lo v Hbound Hlen.
  - cbn [seq foldl]. rewrite fmap_nil, Rsum_nil. lra.
  - cbn [seq foldl]. rewrite IH.
    + rewrite dot_addAt by first [lia | done].
      rewrite fmap_cons, Rsum_cons. lra.
    + rewrite length_addAt. lia.
    + by rewrite length_addAt.
Qed.

Lemma dot_scatterAddOver (G D : nat) (idx : list nat) (x src : list R) :
  Forall (λ g, g < G) idx → length x = G * D →
  ∀ positions dst,
    Forall (λ i, i < length idx) positions →
    length dst = G * D →
    dot x (scatterAddOver positions idx D src dst)
    = (dot x dst
       + Rsum ((λ i, Rsum ((λ j, coeff x (nth i idx 0%nat * D + j)
                                 * coeff src (i * D + j))%R <$> seq 0 D))
               <$> positions))%R.
Proof.
  intros Hidx Hx. induction positions as [|i positions IH];
    intros dst Hpos Hdst.
  - unfold scatterAddOver. cbn [foldl]. rewrite fmap_nil, Rsum_nil. lra.
  - apply Forall_cons in Hpos as [Hi Hpos].
    unfold scatterAddOver in *. cbn [foldl]. rewrite IH; [| done |].
    + rewrite dot_inner_add.
      * rewrite fmap_cons, Rsum_cons. lra.
      * pose proof (nth_Forall_lt G idx i Hidx Hi). nia.
      * congruence.
    + rewrite foldl_length; [done |]. intros. apply length_addAt.
Qed.

(** X5 (the accumulating loop nest is the transpose of the assigning one).
    For an index table [idx] with entries below [G]: picking the entries
    [x[idx[i]*D + j]] into a vector and taking the scalar product with [y]
    gives the same number as taking the scalar product of [x] with the
    vector into which the entries of [y] were accumulated at
    [idx[i]*D + j], starting from zeros.  Both loop nests return. *)
Theorem accumulating_is_transpose_of_assigning (G D : nat) (idx : list nat)
    (x y out : list R) :
  Forall (λ g, g < G) idx →
  length x = G * D →
  length y = length idx * D →
  length out = length idx * D →
  ∃ picked summed,
    assignLoop (length idx) idx D x out = Returns picked
    ∧ accumulateLoop (length idx) idx D y (replicate (G * D) 0%R)
      = Returns summed
    ∧ dot picked y = dot x summed.
Proof.
  intros Hidx Hx Hy Hout.
  rewrite (assignLoop_pure G) by done.
  rewrite (accumulateLoop_pure G) by first [done | apply length_replicate].
  eexists _, _. split; [reflexivity |]. split; [reflexivity |].
  unfold scatterAdd.
  rewrite (dot_scatterAddOver G);
    [| done | done
     | apply Forall_forall; intros i Hi; apply elem_of_seq in Hi; lia
     | apply length_replicate].
  rewrite dot_zero, Rplus_0_l.
  unfold dot. rewrite length_copyFrom, Hout.
  rewrite <- (Rsum_blocks (λ k, coeff (copyFrom idx D x out) k * coeff y k)%R).
  apply Rsum_ext. intros i Hi. apply elem_of_seq in Hi.
  apply Rsum_ext. intros j Hj. apply elem_of_seq in Hj.
  rewrite copyFrom_coeff by first [lia | done]. done.
Qed.

Lemma accumulating_is_transpose_of_assigning_witness :
  ∃ picked summed,
    assignLoop 2 [1; 1] 1 [3; 4]%R [0; 0]%R = Returns picked
    ∧ accumulateLoop 2 [1; 1] 1 [5; 6]%R [0; 0]%R = Returns summed
    ∧ dot picked [5; 6]%R = dot [3; 4]%R summed.
Proof.
  apply (accumulating_is_transpose_of_assigning 2 1 [1; 1] [3; 4]%R
           [5; 6]%R [0; 0]%R).
  - repeat constructor.
  - reflexivity.
  - reflexivity.
  - reflexivity.
Defined.

(** *** Pre-conditions and the connection members *)

Section gather_scatter_errors.
Import mesh com GatherScatterCommunication.

(** X6 (pre-conditions of [send] and [receive]).  In a process that is
    neither coordinator nor worker, or whose intra-participant link is not
    connected, or whose group has fewer than two ranks, [send] and
    [receive] fail their assertions: nothing is sent and nothing is
    received. *)
Theorem send_and_receive_need_a_parallel_run (ms : MasterSlave)
    (_mesh : Mesh) (items : list R) (size valueDimension : nat) (w : World) :
  isSlave ms || isMaster ms = false
  ∨ isConnected ms = false
  ∨ getSize ms ≤ 1 →
  send ms _mesh items size valueDimension w = Aborts AssertionFailed
  ∧ receive ms _mesh items size valueDimension w = Aborts AssertionFailed.
Proof.
  intros Hviolated.
  assert (preconditions ms = Aborts AssertionFailed) as Hpre.
  { unfold preconditions.
    destruct (isSlave ms || isMaster ms) eqn:Hrole; cbn;
      [| done].
    destruct (isConnected ms) eqn:Hlink; cbn; [| done].
    destruct Hviolated as [Hv|[Hv|Hv]]; [done | done |].
    by rewrite bool_decide_false by lia. }
  unfold send, receive. by rewrite Hpre.
Qed.

Lemma send_and_receive_need_a_parallel_run_witness :
  send (process 1 0) scenarioMesh (scenarioItems 0) 2 1 idle
  = Aborts AssertionFailed
  ∧ receive (process 1 0) scenarioMesh (scenarioBuffers 0) 2 1 idle
    = Aborts AssertionFailed.
Proof.
  split.
  - apply (send_and_receive_need_a_parallel_run (process 1 0)).
    right. right. cbn. lia.
  - apply (send_and_receive_need_a_parallel_run (process 1 0) scenarioMesh
             (scenarioBuffers 0) 2 1 idle).
    right. right. cbn. lia.
Defined.

End gather_scatter_errors.

Section connection.
Import GatherScatterCommunication GatherScatterConnection.

(** X7 (connection life cycle).  A new object is not connected and its
    destructor returns without closing anything.  [requestConnection]
    behaves as [acceptConnection].  On a worker both return whatever the
    state of the inter-participant link; on any other rank they return only
    while that link is connected.  After they return, [isConnected()]
    holds.  From then on [closeConnection] and the destructor return, with
    [isConnected()] false, on a worker or once the link is no longer
    connected; on another rank whose link is still connected both fail
    their assertion. *)
Theorem connection_life_cycle (ms : MasterSlave) (comIsConnected : bool)
    (c : GatherScatterConnection.GatherScatterCommunication) :
  GatherScatterConnection.isConnected construct = false
  ∧ destructor ms comIsConnected construct = Returns ()
  ∧ requestConnection ms comIsConnected c = acceptConnection ms comIsConnected c
  ∧ match acceptConnection ms comIsConnected c with
    | Returns c' =>
        (isSlave ms = true ∨ comIsConnected = true)
        ∧ GatherScatterConnection.isConnected c' = true
        ∧ ∀ comIsConnected',
            match closeConnection ms comIsConnected' c',
                  destructor ms comIsConnected' c' with
            | Returns c'', Returns _ =>
                (isSlave ms = true ∨ comIsConnected' = false)
                ∧ GatherScatterConnection.isConnected c'' = false
            | Aborts f, Aborts f' =>
                isSlave ms = false ∧ comIsConnected' = true
                ∧ f = AssertionFailed ∧ f' = AssertionFailed
            | _, _ => False
            end
    | Aborts f =>
        isSlave ms = false ∧ comIsConnected = false ∧ f = AssertionFailed
    end.
Proof.
  split; [reflexivity |]. split; [reflexivity |]. split; [reflexivity |].
  unfold destructor, acceptConnection, closeConnection.
  destruct (isSlave ms), comIsConnected; cbn;
    try (split; [auto |]; split; [done |]; intros []; cbn; auto);
    auto.
Qed.

End connection.

(** ** Further properties of the nearest-neighbour mapping *)

Lemma assignLoop_length (count : nat) (idx : list nat) (D : nat)
    (src dst dst' : list R) :
  assignLoop count idx D src dst = Returns dst' → length dst' = length dst.
Proof.
  unfold assignLoop. intros Hrun.
  eapply (for_loop_preserves (λ v, length v = length dst));
    [| exact Hrun | done].
  intros i s s' Hbody Hs. apply bind_inv in Hbody as (g & _ & Hbody).
  eapply (for_loop_preserves (λ v, length v = length dst));
    [| exact Hbody | exact Hs].
  intros j t t' Hstep Ht. apply bind_inv in Hstep as (x & _ & Hstep).
  by rewrite (writeAt_length _ _ _ _ Hstep).
Qed.

Lemma accumulateLoop_length (count : nat) (idx : list nat) (D : nat)
    (src dst dst' : list R) :
  accumulateLoop count idx D src dst = Returns dst' →
  length dst' = length dst.
Proof.
  unfold accumulateLoop. intros Hrun.
  eapply (for_loop_preserves (λ v, length v = length dst));
    [| exact Hrun | done].
  intros i s s' Hbody Hs. apply bind_inv in Hbody as (g & _ & Hbody).
  eapply (for_loop_preserves (λ v, length v = length dst));
    [| exact Hbody | exact Hs].
  intros j t t' Hstep Ht. apply bind_inv in Hstep as (x & _ & Hstep).
  apply bind_inv in Hstep as (old & _ & Hstep).
  by rewrite (writeAt_length _ _ _ _ Hstep).
Qed.

(** Every entry of a vector of [n * D] entries is entry [i * D + d] for
    some [i < n] and [d < D]. *)
Lemma block_index (n D k : nat) :
  k < n * D → k = k / D * D + k mod D ∧ k / D < n ∧ k mod D < D.
Proof.
  intros Hk. assert (D ≠ 0) as HD by (intros ->; lia).
  split; [| split].
  - rewrite Nat.mul_comm. by apply Nat.div_mod.
  - apply Nat.Div0.div_lt_upper_bound. lia.
  - by apply Nat.mod_upper_bound.
Qed.

Lemma copyFrom_overwrites (idx : list nat) (D : nat) (src dst dst' : list R) :
  length dst = length idx * D → length dst' = length idx * D →
  copyFrom idx D src dst = copyFrom idx D src dst'.
Proof.
  intros Hdst Hdst'. apply coeff_ext.
  - by rewrite !length_copyFrom, Hdst, Hdst'.
  - intros k Hk. rewrite length_copyFrom, Hdst in Hk.
    destruct (block_index _ _ _ Hk) as (Hk' & Hi & Hd).
    rewrite Hk'. by rewrite !copyFrom_coeff.
Qed.

Section nearest_neighbor_further.
Import mesh NearestNeighborMapping.

(** The record that a consistent [map] returns. *)
Lemma map_consistent_eq (nn : NearestNeighborMapping)
    (inputDataID outputDataID : nat) (inputData outputData : Data) :
  getConstraint nn = CONSISTENT →
  data (input nn) !! inputDataID = Some inputData →
  data (output nn) !! outputDataID = Some outputData →
  getDimensions inputData = getDimensions outputData →
  0 < getDimensions inputData →
  length (values inputData)
    = length (vertices (input nn)) * getDimensions inputData →
  length (values outputData)
    = length (vertices (output nn)) * getDimensions inputData →
  length (_vertexIndices nn) = length (vertices (output nn)) →
  Forall (λ g, g < length (vertices (input nn))) (_vertexIndices nn) →
  map nn inputDataID outputDataID
  = Returns {| getConstraint := getConstraint nn;
               input := input nn;
               output :=
                 setData (output nn) outputDataID
                   {| values := copyFrom (_vertexIndices nn)
                                  (getDimensions inputData) (values inputData)
                                  (values outputData);
                      getDimensions := getDimensions outputData |};
               _vertexIndices := _vertexIndices nn;
               _hasComputedMapping := _hasComputedMapping nn |}.
Proof.
  intros Hc Hin Hout Hdim HD Hlin Hlout Hlen Hrange.
  unfold map, getData. rewrite Hin, Hout, !bind_Returns.
  rewrite (bool_decide_true (getDimensions inputData = _)) by done.
  cbn [PRECICE_ASSERT]. rewrite bind_Returns.
  rewrite Hlin, Hlout, !assertSize_ok, !bind_Returns by done.
  rewrite decide_True by done.
  rewrite <- Hlen.
  rewrite (assignLoop_pure (length (vertices (input nn))))
    by (done || by rewrite Hlen).
  by rewrite bind_Returns.
Qed.

(** The record that a conservative [map] returns. *)
Lemma map_conservative_eq (nn : NearestNeighborMapping)
    (inputDataID outputDataID : nat) (inputData outputData : Data) :
  getConstraint nn = CONSERVATIVE →
  data (input nn) !! inputDataID = Some inputData →
  data (output nn) !! outputDataID = Some outputData →
  getDimensions inputData = getDimensions outputData →
  0 < getDimensions inputData →
  length (values inputData)
    = length (vertices (input nn)) * getDimensions inputData →
  length (values outputData)
    = length (vertices (output nn)) * getDimensions inputData →
  length (_vertexIndices nn) = length (vertices (input nn)) →
  Forall (λ g, g < length (vertices (output nn))) (_vertexIndices nn) →
  map nn inputDataID outputDataID
  = Returns {| getConstraint := getConstraint nn;
               input := input nn;
               output :=
                 setData (output nn) outputDataID
                   {| values := scatterAdd (_vertexIndices nn)
                                  (getDimensions inputData) (values inputData)
                                  (values outputData);
                      getDimensions := getDimensions outputData |};
               _vertexIndices := _vertexIndices nn;
               _hasComputedMapping := _hasComputedMapping nn |}.
Proof.
  intros Hc Hin Hout Hdim HD Hlin Hlout Hlen Hrange.
  unfold map, getData. rewrite Hin, Hout, !bind_Returns.
  rewrite (bool_decide_true (getDimensions inputData = _)) by done.
  cbn [PRECICE_ASSERT]. rewrite bind_Returns.
  rewrite Hlin, Hlout, !assertSize_ok, !bind_Returns by done.
  rewrite decide_False by (rewrite Hc; done).
  rewrite (bool_decide_true (getConstraint nn = _)) by done.
  cbn [PRECICE_ASSERT]. rewrite bind_Returns.
  rewrite <- Hlen.
  rewrite (accumulateLoop_pure (length (vertices (output nn))))
    by (done || by rewrite Hlen).
  by rewrite bind_Returns.
Qed.

End nearest_neighbor_further.

(** A loop has no defined result when its body has none at a position [k]
    in every state that the loop can be in. *)
Lemma for_loop_aborts_in {St : Type} (P : St → Prop)
    (body : nat → St → Outcome St) (k : nat) :
  (∀ i s s', body i s = Returns s' → P s → P s') →
  (∀ s, P s → ∃ f, body k s = Aborts f) →
  ∀ count first s,
    first ≤ k < first + count → P s →
    ∃ f, for_loop first count body s = Aborts f.
Proof.
  intros Hkeep Hk. induction count as [|c IH]; intros first s Hrange Hs;
    [lia |].
  cbn [for_loop]. destruct (body first s) as [s'|f] eqn:Hbody.
  - rewrite bind_Returns. destruct (decide (first = k)) as [->|Hne].
    + destruct (Hk s Hs) as [f Hf]. congruence.
    + apply IH; [lia |]. by eapply Hkeep.
  - by exists f.
Qed.

Lemma readAt_ge {A : Type} (v : list A) (k : nat) :
  length v ≤ k → readAt v k = Aborts OutOfRange.
Proof.
  intros Hk. unfold readAt. by rewrite lookup_ge_None_2.
Qed.

Lemma readAt_inv {A : Type} (v : list A) (k : nat) (x : A) :
  readAt v k = Returns x → v !! k = Some x.
Proof.
  unfold readAt. destruct (v !! k); [by intros [= ->] | done].
Qed.

Lemma PRECICE_ASSERT_inv (b : bool) :
  PRECICE_ASSERT b = Returns () → b = true.
Proof. by destruct b. Qed.

(** The assigning loop nest has no defined result on a table that is
    shorter than the number of rows. *)
Lemma assignLoop_short_table (count : nat) (idx : list nat) (D : nat)
    (src dst : list R) :
  length idx < count → ∃ f, assignLoop count idx D src dst = Aborts f.
Proof.
  intros Hshort. unfold assignLoop.
  apply (for_loop_aborts_in (λ _, True) _ (length idx)); [done | | lia | done].
  intros s _. rewrite readAt_ge by done. by eexists.
Qed.

Lemma accumulateLoop_short_table (count : nat) (idx : list nat) (D : nat)
    (src dst : list R) :
  length idx < count → ∃ f, accumulateLoop count idx D src dst = Aborts f.
Proof.
  intros Hshort. unfold accumulateLoop.
  apply (for_loop_aborts_in (λ _, True) _ (length idx)); [done | | lia | done].
  intros s _. rewrite readAt_ge by done. by eexists.
Qed.

(** The assigning loop nest has no defined result on a source with fewer
    than [D] entries. *)
Lemma assignLoop_short_source (count : nat) (idx : list nat) (D : nat)
    (src dst : list R) :
  0 < count → length src < D →
  ∃ f, assignLoop count idx D src dst = Aborts f.
Proof.
  intros Hcount Hshort. unfold assignLoop.
  apply (for_loop_aborts_in (λ _, True) _ 0); [done | | lia | done].
  intros s _. destruct (readAt idx 0) as [g|f]; [| by eexists].
  rewrite bind_Returns.
  apply (for_loop_aborts_in (λ _, True) _ (D - 1)); [done | | lia | done].
  intros t _. rewrite readAt_ge by nia. by eexists.
Qed.

(** The accumulating loop nest has no defined result on a target with
    fewer than [D] entries. *)
Lemma accumulateLoop_short_target (count : nat) (idx : list nat) (D : nat)
    (src dst : list R) :
  0 < count → length dst < D →
  ∃ f, accumulateLoop count idx D src dst = Aborts f.
Proof.
  intros Hcount Hshort. unfold accumulateLoop.
  apply (for_loop_aborts_in (λ v, length v = length dst) _ 0);
    [| | lia | done].
  - intros i s s' Hbody Hs. apply bind_inv in Hbody as (g & _ & Hbody).
    eapply (for_loop_preserves (λ v, length v = length dst));
      [| exact Hbody | exact Hs].
    intros j t t' Hstep Ht. apply bind_inv in Hstep as (x & _ & Hstep).
    apply bind_inv in Hstep as (old & _ & Hstep).
    by rewrite (writeAt_length _ _ _ _ Hstep).
  - intros s Hs. destruct (readAt idx 0) as [g|f]; [| by eexists].
    rewrite bind_Returns.
    apply (for_loop_aborts_in (λ v, length v = length dst) _ (D - 1));
      [| | lia | done].
    + intros j t t' Hstep Ht. apply bind_inv in Hstep as (x & _ & Hstep).
      apply bind_inv in Hstep as (old & _ & Hstep).
      by rewrite (writeAt_length _ _ _ _ Hstep).
    + intros t Ht. destruct (readAt src _) as [x|f]; [| by eexists].
      rewrite bind_Returns. rewrite readAt_ge by nia. by eexists.
Qed.

Lemma div_0_lt (len D : nat) : 0 < D → len / D = 0 → len < D.
Proof.
  intros HD Hdiv. apply Nat.div_small_iff in Hdiv; lia.
Qed.

(** *** Tables that [computeMapping] builds *)

Section nearest_neighbor_computing.
Import mesh NearestNeighborMapping.

Lemma assertSize_inv (len D n : nat) :
  assertSize len D n = Returns () → 0 < D ∧ len / D = n.
Proof.
  unfold assertSize. destruct (decide (D = 0)); [done |].
  unfold PRECICE_ASSERT.
  destruct (bool_decide (len / D = n)) eqn:Hb; [| done].
  apply bool_decide_eq_true in Hb. intros _. split; [lia | done].
Qed.

(** The table that [indexOnVertices] builds when every query has one hit. *)
Lemma indexOnVertices_nearest (rtree : SpatialIndex)
    (reference opposite : list Vertex) (old : list nat) (nearest : nat → nat) :
  (∀ i v, reference !! i = Some v →
          rtree opposite (rawCoords v) 1 = [nearest i]
          ∧ nearest i < length opposite) →
  indexOnVertices rtree reference opposite old
  = Returns ((λ i, nth (nearest i) (getID <$> opposite) 0)
             <$> seq 0 (length reference)).
Proof.
  intros Hhit. unfold indexOnVertices.
  pose (P := λ (k : nat) (s : list nat),
    length s = length reference
    ∧ ∀ j, j < k → s !! j = Some (nth (nearest j) (getID <$> opposite) 0)).
  match goal with
  | |- for_loop 0 ?n ?body ?s = _ =>
      destruct (for_loop_invariant P body n 0 s) as (s' & Hrun & Hlen & Hs')
  end.
  - split; [apply length_resize | intros j Hj; lia].
  - intros i s Hi [Hlen Hs].
    destruct (lookup_lt_is_Some_2 reference i ltac:(lia)) as [v Hv].
    destruct (Hhit i v Hv) as [Hquery Hbound].
    destruct (lookup_lt_is_Some_2 opposite (nearest i) Hbound) as [u Hu].
    rewrite (readAt_Some _ _ _ Hv), bind_Returns, Hquery.
    cbn [for_each]. rewrite (readAt_Some _ _ _ Hu), bind_Returns.
    rewrite writeAt_lt, bind_Returns by lia.
    eexists. split; [reflexivity |]. split.
    + by rewrite length_insert.
    + intros j Hj. destruct (decide (j = i)) as [->|Hne].
      * rewrite list_lookup_insert_eq by lia. f_equal. symmetry.
        apply nth_lookup_Some. by rewrite list_lookup_fmap, Hu.
      * rewrite list_lookup_insert_ne by done. apply Hs. lia.
  - rewrite Hrun. f_equal. apply list_eq. intros j.
    destruct (decide (j < length reference)) as [Hj|Hj].
    + rewrite Hs' by lia.
      by rewrite list_lookup_fmap, lookup_seq_lt.
    + rewrite !lookup_ge_None_2; [done | |].
      * rewrite length_fmap, length_seq. lia.
      * lia.
Qed.

(** The table that [indexOnVertices] builds when no query has a hit. *)
Lemma indexOnVertices_no_hit (rtree : SpatialIndex)
    (reference opposite : list Vertex) (old : list nat) :
  (∀ p, rtree opposite p 1 = []) →
  indexOnVertices rtree reference opposite old
  = Returns (resize (length reference) old).
Proof.
  intros Hnone. unfold indexOnVertices.
  match goal with
  | |- for_loop 0 ?n ?body ?s = _ =>
      destruct (for_loop_foldl (λ _, True) (λ _ t, t) body n 0 s)
        as [Hrun _]
  end.
  - done.
  - intros i s Hi _.
    destruct (lookup_lt_is_Some_2 reference i ltac:(lia)) as [v Hv].
    rewrite (readAt_Some _ _ _ Hv), bind_Returns, Hnone. done.
  - rewrite Hrun. f_equal. clear Hrun.
    generalize (resize (length reference) old) as s.
    generalize 0 as first.
    induction (length reference) as [|n IH]; intros first s; [done |].
    cbn [seq foldl]. apply IH.
Qed.

Lemma computeMapping_eq (rtree : SpatialIndex) (nn : NearestNeighborMapping)
    (indices : list nat) :
  getConstraint nn ≠ SCALED_CONSISTENT →
  indexOnVertices rtree (referenceVertices nn) (oppositeVertices nn)
                  (_vertexIndices nn) = Returns indices →
  computeMapping rtree nn
  = Returns {| getConstraint := getConstraint nn;
               input := input nn;
               output := output nn;
               _vertexIndices := indices;
               _hasComputedMapping := true |}.
Proof.
  intros Hc. unfold computeMapping, referenceVertices, oppositeVertices.
  destruct (decide (getConstraint nn = CONSISTENT)) as [Hcons|Hcons].
  - by intros ->.
  - rewrite bool_decide_true by (by destruct (getConstraint nn)).
    cbn [PRECICE_ASSERT]. rewrite bind_Returns. by intros ->.
Qed.

End nearest_neighbor_computing.

(** *** Computing, clearing and tagging *)

Section nearest_neighbor_life_cycle.
Import mesh NearestNeighborMapping.

Lemma getData_inv (m : Mesh) (id : nat) (d : Data) :
  getData m id = Returns d → data m !! id = Some d.
Proof.
  unfold getData. destruct (data m !! id); [by intros [= ->] | done].
Qed.

(** X8 (what [computeMapping] records).  When the index answers every query
    for a vertex of the walked mesh with one position [nearest i] of the
    searched mesh, [computeMapping] returns; entry [i] of the table is the
    ID of the vertex at position [nearest i]; the flag is set; neither the
    table nor the flag that the object held before matter; and a second
    [computeMapping] changes nothing. *)
Theorem computeMapping_records_nearest_ids (rtree : SpatialIndex)
    (nn : NearestNeighborMapping) (nearest : nat → nat) :
  getConstraint nn ≠ SCALED_CONSISTENT →
  (∀ i v, referenceVertices nn !! i = Some v →
          rtree (oppositeVertices nn) (rawCoords v) 1 = [nearest i]
          ∧ nearest i < length (oppositeVertices nn)) →
  ∃ nn',
    computeMapping rtree nn = Returns nn'
    ∧ nn' = {| getConstraint := getConstraint nn;
               input := input nn;
               output := output nn;
               _vertexIndices :=
                 (λ i, nth (nearest i) (getID <$> oppositeVertices nn) 0)
                 <$> seq 0 (length (referenceVertices nn));
               _hasComputedMapping := true |}
    ∧ computeMapping rtree nn' = Returns nn'.
Proof.
  intros Hc Hhit. eexists. split; [| split; [reflexivity |]].
  - apply computeMapping_eq; [done |]. by apply indexOnVertices_nearest.
  - rewrite (computeMapping_eq rtree _
               ((λ i, nth (nearest i) (getID <$> oppositeVertices nn) 0)
                <$> seq 0 (length (referenceVertices nn)))).
    + reflexivity.
    + done.
    + by apply (indexOnVertices_nearest rtree (referenceVertices nn)
                  (oppositeVertices nn)).
Qed.

Lemma computeMapping_records_nearest_ids_witness :
  computeMapping firstVertex scenario = Returns scenarioComputed.
Proof.
  destruct (computeMapping_records_nearest_ids firstVertex scenario (λ _, 0))
    as (nn' & Hrun & -> & _).
  - done.
  - intros i v Hv. split; [reflexivity | vm_compute; lia].
  - exact Hrun.
Defined.

(** X9 (searching an empty mesh).  When the searched mesh has no vertex and
    the index therefore has no hit, [computeMapping] still returns and sets
    the flag; the table is the old one cut or padded with zeros to the
    number of walked vertices; and every later [map] has no defined
    result. *)
Theorem computeMapping_on_an_empty_mesh (rtree : SpatialIndex)
    (nn : NearestNeighborMapping) :
  getConstraint nn ≠ SCALED_CONSISTENT →
  oppositeVertices nn = [] →
  (∀ p, rtree [] p 1 = []) →
  0 < length (referenceVertices nn) →
  ∃ nn',
    computeMapping rtree nn = Returns nn'
    ∧ hasComputedMapping nn' = true
    ∧ _vertexIndices nn'
      = resize (length (referenceVertices nn)) (_vertexIndices nn)
    ∧ ∀ inputDataID outputDataID,
        ∃ f, map nn' inputDataID outputDataID = Aborts f.
Proof.
  intros Hc Hempty Hnone Hwalked. eexists. split; [| split; [| split]].
  - apply computeMapping_eq; [done |].
    apply indexOnVertices_no_hit. by rewrite Hempty.
  - reflexivity.
  - reflexivity.
  - intros inputDataID outputDataID. unfold map.
    cbn [getConstraint input output _vertexIndices _hasComputedMapping].
    destruct (getData (input nn) inputDataID) as [inputData|f];
      [rewrite bind_Returns | eexists; reflexivity].
    destruct (getData (output nn) outputDataID) as [outputData|f];
      [rewrite bind_Returns | eexists; reflexivity].
    destruct (PRECICE_ASSERT (bool_decide (getDimensions inputData = _)))
      as [[]|f]; [rewrite bind_Returns | eexists; reflexivity].
    destruct (assertSize (length (values inputData)) _ _) as [[]|f] eqn:Hsin;
      [rewrite bind_Returns | eexists; reflexivity].
    destruct (assertSize (length (values outputData)) _ _) as [[]|f] eqn:Hsout;
      [rewrite bind_Returns | eexists; reflexivity].
    apply assertSize_inv in Hsin as [HD Hsin].
    apply assertSize_inv in Hsout as [_ Hsout].
    unfold referenceVertices, oppositeVertices in *.
    destruct (decide (getConstraint nn = CONSISTENT)) as [Hcons|Hcons].
    + rewrite Hempty in Hsin.
      destruct (assignLoop_short_source (length (vertices (output nn)))
                  (resize (length (vertices (output nn))) (_vertexIndices nn))
                  (getDimensions inputData) (values inputData)
                  (values outputData)) as [f Hf].
      * done.
      * by apply div_0_lt.
      * rewrite Hf. eexists; reflexivity.
    + destruct (PRECICE_ASSERT _) as [[]|f];
        [rewrite bind_Returns | eexists; reflexivity].
      rewrite Hempty in Hsout.
      destruct (accumulateLoop_short_target (length (vertices (input nn)))
                  (resize (length (vertices (input nn))) (_vertexIndices nn))
                  (getDimensions inputData) (values inputData)
                  (values outputData)) as [f Hf].
      * done.
      * by apply div_0_lt.
      * rewrite Hf. eexists; reflexivity.
Qed.

Lemma computeMapping_on_an_empty_mesh_witness :
  ∃ nn',
    computeMapping firstVertex scenarioEmptySource = Returns nn'
    ∧ hasComputedMapping nn' = true
    ∧ _vertexIndices nn' = [0; 0]
    ∧ ∃ f, map nn' 0 0 = Aborts f.
Proof.
  destruct (computeMapping_on_an_empty_mesh firstVertex scenarioEmptySource)
    as (nn' & Hrun & Hflag & Htable & Hmap).
  - done.
  - reflexivity.
  - reflexivity.
  - vm_compute. lia.
  - exists nn'. split; [exact Hrun |]. split; [exact Hflag |].
    split; [exact Htable | apply Hmap].
Defined.

(** X10 ([map] after [clear]).  [clear] empties the table and resets the
    flag, and [map] does not ask for the flag: on a cleared mapping whose
    walked mesh has a vertex, [map] has no defined result, whatever the
    data channels hold. *)
Theorem map_after_clear_has_no_result (nn : NearestNeighborMapping)
    (inputDataID outputDataID : nat) :
  0 < length (referenceVertices nn) →
  hasComputedMapping (clear nn) = false
  ∧ ∃ f, map (clear nn) inputDataID outputDataID = Aborts f.
Proof.
  intros Hwalked. split; [reflexivity |]. unfold map, clear.
  cbn [getConstraint input output _vertexIndices _hasComputedMapping].
  destruct (getData (input nn) inputDataID) as [inputData|f];
    [rewrite bind_Returns | eexists; reflexivity].
  destruct (getData (output nn) outputDataID) as [outputData|f];
    [rewrite bind_Returns | eexists; reflexivity].
  destruct (PRECICE_ASSERT (bool_decide (getDimensions inputData = _)))
    as [[]|f]; [rewrite bind_Returns | eexists; reflexivity].
  destruct (assertSize (length (values inputData)) _ _) as [[]|f];
    [rewrite bind_Returns | eexists; reflexivity].
  destruct (assertSize (length (values outputData)) _ _) as [[]|f];
    [rewrite bind_Returns | eexists; reflexivity].
  unfold referenceVertices in Hwalked.
  destruct (decide (getConstraint nn = CONSISTENT)) as [Hcons|Hcons].
  - destruct (assignLoop_short_table (length (vertices (output nn))) []
                (getDimensions inputData) (values inputData)
                (values outputData)) as [f Hf]; [done |].
    rewrite Hf. eexists; reflexivity.
  - destruct (PRECICE_ASSERT _) as [[]|f];
      [rewrite bind_Returns | eexists; reflexivity].
    destruct (accumulateLoop_short_table (length (vertices (input nn))) []
                (getDimensions inputData) (values inputData)
                (values outputData)) as [f Hf]; [done |].
    rewrite Hf. eexists; reflexivity.
Qed.

Lemma map_after_clear_has_no_result_witness :
  hasComputedMapping (clear scenarioComputed) = false
  ∧ ∃ f, map (clear scenarioComputed) 0 0 = Aborts f.
Proof.
  apply (map_after_clear_has_no_result scenarioComputed 0 0). vm_compute. lia.
Defined.

(** *** The tag pass *)

Lemma tagLoop_spec (indices : list nat) :
  ∀ vs k tagged j,
    j ∈ tagLoop k vs indices tagged
    ↔ j ∈ tagged
      ∨ ∃ i v, j = k + i ∧ vs !! i = Some v ∧ getID v ∈ indices.
Proof.
  induction vs as [|v vs IH]; intros k tagged j.
  - cbn [tagLoop]. split; [auto |].
    intros [Hj|(i & u & _ & Hu & _)]; [done |]. by rewrite lookup_nil in Hu.
  - cbn [tagLoop]. rewrite IH. split.
    + intros [Hj|(i & u & -> & Hu & Hid)].
      * unfold contained in Hj.
        destruct (bool_decide (getID v ∈ indices)) eqn:Hc; [| by left].
        apply bool_decide_eq_true in Hc.
        apply elem_of_union in Hj as [Hj|Hj]; [| by left].
        apply elem_of_singleton in Hj as ->.
        right. exists 0, v. split; [lia |]. done.
      * right. exists (S i), u. split; [lia |]. done.
    + intros [Hj|(i & u & -> & Hu & Hid)].
      * left. destruct (contained (getID v) indices); [| done].
        by apply elem_of_union_r.
      * destruct i as [|i].
        -- injection Hu as ->. left. unfold contained.
           rewrite bool_decide_true by done.
           apply elem_of_union_l, elem_of_singleton. lia.
        -- right. exists i, u. split; [lia |]. done.
Qed.

Lemma tagMeshFirstRound_eq (rtree : SpatialIndex)
    (nn computed : NearestNeighborMapping) (tags : Tags) :
  computeMapping rtree nn = Returns computed →
  tagMeshFirstRound rtree nn tags
  = Returns (clear computed,
             if decide (getConstraint nn = CONSISTENT) then
               {| inputTagged :=
                    tagLoop 0 (vertices (input nn)) (_vertexIndices computed)
                            (inputTagged tags);
                  outputTagged := outputTagged tags |}
             else
               {| inputTagged := inputTagged tags;
                  outputTagged :=
                    tagLoop 0 (vertices (output nn)) (_vertexIndices computed)
                            (outputTagged tags) |}).
Proof.
  intros Hrun. unfold tagMeshFirstRound. rewrite Hrun, bind_Returns.
  destruct (computeMapping_returns _ _ _ Hrun)
    as (Hc & Hin & Hout & _ & Hcase).
  rewrite Hc, Hin, Hout.
  destruct (decide (getConstraint nn = CONSISTENT)) as [Hcons|Hcons].
  - by rewrite bind_Returns.
  - rewrite bool_decide_true;
      [| by destruct Hcase as [[? _]|[? _]]; congruence].
    cbn [PRECICE_ASSERT]. by rewrite !bind_Returns.
Qed.

(** X11 (the tag rounds).  Whenever [computeMapping] returns,
    [tagMeshFirstRound] returns; the mapping it leaves is the computed one
    cleared, so the flag is reset and the table is empty; in the searched
    mesh a vertex is tagged afterwards exactly if it was tagged before or
    its ID occurs in the computed table; the tags of the other mesh are as
    before.  [tagMeshSecondRound] then changes neither the mapping nor a
    tag. *)
Theorem tagMeshFirstRound_tags_by_id (rtree : SpatialIndex)
    (nn computed : NearestNeighborMapping) (tags : Tags) :
  computeMapping rtree nn = Returns computed →
  ∃ tags',
    tagMeshFirstRound rtree nn tags = Returns (clear computed, tags')
    ∧ hasComputedMapping (clear computed) = false
    ∧ _vertexIndices (clear computed) = []
    ∧ tagMeshSecondRound (clear computed) tags' = (clear computed, tags')
    ∧ referenceTags nn tags' = referenceTags nn tags
    ∧ ∀ k, k ∈ searchedTags nn tags'
           ↔ k ∈ searchedTags nn tags
             ∨ ∃ v, oppositeVertices nn !! k = Some v
                    ∧ getID v ∈ _vertexIndices computed.
Proof.
  intros Hrun. eexists. split; [by apply tagMeshFirstRound_eq |].
  split; [reflexivity |]. split; [reflexivity |]. split; [reflexivity |].
  unfold referenceTags, searchedTags, oppositeVertices.
  destruct (decide (getConstraint nn = CONSISTENT)) as [Hcons|Hcons];
    (split; [reflexivity |]); intros k; cbn [inputTagged outputTagged];
    rewrite tagLoop_spec; (split; intros [Hk|Hk]; [by left | | by left |]).
  - destruct Hk as (i & v & -> & Hv & Hid). right. by exists v.
  - destruct Hk as (v & Hv & Hid). right. by exists k, v.
  - destruct Hk as (i & v & -> & Hv & Hid). right. by exists v.
  - destruct Hk as (v & Hv & Hid). right. by exists k, v.
Qed.

Lemma tagMeshFirstRound_tags_by_id_witness :
  ∃ tags',
    tagMeshFirstRound firstVertex scenario
      {| inputTagged := ∅; outputTagged := ∅ |}
    = Returns (clear scenarioComputed, tags')
    ∧ 0 ∈ outputTagged tags'.
Proof.
  destruct (tagMeshFirstRound_tags_by_id firstVertex scenario scenarioComputed
              {| inputTagged := ∅; outputTagged := ∅ |})
    as (tags' & Hrun & _ & _ & _ & _ & Htagged).
  - apply scenario_computeMapping.
  - exists tags'. split; [exact Hrun |].
    apply (Htagged 0). right.
    exists {| rawCoords := (0, 0, 0)%R; getID := 0 |}.
    split; [reflexivity |]. cbn. apply list_elem_of_here.
Defined.

(** X12 (the first tag round covers what the mapping reads).  When the
    index answers every query for a vertex of the walked mesh with one
    position of the searched mesh, [tagMeshFirstRound] returns and every
    such position is tagged afterwards. *)
Theorem tagMeshFirstRound_covers_the_nearest (rtree : SpatialIndex)
    (nn : NearestNeighborMapping) (tags : Tags) (nearest : nat → nat) :
  getConstraint nn ≠ SCALED_CONSISTENT →
  (∀ i v, referenceVertices nn !! i = Some v →
          rtree (oppositeVertices nn) (rawCoords v) 1 = [nearest i]
          ∧ nearest i < length (oppositeVertices nn)) →
  ∃ nn' tags',
    tagMeshFirstRound rtree nn tags = Returns (nn', tags')
    ∧ ∀ i, i < length (referenceVertices nn) →
           nearest i ∈ searchedTags nn tags'.
Proof.
  intros Hc Hhit. eexists _, _. split.
  - apply tagMeshFirstRound_eq. apply computeMapping_eq; [done |].
    by apply indexOnVertices_nearest.
  - intros i Hi.
    destruct (lookup_lt_is_Some_2 (referenceVertices nn) i Hi) as [v Hv].
    destruct (Hhit i v Hv) as [_ Hbound].
    destruct (lookup_lt_is_Some_2 (oppositeVertices nn) (nearest i) Hbound)
      as [u Hu].
    assert (getID u ∈ (λ i, nth (nearest i) (getID <$> oppositeVertices nn) 0)
                      <$> seq 0 (length (referenceVertices nn))) as Hid.
    { apply list_elem_of_fmap. exists i. split.
      - symmetry. apply nth_lookup_Some. by rewrite list_lookup_fmap, Hu.
      - apply elem_of_seq. lia. }
    cbn [_vertexIndices] in *.
    unfold searchedTags, oppositeVertices in *.
    destruct (decide (getConstraint nn = CONSISTENT)) as [Hcons|Hcons];
      cbn [inputTagged outputTagged]; apply tagLoop_spec; right;
      exists (nearest i), u; (split; [done |]); done.
Qed.

Lemma tagMeshFirstRound_covers_the_nearest_witness :
  ∃ nn' tags',
    tagMeshFirstRound firstVertex scenario
      {| inputTagged := ∅; outputTagged := ∅ |}
    = Returns (nn', tags')
    ∧ 0 ∈ outputTagged tags'.
Proof.
  destruct (tagMeshFirstRound_covers_the_nearest firstVertex scenario
              {| inputTagged := ∅; outputTagged := ∅ |} (λ _, 0))
    as (nn' & tags' & Hrun & Hcovered).
  - done.
  - intros i v Hv. split; [reflexivity | vm_compute; lia].
  - exists nn', tags'. split; [exact Hrun |].
    apply (Hcovered 0). vm_compute. lia.
Defined.

End nearest_neighbor_life_cycle.

(** *** Mapping *)

Section nearest_neighbor_map.
Import mesh NearestNeighborMapping.

(** X13 (a consistent [map] reproduces constants).  When every input vertex
    carries the same values [c 0 .. c (D-1)], a consistent [map] over a
    computed table returns and every output vertex carries these values
    afterwards. *)
Theorem consistent_map_reproduces_constants (nn : NearestNeighborMapping)
    (inputDataID outputDataID : nat) (inputData outputData : Data)
    (c : nat → R) :
  getConstraint nn = CONSISTENT →
  data (input nn) !! inputDataID = Some inputData →
  data (output nn) !! outputDataID = Some outputData →
  getDimensions inputData = getDimensions outputData →
  0 < getDimensions inputData →
  length (values inputData)
    = length (vertices (input nn)) * getDimensions inputData →
  length (values outputData)
    = length (vertices (output nn)) * getDimensions inputData →
  length (_vertexIndices nn) = length (vertices (output nn)) →
  Forall (λ g, g < length (vertices (input nn))) (_vertexIndices nn) →
  (∀ g d, g < length (vertices (input nn)) → d < getDimensions inputData →
          coeff (values inputData) (g * getDimensions inputData + d) = c d) →
  ∃ nn',
    map nn inputDataID outputDataID = Returns nn'
    ∧ ∀ k d, k < length (vertices (output nn)) → d < getDimensions inputData →
             coeff (outputValues nn' outputDataID)
                   (k * getDimensions inputData + d) = c d.
Proof.
  intros Hc Hin Hout Hdim HD Hlin Hlout Hlen Hrange Hconst.
  eexists. split; [by apply (map_consistent_eq nn _ _ inputData outputData) |].
  intros k d Hk Hd. unfold outputValues.
  cbn [output setData data]. rewrite lookup_insert_eq. cbn [values].
  rewrite copyFrom_coeff by first [lia | done | congruence].
  apply Hconst; [| done].
  apply nth_Forall_lt; [done | lia].
Qed.

Lemma consistent_map_reproduces_constants_witness :
  ∃ nn',
    map scenarioConsistent 0 0 = Returns nn'
    ∧ coeff (outputValues nn' 0) 0 = 5%R
    ∧ coeff (outputValues nn' 0) 1 = 5%R.
Proof.
  destruct (consistent_map_reproduces_constants scenarioConsistent 0 0
              {| values := [5]%R; getDimensions := 1 |}
              {| values := [1; 2]%R; getDimensions := 1 |} (λ _, 5%R))
    as (nn' & Hrun & Hvalues).
  - reflexivity.
  - reflexivity.
  - reflexivity.
  - reflexivity.
  - cbn. lia.
  - reflexivity.
  - reflexivity.
  - reflexivity.
  - cbn. repeat constructor.
  - intros [|g] [|d] Hg Hd; cbn in Hg, Hd; first [reflexivity | lia].
  - exists nn'. split; [exact Hrun |]. split.
    + apply (Hvalues 0 0); cbn; lia.
    + apply (Hvalues 1 0); cbn; lia.
Defined.

(** X14 (a consistent [map] overwrites).  A consistent [map] over a computed
    table returns; the values it leaves in the output channel do not depend
    on the values the channel held before; and a second [map] with the
    same channels changes nothing. *)
Theorem consistent_map_overwrites (nn : NearestNeighborMapping)
    (inputDataID outputDataID : nat) (inputData outputData : Data) :
  getConstraint nn = CONSISTENT →
  data (input nn) !! inputDataID = Some inputData →
  data (output nn) !! outputDataID = Some outputData →
  getDimensions inputData = getDimensions outputData →
  0 < getDimensions inputData →
  length (values inputData)
    = length (vertices (input nn)) * getDimensions inputData →
  length (values outputData)
    = length (vertices (output nn)) * getDimensions inputData →
  length (_vertexIndices nn) = length (vertices (output nn)) →
  Forall (λ g, g < length (vertices (input nn))) (_vertexIndices nn) →
  ∃ nn',
    map nn inputDataID outputDataID = Returns nn'
    ∧ outputValues nn' outputDataID
      = copyFrom (_vertexIndices nn) (getDimensions inputData)
          (values inputData)
          (replicate (length (vertices (output nn)) * getDimensions inputData)
                     0%R)
    ∧ map nn' inputDataID outputDataID = Returns nn'.
Proof.
  intros Hc Hin Hout Hdim HD Hlin Hlout Hlen Hrange.
  eexists. split; [by apply (map_consistent_eq nn _ _ inputData outputData) |].
  split.
  - unfold outputValues. cbn [output setData data].
    rewrite lookup_insert_eq. cbn [values].
    apply copyFrom_overwrites; [congruence |].
    rewrite length_replicate. congruence.
  - rewrite (map_consistent_eq _ _ _ inputData
               {| values := copyFrom (_vertexIndices nn)
                              (getDimensions inputData) (values inputData)
                              (values outputData);
                  getDimensions := getDimensions outputData |});
      cbn [getConstraint input output _vertexIndices _hasComputedMapping
           setData data vertices values getDimensions];
      try done.
    + f_equal. f_equal. unfold setData.
      cbn [vertices data getVertexDistribution getGlobalNumberOfVertices].
      f_equal. rewrite insert_insert_eq. f_equal. f_equal.
      apply copyFrom_overwrites; [| congruence].
      rewrite length_copyFrom. congruence.
    + apply lookup_insert_eq.
    + by rewrite length_copyFrom.
Qed.

Lemma consistent_map_overwrites_witness :
  ∃ nn',
    map scenarioConsistent 0 0 = Returns nn'
    ∧ map nn' 0 0 = Returns nn'.
Proof.
  destruct (consistent_map_overwrites scenarioConsistent 0 0
              {| values := [5]%R; getDimensions := 1 |}
              {| values := [1; 2]%R; getDimensions := 1 |})
    as (nn' & Hrun & _ & Hagain).
  - reflexivity.
  - reflexivity.
  - reflexivity.
  - reflexivity.
  - cbn. lia.
  - reflexivity.
  - reflexivity.
  - reflexivity.
  - cbn. repeat constructor.
  - exists nn'. split; [exact Hrun | exact Hagain].
Defined.

(** X15 (a conservative [map] accumulates).  Two conservative [map] calls
    in a row over a computed table both return, and each output entry then
    holds what it held before the first call plus twice the sum of the
    input entries assigned to it: the output must be zeroed between
    calls. *)
Theorem conservative_map_accumulates (nn : NearestNeighborMapping)
    (inputDataID outputDataID : nat) (inputData outputData : Data) :
  getConstraint nn = CONSERVATIVE →
  data (input nn) !! inputDataID = Some inputData →
  data (output nn) !! outputDataID = Some outputData →
  getDimensions inputData = getDimensions outputData →
  0 < getDimensions inputData →
  length (values inputData)
    = length (vertices (input nn)) * getDimensions inputData →
  length (values outputData)
    = length (vertices (output nn)) * getDimensions inputData →
  length (_vertexIndices nn) = length (vertices (input nn)) →
  Forall (λ g, g < length (vertices (output nn))) (_vertexIndices nn) →
  ∃ nn1 nn2,
    map nn inputDataID outputDataID = Returns nn1
    ∧ map nn1 inputDataID outputDataID = Returns nn2
    ∧ ∀ g d, g < length (vertices (output nn)) → d < getDimensions inputData →
             coeff (outputValues nn2 outputDataID)
                   (g * getDimensions inputData + d)
             = (coeff (values outputData) (g * getDimensions inputData + d)
                + 2 * contribution (seq 0 (length (vertices (input nn))))
                        (_vertexIndices nn) (getDimensions inputData)
                        (values inputData) g d)%R.
Proof.
  intros Hc Hin Hout Hdim HD Hlin Hlout Hlen Hrange.
  eexists _, _.
  split; [by apply (map_conservative_eq nn _ _ inputData outputData) |].
  split.
  - apply (map_conservative_eq _ _ _ inputData
             {| values := scatterAdd (_vertexIndices nn)
                            (getDimensions inputData) (values inputData)
                            (values outputData);
                getDimensions := getDimensions outputData |});
      cbn [getConstraint input output _vertexIndices _hasComputedMapping
           setData data vertices values getDimensions];
      try done.
    + apply lookup_insert_eq.
    + unfold scatterAdd. by rewrite length_scatterAddOver.
  - intros g d Hg Hd. unfold outputValues.
    cbn [output setData data]. rewrite lookup_insert_eq. cbn [values].
    rewrite !(scatterAdd_coeff (length (vertices (output nn))));
      try done.
    + cbn [_vertexIndices]. rewrite Hlen. lra.
    + unfold scatterAdd. by rewrite length_scatterAddOver.
Qed.

Lemma conservative_map_accumulates_witness :
  ∃ nn1 nn2,
    map scenarioComputed 0 1 = Returns nn1
    ∧ map nn1 0 1 = Returns nn2
    ∧ coeff (outputValues nn2 1) 0 = 6%R.
Proof.
  destruct (conservative_map_accumulates scenarioComputed 0 1
              {| values := [1; 2]%R; getDimensions := 1 |}
              {| values := [0]%R; getDimensions := 1 |})
    as (nn1 & nn2 & Hrun1 & Hrun2 & Hvalues).
  - reflexivity.
  - reflexivity.
  - reflexivity.
  - reflexivity.
  - cbn. lia.
  - reflexivity.
  - reflexivity.
  - reflexivity.
  - cbn. repeat constructor.
  - exists nn1, nn2. split; [exact Hrun1 |]. split; [exact Hrun2 |].
    pose proof (Hvalues 0 0 ltac:(cbn; lia) ltac:(cbn; lia)) as H0.
    cbn in H0. unfold contribution in H0. cbn in H0.
    rewrite !decide_True in H0 by done. cbn in H0.
    rewrite H0. lra.
Defined.

(** X16 (what [map] leaves alone).  Whenever [map] returns, only the values
    of the output channel it was given may differ: constraint, table, flag,
    input mesh, the vertices of the output mesh and every other channel of
    the output mesh are as before, and the written channel has kept its
    dimension and its number of values. *)
Theorem map_changes_only_the_output_channel (nn nn' : NearestNeighborMapping)
    (inputDataID outputDataID : nat) :
  map nn inputDataID outputDataID = Returns nn' →
  getConstraint nn' = getConstraint nn
  ∧ _vertexIndices nn' = _vertexIndices nn
  ∧ hasComputedMapping nn' = hasComputedMapping nn
  ∧ input nn' = input nn
  ∧ vertices (output nn') = vertices (output nn)
  ∧ (∀ id, id ≠ outputDataID →
           data (output nn') !! id = data (output nn) !! id)
  ∧ ∃ before after,
      data (output nn) !! outputDataID = Some before
      ∧ data (output nn') !! outputDataID = Some after
      ∧ getDimensions after = getDimensions before
      ∧ length (values after) = length (values before).
Proof.
  intros Hrun. unfold map in Hrun.
  apply bind_inv in Hrun as (inputData & Hin & Hrun).
  apply bind_inv in Hrun as (outputData & Hout & Hrun).
  apply bind_inv in Hrun as ([] & Hdim & Hrun).
  apply bind_inv in Hrun as ([] & Hsin & Hrun).
  apply bind_inv in Hrun as ([] & Hsout & Hrun).
  apply bind_inv in Hrun as (written & Hloop & Hrun).
  injection Hrun as <-.
  cbn [getConstraint input output _vertexIndices _hasComputedMapping
       hasComputedMapping setData data vertices].
  split; [done |]. split; [done |]. split; [done |]. split; [done |].
  split; [done |]. split.
  - intros id Hid. by rewrite lookup_insert_ne.
  - apply getData_inv in Hout. eexists _, _.
    split; [exact Hout |]. split; [apply lookup_insert_eq |].
    split; [reflexivity |]. cbn [values].
    destruct (decide (getConstraint nn = CONSISTENT)).
    + by eapply assignLoop_length.
    + apply bind_inv in Hloop as ([] & _ & Hloop).
      by eapply accumulateLoop_length.
Qed.

Lemma map_changes_only_the_output_channel_witness :
  ∃ nn',
    map scenarioComputed 0 0 = Returns nn'
    ∧ input nn' = scenarioInput
    ∧ data (output nn') !! 1 = Some {| values := [0]%R; getDimensions := 1 |}.
Proof.
  eexists. split; [reflexivity |].
  destruct (map_changes_only_the_output_channel scenarioComputed _ 0 0
              eq_refl) as (_ & _ & _ & Hinput & _ & Hothers & _).
  split; [exact Hinput |]. by rewrite Hothers.
Defined.

(** X17 (what [map] needs in order to return).  [map] returns only if both
    channels exist, have the same dimension, that dimension is not zero,
    the numbers of values divided by it are the numbers of vertices of the
    two meshes, the constraint is consistent or conservative, and the table
    has an entry for every vertex of the walked mesh. *)
Theorem map_returns_only_on_matching_data (nn nn' : NearestNeighborMapping)
    (inputDataID outputDataID : nat) :
  map nn inputDataID outputDataID = Returns nn' →
  ∃ inputData outputData,
    data (input nn) !! inputDataID = Some inputData
    ∧ data (output nn) !! outputDataID = Some outputData
    ∧ getDimensions inputData = getDimensions outputData
    ∧ 0 < getDimensions inputData
    ∧ length (values inputData) / getDimensions inputData
      = length (vertices (input nn))
    ∧ length (values outputData) / getDimensions inputData
      = length (vertices (output nn))
    ∧ getConstraint nn ≠ SCALED_CONSISTENT
    ∧ length (referenceVertices nn) ≤ length (_vertexIndices nn).
Proof.
  intros Hrun. unfold map in Hrun.
  apply bind_inv in Hrun as (inputData & Hin & Hrun).
  apply bind_inv in Hrun as (outputData & Hout & Hrun).
  apply bind_inv in Hrun as ([] & Hdim & Hrun).
  apply bind_inv in Hrun as ([] & Hsin & Hrun).
  apply bind_inv in Hrun as ([] & Hsout & Hrun).
  apply bind_inv in Hrun as (written & Hloop & _).
  apply getData_inv in Hin. apply getData_inv in Hout.
  apply PRECICE_ASSERT_inv, bool_decide_eq_true in Hdim.
  apply assertSize_inv in Hsin as [HD Hsin].
  apply assertSize_inv in Hsout as [_ Hsout].
  exists inputData, outputData.
  split; [done |]. split; [done |]. split; [done |]. split; [done |].
  split; [done |]. split; [done |].
  unfold referenceVertices.
  destruct (decide (getConstraint nn = CONSISTENT)) as [Hcons|Hcons].
  - split; [congruence |].
    destruct (decide (length (_vertexIndices nn)
                      < length (vertices (output nn)))) as [Hshort|]; [| lia].
    destruct (assignLoop_short_table _ _ (getDimensions inputData)
                (values inputData) (values outputData) Hshort) as [f Hf].
    congruence.
  - apply bind_inv in Hloop as ([] & Hassert & Hloop).
    apply PRECICE_ASSERT_inv, bool_decide_eq_true in Hassert.
    split; [congruence |].
    destruct (decide (length (_vertexIndices nn)
                      < length (vertices (input nn)))) as [Hshort|]; [| lia].
    destruct (accumulateLoop_short_table _ _ (getDimensions inputData)
                (values inputData) (values outputData) Hshort) as [f Hf].
    congruence.
Qed.

Lemma map_returns_only_on_matching_data_witness :
  ∃ nn' inputData outputData,
    map scenarioComputed 0 0 = Returns nn'
    ∧ data (input scenarioComputed) !! 0 = Some inputData
    ∧ data (output scenarioComputed) !! 0 = Some outputData
    ∧ getDimensions inputData = getDimensions outputData.
Proof.
  eexists.
  destruct (map_returns_only_on_matching_data scenarioComputed _ 0 0 eq_refl)
    as (inputData & outputData & Hin & Hout & Hdim & _).
  exists inputData, outputData. split; [reflexivity |]. done.
Defined.

End nearest_neighbor_map.

(** ** Further properties of the P-Greedy solver *)

Lemma maxCoeff_visit_first (l : list R) :
  ∀ (pre : list R) (b : nat) (m : R),
    pre !! b = Some m →
    (∀ j x, pre !! j = Some x → (x <= m)%R) →
    (∀ j x, j < b → pre !! j = Some x → (x < m)%R) →
    ∀ j x, j < (maxCoeff_visit l (length pre) (b, m)).1 →
           (pre ++ l) !! j = Some x →
           (x < (maxCoeff_visit l (length pre) (b, m)).2)%R.
Proof.
  induction l as [|y l IH]; intros pre b m Hb Hmax Hfirst.
  - rewrite app_nil_r. cbn. done.
  - cbn [maxCoeff_visit snd].
    replace (pre ++ y :: l) with ((pre ++ [y]) ++ l) by (by rewrite <- app_assoc).
    replace (S (length pre)) with (length (pre ++ [y]))
      by (rewrite length_app; cbn; lia).
    destruct (Rlt_dec m y) as [Hlt|Hge].
    + apply IH.
      * by rewrite lookup_app_r, Nat.sub_diag by done.
      * intros j x Hj. apply lookup_app_Some in Hj as [Hj|[_ Hj]].
        -- pose proof (Hmax j x Hj). lra.
        -- apply list_lookup_singleton_Some in Hj as [_ <-]. lra.
      * intros j x Hlt' Hj. rewrite lookup_app_l in Hj by done.
        pose proof (Hmax j x Hj). lra.
    + apply IH.
      * by apply lookup_app_l_Some.
      * intros j x Hj. apply lookup_app_Some in Hj as [Hj|[_ Hj]].
        -- by apply (Hmax j).
        -- apply list_lookup_singleton_Some in Hj as [_ <-]. lra.
      * intros j x Hlt' Hj.
        pose proof (lookup_lt_Some _ _ _ Hb) as Hbound.
        rewrite lookup_app_l in Hj by lia. by apply (Hfirst j).
Qed.

Lemma maxCoeff_visit_constant (x : R) (n : nat) :
  ∀ k, maxCoeff_visit (replicate n x) k (0, x) = (0, x).
Proof.
  induction n as [|n IH]; intros k; [done |].
  cbn [replicate maxCoeff_visit snd].
  destruct (Rlt_dec x x) as [Hlt|_]; [lra | apply IH].
Qed.

Lemma maxCoeff_constant (x : R) (n : nat) :
  0 < n → maxCoeff (replicate n x) = Returns (0, x).
Proof.
  destruct n as [|n]; [lia |]. intros _. cbn [replicate maxCoeff].
  by rewrite maxCoeff_visit_constant.
Qed.

Lemma rowProduct_self_nonneg (B : Matrix) (j n : nat) :
  (0 <= PGreedy.rowProduct B j j n)%R.
Proof.
  unfold PGreedy.rowProduct. induction (seq 0 n) as [|k l IH].
  - rewrite fmap_nil, Rsum_nil. lra.
  - rewrite fmap_cons, Rsum_cons.
    pose proof (Rle_0_sqr (coeffM B j k)) as Hsq. unfold Rsqr in Hsq. lra.
Qed.

Lemma fmap_seq_constant (x : R) (n : nat) :
  ∀ first, (λ _, x) <$> seq first n = replicate n x.
Proof.
  induction n as [|n IH]; intros first; [done |].
  cbn [seq replicate]. rewrite fmap_cons. by rewrite IH.
Qed.

(** *** States of the selection loop *)

Section pgreedy_reached.
Import mesh PGreedy.

Variable basisFunction : RADIAL_BASIS_FUNCTION_T.
Variable inputMesh : Mesh.

(** One iteration of the selection loop, as far as [_cut] and the two
    sizes are concerned. *)
Lemma iteration_step_cut (n : nat) (l : Locals) :
  Invariant basisFunction inputMesh n l →
  n < _maxIter →
  0 < length (vertices inputMesh) →
  ∃ i pMax,
    maxCoeff (_powerFunction (solver l)) = Returns (i, pMax)
    ∧ ((pMax < _tolP)%R
       ∧ iteration basisFunction inputMesh n l = Returns (Break l)
       ∨ ¬ (pMax < _tolP)%R
         ∧ ∃ l',
             iteration basisFunction inputMesh n l = Returns (Continue l')
             ∧ _inSize (solver l') = _inSize (solver l)
             ∧ _outSize (solver l') = _outSize (solver l)
             ∧ (∀ r c, r ≠ n →
                  coeffM (_cut (solver l')) r c = coeffM (_cut (solver l)) r c)
             ∧ (∀ c, n < c →
                  coeffM (_cut (solver l')) n c = coeffM (_cut (solver l)) n c)
             ∧ coeffM (_cut (solver l')) n n = (1 / sqrt pMax)%R).
Proof.
  intros Hinv Hn HN. pose proof Hinv as [HinSize Hp Hv Hbits HBr HBc HCr HCc
    Hcount Hnodup Hcenters Hpc Hpo].
  destruct (maxCoeff_spec (_powerFunction (solver l)) ltac:(lia))
    as (i & pMax & Hmax & Hi & Hle).
  exists i, pMax. split; [exact Hmax |].
  pose proof (lookup_lt_Some _ _ _ Hi) as HiN. rewrite Hp in HiN.
  destruct (lookup_lt_is_Some_2 (vertices inputMesh) i HiN) as [x Hx].
  unfold iteration, select. rewrite Hmax, bind_Returns. cbn beta iota.
  rewrite (readAt_Some _ _ _ Hx), bind_Returns.
  destruct (Rlt_dec pMax _tolP) as [Hlt|Hge]; [by left |]. right.
  split; [exact Hge |].
  pose proof tolP_pos as Htol.
  assert (0 < pMax)%R as Hpos by lra.
  assert (centerBits l !! i = Some false) as Hbit.
  { destruct (lookup_lt_is_Some_2 (centerBits l) i ltac:(lia)) as [[] Hb];
      [| done].
    pose proof (Hpc i Hb) as Hzero.
    rewrite (coeff_lookup _ _ _ Hi) in Hzero. lra. }
  assert (n < length (vertices inputMesh)) as HnN.
  { assert (length (_greedyIDs (solver l) ++ [i])
            ≤ length (vertices inputMesh)) as Hbound.
    { apply NoDup_bounded_length.
      - apply NoDup_app. split; [done |]. split; [| apply NoDup_singleton].
        intros j Hj ->%list_elem_of_singleton.
        apply Hcenters in Hj. congruence.
      - apply Forall_app. split; [by eapply centers_in_range |].
        by apply Forall_singleton. }
    rewrite length_app, Hcount in Hbound. cbn in Hbound. lia. }
  rewrite updateKernelVector_pure, bind_Returns by done.
  destruct (updateLoop_returns (_inSize (solver l)) (_basisMatrix (solver l))
              (centerBits l) i n (sqrt pMax)
              (kernelColumn basisFunction inputMesh x)
              (_powerFunction (solver l)))
    as (kernel' & power' & -> & Hk' & Hp' & Hupd);
    try (rewrite ?HinSize; unfold kernelColumn; rewrite ?length_fmap; lia).
  rewrite bind_Returns. cbn beta iota.
  rewrite HinSize in Hk', Hp'.
  rewrite writeAt_lt, bind_Returns by lia.
  unfold setCol. rewrite eigen_assert_holds, !bind_Returns by lia.
  unfold setNewtonRow. cbn [rows cols].
  rewrite eigen_assert_holds, !bind_Returns by lia.
  unfold setCoeff. cbn [rows cols].
  rewrite eigen_assert_holds, !bind_Returns by lia.
  rewrite (readAt_coeff kernel'), bind_Returns by lia.
  unfold divideRow. cbn [rows cols].
  rewrite eigen_assert_holds, !bind_Returns by lia.
  destruct (Hupd i) as [_ Hnew]. destruct (Hnew Hbit) as [Hki Hpi].
  rewrite (kernelColumn_center _ _ i x Hx) in Hki.
  rewrite <- (Hpo i Hbit), (coeff_lookup _ _ _ Hi) in Hki.
  destruct (normalised_square pMax Hpos) as [Hroot Hsquare].
  eexists. split; [reflexivity |].
  cbn [solver _inSize _outSize _cut coeffM].
  split; [done |]. split; [done |]. split; [| split].
  - intros r c Hr.
    repeat (destruct (decide _) as [?|?]; [lia |]). reflexivity.
  - intros c Hc.
    repeat (destruct (decide _) as [?|?]; [lia |]). reflexivity.
  - rewrite decide_True by lia. rewrite decide_True by lia.
    by rewrite Hki, Hroot.
Qed.

Variable outputMesh : Mesh.

(** What holds of [_cut] and the sizes whenever iteration [n] starts:
    [_cut] is lower triangular, its rows from [n] on are zero, its first
    [n] diagonal entries are positive. *)
Lemma reached_cut (n : nat) (l : Locals) :
  Reached basisFunction inputMesh outputMesh n l →
  _inSize (solver l) = length (vertices inputMesh)
  ∧ _outSize (solver l) = length (vertices outputMesh)
  ∧ (∀ r c, r < c ∨ n ≤ r → coeffM (_cut (solver l)) r c = 0%R)
  ∧ (∀ k, k < n → (0 < coeffM (_cut (solver l)) k k)%R).
Proof.
  induction 1 as [|n l l' Hreached IH Hn Hstep].
  - cbn. split; [done |]. split; [done |]. split; [done |]. intros k Hk. lia.
  - destruct IH as (Hin & Hout & Hzero & Hdiag).
    pose proof (reached_invariant _ _ _ _ _ Hreached) as Hinv.
    destruct (decide (0 < length (vertices inputMesh))) as [HN|HN];
      [| rewrite (iteration_empty _ _ _ _ Hinv) in Hstep by lia; done].
    destruct (iteration_step_cut n l Hinv Hn HN)
      as (i & pMax & _ & [[_ Hrun]|[Hge (l1 & Hrun & Hin1 & Hout1 & Hrows
                                           & Hright & Hnn)]]);
      rewrite Hrun in Hstep; [done |]. injection Hstep as <-.
    split; [congruence |]. split; [congruence |]. split.
    + intros r c Hrc. destruct (decide (r = n)) as [->|Hne].
      * rewrite Hright by lia. apply Hzero. lia.
      * rewrite Hrows by done. apply Hzero. lia.
    + intros k Hk. destruct (decide (k = n)) as [->|Hne].
      * rewrite Hnn. pose proof tolP_pos as Htol.
        assert (0 < sqrt pMax)%R by (apply sqrt_lt_R0; lra).
        apply Rdiv_lt_0_compat; lra.
      * rewrite Hrows by done. apply Hdiag. lia.
Qed.

(** The selection loop returns at a state that some iteration starts
    from. *)
Lemma selectionLoop_reached (remaining : nat) :
  ∀ n l,
    Reached basisFunction inputMesh outputMesh n l →
    n + remaining ≤ _maxIter →
    0 < length (vertices inputMesh) →
    ∃ l' n',
      selectionLoop basisFunction inputMesh remaining n l = Returns l'
      ∧ Reached basisFunction inputMesh outputMesh n' l'
      ∧ n ≤ n' ≤ n + remaining
      ∧ ((maxValue (_powerFunction (solver l')) < _tolP)%R
         ∨ n' = n + remaining).
Proof.
  induction remaining as [|r IH]; intros n l Hreached Hn HN.
  - exists l, n. cbn [selectionLoop].
    split; [done |]. split; [done |]. split; [lia |]. right. lia.
  - cbn [selectionLoop].
    pose proof (reached_invariant _ _ _ _ _ Hreached) as Hinv.
    destruct (iteration_step _ _ n l Hinv ltac:(lia) HN)
      as (i & pMax & Hmax & [[Hlt Hrun]|[_ (l1 & Hrun & _)]]);
      rewrite Hrun, bind_Returns.
    + exists l, n.
      split; [done |]. split; [done |]. split; [lia |]. left.
      by rewrite (maxValue_spec _ _ _ Hmax).
    + destruct (IH (S n) l1) as (l' & n' & Hrun' & Hreached' & Hle & Hend);
        [by eapply reached_next; [exact Hreached | lia |] | lia | done |].
      exists l', n'. split; [done |]. split; [done |]. split; [lia |].
      destruct Hend as [?|?]; [by left | right; lia].
Qed.

(** The constructor returns the solver of a state that some iteration
    starts from, with the evaluation matrix of its centers. *)
Lemma construct_reached (inputIDs outputIDs : list nat)
    (deadAxis : list bool) :
  0 < length (vertices inputMesh) →
  length deadAxis ≤ 3 →
  ∃ l n E,
    construct basisFunction inputMesh inputIDs outputMesh outputIDs deadAxis OFF
    = Returns {| _centers := _centers (solver l);
                 _cut := _cut (solver l);
                 _greedyIDs := _greedyIDs (solver l);
                 _inSize := _inSize (solver l);
                 _outSize := _outSize (solver l);
                 _kernel_eval := E;
                 _basisMatrix := _basisMatrix (solver l);
                 _powerFunction := _powerFunction (solver l) |}
    ∧ Reached basisFunction inputMesh outputMesh n l
    ∧ n ≤ _maxIter
    ∧ ((maxValue (_powerFunction (solver l)) < _tolP)%R ∨ n = _maxIter)
    ∧ rows E = length (_greedyIDs (solver l))
    ∧ cols E = length (vertices outputMesh).
Proof.
  intros HN Hdead. unfold construct.
  rewrite (bool_decide_true (OFF = OFF)) by done.
  cbn [PRECICE_ASSERT]. rewrite bind_Returns.
  destruct (toActiveAxis_returns deadAxis Hdead) as [activeAxis ->].
  rewrite bind_Returns.
  destruct (selectionLoop_reached _maxIter 0
              (initialLocals basisFunction inputMesh outputMesh)
              (reached_first _ _ _) ltac:(lia) HN)
    as (l & n & -> & Hreached & Hle & Hend).
  rewrite bind_Returns.
  pose proof (reached_invariant _ _ _ _ _ Hreached) as Hinv.
  destruct (buildEvaluationMatrix_returns basisFunction outputMesh inputMesh
              (_greedyIDs (solver l)) (centers_in_range _ _ n l Hinv))
    as (E & -> & Hrows & Hcols & _).
  rewrite bind_Returns. exists l, n, E.
  split; [reflexivity |]. split; [done |]. split; [lia |].
  split; [destruct Hend as [?|?]; [by left | right; lia] |].
  done.
Qed.

(** From the second iteration on, the first center is vertex 0. *)
Lemma reached_first_center (n : nat) (l : Locals) :
  Reached basisFunction inputMesh outputMesh n l →
  0 < n → _greedyIDs (solver l) !! 0 = Some 0.
Proof.
  induction 1 as [|n l l' Hreached IH Hn Hstep]; [lia |]. intros _.
  pose proof (reached_invariant _ _ _ _ _ Hreached) as Hinv.
  destruct (decide (0 < length (vertices inputMesh))) as [HN|HN];
    [| rewrite (iteration_empty _ _ _ _ Hinv) in Hstep by lia; done].
  destruct (iteration_step _ _ n l Hinv Hn HN)
    as (i & pMax & Hmax & [[_ Hrun]|[_ (l1 & Hrun & _ & _ & _ & Hids & _)]]);
    rewrite Hrun in Hstep; [done |]. injection Hstep as <-.
  rewrite Hids. destruct n as [|n].
  - inversion Hreached; subst. cbn in Hmax |- *.
    rewrite maxCoeff_constant in Hmax by done. by injection Hmax as <- <-.
  - apply lookup_app_l_Some, IH. lia.
Qed.

End pgreedy_reached.

(** *** Selection and the constructed solver *)

Section pgreedy_further.
Import mesh PGreedy.

(** X18 ([select] returns the first maximum).  On a non-empty power
    function [select] returns a position and the entry at that position; no
    entry is larger, and every entry before that position is strictly
    smaller, so ties go to the lowest index.  On an empty power function
    it has no defined result. *)
Theorem select_returns_the_first_maximum (s : PGreedySolver) :
  match select s with
  | Returns (i, m) =>
      _powerFunction s !! i = Some m
      ∧ (∀ j x, _powerFunction s !! j = Some x → (x <= m)%R)
      ∧ ∀ j x, j < i → _powerFunction s !! j = Some x → (x < m)%R
  | Aborts f => _powerFunction s = [] ∧ f = EmptyMatrix
  end.
Proof.
  unfold select. destruct (_powerFunction s) as [|x l]; [done |].
  cbn [maxCoeff].
  destruct (maxCoeff_visit l 1 (0, x)) as [i m] eqn:Hvisit.
  assert ([x] !! 0 = Some x) as H0 by done.
  assert (∀ j y, [x] !! j = Some y → (y <= x)%R) as Hmax.
  { intros j y Hj. apply list_lookup_singleton_Some in Hj as [_ <-]. lra. }
  destruct (maxCoeff_visit_spec l [x] 0 x H0 Hmax) as [Hi Hle].
  pose proof (maxCoeff_visit_first l [x] 0 x H0 Hmax
                ltac:(intros; lia)) as Hfirst.
  cbn [length] in Hi, Hle, Hfirst. rewrite Hvisit in Hi, Hle, Hfirst.
  done.
Qed.

(** X19 (masked squared distance).  [computeSquaredDifference2] is never
    negative, does not depend on the order of the two points, and is zero
    exactly if the two points agree in every coordinate whose axis is
    active. *)
Theorem computeSquaredDifference2_is_a_masked_distance
    (u v : R * R * R) (activeAxis : bool * bool * bool) :
  (0 <= computeSquaredDifference2 u v activeAxis)%R
  ∧ computeSquaredDifference2 u v activeAxis
    = computeSquaredDifference2 v u activeAxis
  ∧ (computeSquaredDifference2 u v activeAxis = 0%R
     ↔ (activeAxis.1.1 = true → u.1.1 = v.1.1)
       ∧ (activeAxis.1.2 = true → u.1.2 = v.1.2)
       ∧ (activeAxis.2 = true → u.2 = v.2)).
Proof.
  destruct u as [[u0 u1] u2], v as [[v0 v1] v2],
    activeAxis as [[a0 a1] a2].
  unfold computeSquaredDifference2.
  cbn [fst snd].
  pose proof (Rle_0_sqr (u0 - v0)) as S0.
  pose proof (Rle_0_sqr (u1 - v1)) as S1.
  pose proof (Rle_0_sqr (u2 - v2)) as S2.
  unfold Rsqr in S0, S1, S2.
  split; [| split; [| split]].
  - destruct a0, a1, a2; cbn [b2r]; lra.
  - destruct a0, a1, a2; cbn [b2r]; ring.
  - intros Hzero.
    destruct a0, a1, a2; cbn [b2r] in Hzero;
      (split; [| split]); intros Ha; try discriminate Ha;
      match goal with
      | |- ?a = ?b =>
          assert ((a - b) * (a - b) = 0)%R as Hz by lra;
          apply Rmult_integral in Hz; destruct Hz; lra
      end.
  - intros (H0 & H1 & H2).
    destruct a0, a1, a2; cbn [b2r];
      try specialize (H0 eq_refl); try specialize (H1 eq_refl);
      try specialize (H2 eq_refl);
      repeat match goal with
             | H : _ = _ :> R |- _ => rewrite H in *; clear H
             end;
      ring.
Qed.

(** X20 (a kernel below the tolerance at 0 selects nothing).  When
    [phi(0)] lies below the tolerance, the constructor returns on every
    non-empty input mesh with no center at all, and [solveConsistent] then
    returns zero for every output vertex, whatever the input data. *)
Theorem kernel_below_tolerance_selects_nothing
    (basisFunction : RADIAL_BASIS_FUNCTION_T)
    (inputMesh : Mesh) (inputIDs : list nat) (outputMesh : Mesh)
    (outputIDs : list nat) (deadAxis : list bool) :
  0 < length (vertices inputMesh) →
  length deadAxis ≤ 3 →
  (evaluate basisFunction 0 < _tolP)%R →
  ∃ s,
    construct basisFunction inputMesh inputIDs outputMesh outputIDs deadAxis
              OFF = Returns s
    ∧ _greedyIDs s = []
    ∧ ∀ inputData polynomial,
        solveConsistent s inputData polynomial
        = Returns (replicate (length (vertices outputMesh)) 0%R).
Proof.
  intros HN Hdead Hsmall. unfold construct.
  rewrite (bool_decide_true (OFF = OFF)) by done.
  cbn [PRECICE_ASSERT]. rewrite bind_Returns.
  destruct (toActiveAxis_returns deadAxis Hdead) as [activeAxis ->].
  rewrite bind_Returns.
  assert (iteration basisFunction inputMesh 0
            (initialLocals basisFunction inputMesh outputMesh)
          = Returns (Break (initialLocals basisFunction inputMesh outputMesh)))
    as Hfirst.
  { unfold iteration, select.
    cbn [initialLocals solver _powerFunction].
    rewrite maxCoeff_constant, bind_Returns by done. cbn beta iota.
    destruct (lookup_lt_is_Some_2 (vertices inputMesh) 0 HN) as [x Hx].
    rewrite (readAt_Some _ _ _ Hx), bind_Returns.
    by destruct (Rlt_dec (evaluate basisFunction 0) _tolP). }
  change _maxIter with (S 999). cbn [selectionLoop].
  rewrite Hfirst, !bind_Returns.
  cbn [initialLocals solver _greedyIDs _centers _cut _inSize _outSize
       _basisMatrix _powerFunction].
  unfold buildEvaluationMatrix. cbn [length for_loop].
  rewrite bind_Returns. eexists. split; [reflexivity |].
  cbn [_greedyIDs]. split; [reflexivity |].
  intros inputData polynomial. unfold solveConsistent.
  cbn [_greedyIDs _cut _kernel_eval indexed length Zero rows cols coeffM].
  rewrite bind_Returns.
  rewrite !eigen_assert_holds, !bind_Returns by (done || lia).
  f_equal. cbn [seq]. rewrite fmap_nil, Rsum_nil.
  apply fmap_seq_constant.
Qed.

Lemma kernel_below_tolerance_selects_nothing_witness :
  ∃ s,
    construct volumeSplines scenarioInput [] scenarioOutput [] [] OFF
    = Returns s
    ∧ _greedyIDs s = []
    ∧ solveConsistent s [1; 2]%R OFF = Returns [0%R].
Proof.
  destruct (kernel_below_tolerance_selects_nothing volumeSplines scenarioInput
              [] scenarioOutput [] [])
    as (s & Hrun & Hids & Hsolve).
  - cbn. lia.
  - cbn. lia.
  - cbn [volumeSplines evaluate]. rewrite Rabs_R0. apply tolP_pos.
  - exists s. split; [exact Hrun |]. split; [exact Hids |]. apply Hsolve.
Defined.

(** X21 (the first center).  When [phi(0)] does not lie below the
    tolerance, the first iteration of the selection loop on a non-empty
    input mesh selects input vertex 0 and goes on to the next iteration;
    and every solver that the constructor returns has input vertex 0 as its
    first center. *)
Theorem first_center_is_vertex_0
    (basisFunction : RADIAL_BASIS_FUNCTION_T)
    (inputMesh : Mesh) (inputIDs : list nat) (outputMesh : Mesh)
    (outputIDs : list nat) (deadAxis : list bool) (polynomial : Polynomial) :
  0 < length (vertices inputMesh) →
  ¬ (evaluate basisFunction 0 < _tolP)%R →
  (∃ l',
     iteration basisFunction inputMesh 0
       (initialLocals basisFunction inputMesh outputMesh)
     = Returns (Continue l')
     ∧ _greedyIDs (solver l') = [0])
  ∧ ∀ s,
      construct basisFunction inputMesh inputIDs outputMesh outputIDs
                deadAxis polynomial = Returns s →
      _greedyIDs s !! 0 = Some 0.
Proof.
  intros HN Hlarge. split.
  - destruct (iteration_step basisFunction inputMesh 0
                (initialLocals basisFunction inputMesh outputMesh)
                (initial_invariant _ _ outputMesh) ltac:(unfold _maxIter; lia)
                HN)
      as (i & pMax & Hmax & [[Hlt _]|[_ (l' & Hrun & _ & _ & _ & Hids & _)]]);
      cbn [initialLocals solver _powerFunction _greedyIDs] in Hmax;
      rewrite maxCoeff_constant in Hmax by done; injection Hmax as <- <-;
      [done |].
    exists l'. split; [exact Hrun |]. by rewrite Hids.
  - intros s Hrun.
    destruct (construct_aborts _ _ _ _ _ _ _ _ Hrun) as (_ & -> & Hdead).
    destruct (construct_reached basisFunction inputMesh outputMesh inputIDs
                outputIDs deadAxis HN Hdead)
      as (l & n & E & Hrun' & Hreached & _ & Hend & _).
    rewrite Hrun in Hrun'. injection Hrun' as ->. cbn [_greedyIDs].
    apply (reached_first_center _ _ _ n l Hreached).
    destruct n as [|n]; [| lia].
    inversion Hreached; subst.
    destruct Hend as [Hend|Hend]; [| unfold _maxIter in Hend; lia].
    cbn [initialLocals solver _powerFunction] in Hend.
    unfold maxValue in Hend. rewrite maxCoeff_constant in Hend by done. done.
Qed.

Lemma first_center_is_vertex_0_witness :
  ∃ s,
    construct (gaussian 1) scenarioInput [] scenarioOutput [] [] OFF
    = Returns s
    ∧ _greedyIDs s !! 0 = Some 0.
Proof.
  destruct (construct_reached (gaussian 1) scenarioInput scenarioOutput
              [] [] [])
    as (l & n & E & Hrun & _); [cbn; lia.. |].
  eexists. split; [exact Hrun |].
  destruct (first_center_is_vertex_0 (gaussian 1) scenarioInput []
              scenarioOutput [] [] OFF) as [_ Hfirst].
  - cbn. lia.
  - rewrite gaussian_at_0. unfold _tolP. lra.
  - by apply Hfirst.
Defined.

(** X22 (the power function of the constructed solver).  On every
    non-empty input mesh the constructor returns; the power function it
    leaves has one entry per input vertex, the entry of every center is
    zero, and the entry of every other vertex is at most [phi(0)]. *)
Theorem power_function_of_the_constructed_solver
    (basisFunction : RADIAL_BASIS_FUNCTION_T)
    (inputMesh : Mesh) (inputIDs : list nat) (outputMesh : Mesh)
    (outputIDs : list nat) (deadAxis : list bool) :
  0 < length (vertices inputMesh) →
  length deadAxis ≤ 3 →
  ∃ s,
    construct basisFunction inputMesh inputIDs outputMesh outputIDs deadAxis
              OFF = Returns s
    ∧ length (_powerFunction s) = length (vertices inputMesh)
    ∧ (∀ j, j ∈ _greedyIDs s → coeff (_powerFunction s) j = 0%R)
    ∧ ∀ j, j < length (vertices inputMesh) → j ∉ _greedyIDs s →
           (coeff (_powerFunction s) j <= evaluate basisFunction 0)%R.
Proof.
  intros HN Hdead.
  destruct (construct_reached basisFunction inputMesh outputMesh inputIDs
              outputIDs deadAxis HN Hdead)
    as (l & n & E & Hrun & Hreached & _).
  pose proof (reached_invariant _ _ _ _ _ Hreached) as Hinv.
  eexists. split; [exact Hrun |]. cbn [_greedyIDs _powerFunction].
  split; [apply (inv_power _ _ _ _ Hinv) |]. split.
  - intros j Hj. apply (inv_power_center _ _ _ _ Hinv).
    by apply (inv_centers _ _ _ _ Hinv).
  - intros j Hj Hfresh.
    destruct (lookup_lt_is_Some_2 (centerBits l) j) as [b Hb];
      [by rewrite (inv_bits _ _ _ _ Hinv) |].
    destruct b; [by apply (inv_centers _ _ _ _ Hinv) in Hb |].
    rewrite (inv_power_other _ _ _ _ Hinv j Hb).
    pose proof (rowProduct_self_nonneg (_basisMatrix (solver l)) j n). lra.
Qed.

Lemma power_function_of_the_constructed_solver_witness :
  ∃ s,
    construct (gaussian 1) scenarioInput [] scenarioOutput [] [] OFF
    = Returns s
    ∧ length (_powerFunction s) = 2.
Proof.
  destruct (power_function_of_the_constructed_solver (gaussian 1)
              scenarioInput [] scenarioOutput [] [])
    as (s & Hrun & Hlen & _).
  - cbn. lia.
  - cbn. lia.
  - exists s. split; [exact Hrun | exact Hlen].
Defined.

(** X23 ([_cut] is lower triangular).  On every non-empty input mesh the
    constructor returns with a matrix [_cut] that is zero above the
    diagonal and from row [|greedyIDs|] on and has a positive entry at each
    of its first [|greedyIDs|] diagonal positions; its lower triangular
    view is the matrix itself. *)
Theorem cut_is_lower_triangular
    (basisFunction : RADIAL_BASIS_FUNCTION_T)
    (inputMesh : Mesh) (inputIDs : list nat) (outputMesh : Mesh)
    (outputIDs : list nat) (deadAxis : list bool) :
  0 < length (vertices inputMesh) →
  length deadAxis ≤ 3 →
  ∃ s,
    construct basisFunction inputMesh inputIDs outputMesh outputIDs deadAxis
              OFF = Returns s
    ∧ (∀ r c, r < c → coeffM (_cut s) r c = 0%R)
    ∧ (∀ r c, length (_greedyIDs s) ≤ r → coeffM (_cut s) r c = 0%R)
    ∧ (∀ k, k < length (_greedyIDs s) → (0 < coeffM (_cut s) k k)%R)
    ∧ ∀ r c, lower (_cut s) r c = coeffM (_cut s) r c.
Proof.
  intros HN Hdead.
  destruct (construct_reached basisFunction inputMesh outputMesh inputIDs
              outputIDs deadAxis HN Hdead)
    as (l & n & E & Hrun & Hreached & _).
  pose proof (reached_invariant _ _ _ _ _ Hreached) as Hinv.
  destruct (reached_cut _ _ _ _ _ Hreached) as (_ & _ & Hzero & Hdiag).
  eexists. split; [exact Hrun |]. cbn [_greedyIDs _cut].
  rewrite (inv_count _ _ _ _ Hinv).
  split; [intros r c Hrc; apply Hzero; lia |].
  split; [intros r c Hr; apply Hzero; lia |].
  split; [done |].
  intros r c. unfold lower. destruct (decide (c ≤ r)); [done |].
  symmetry. apply Hzero. lia.
Qed.

Lemma cut_is_lower_triangular_witness :
  ∃ s,
    construct (gaussian 1) scenarioInput [] scenarioOutput [] [] OFF
    = Returns s
    ∧ coeffM (_cut s) 0 1 = 0%R.
Proof.
  destruct (cut_is_lower_triangular (gaussian 1) scenarioInput []
              scenarioOutput [] [])
    as (s & Hrun & Hupper & _).
  - cbn. lia.
  - cbn. lia.
  - exists s. split; [exact Hrun |]. apply Hupper. lia.
Defined.

End pgreedy_further.

(** *** The consistent solve and clearing *)

Lemma Rsum_linear {A : Type} (w u v uv : A → R) (a b : R) (l : list A) :
  (∀ k, k ∈ l → uv k = (a * u k + b * v k)%R) →
  Rsum ((λ k, w k * uv k)%R <$> l)
  = (a * Rsum ((λ k, w k * u k)%R <$> l)
     + b * Rsum ((λ k, w k * v k)%R <$> l))%R.
Proof.
  intros Huv.
  rewrite (Rsum_ext _ (λ k, a * (w k * u k) + b * (w k * v k))%R).
  - by rewrite Rsum_plus, !Rsum_scal.
  - intros k Hk. rewrite (Huv k Hk). ring.
Qed.

Lemma coeff_axpby (a b : R) (x y : list R) (k : nat) :
  k < length x → k < length y →
  coeff (axpby a x b y) k = (a * coeff x k + b * coeff y k)%R.
Proof.
  intros Hx Hy. unfold axpby, coeff.
  rewrite lookup_zip_with.
  destruct (lookup_lt_is_Some_2 x k Hx) as [u ->].
  destruct (lookup_lt_is_Some_2 y k Hy) as [v ->]. done.
Qed.

Lemma length_axpby (a b : R) (x y : list R) :
  length y = length x → length (axpby a x b y) = length x.
Proof.
  intros Hlen. unfold axpby. rewrite length_zip_with. lia.
Qed.

Section pgreedy_solve.
Import mesh PGreedy.

Lemma indexed_agree (x y : list R) (ids : list nat) :
  (∀ id, id ∈ ids → x !! id = y !! id) → indexed x ids = indexed y ids.
Proof.
  induction ids as [|id ids IH]; intros Hagree; [done |].
  cbn [indexed]. unfold readAt. rewrite (Hagree id) by left.
  rewrite IH; [done |]. intros id' Hid'. apply Hagree. by right.
Qed.

Lemma indexed_short (x : list R) (ids : list nat) (id : nat) :
  id ∈ ids → length x ≤ id → indexed x ids = Aborts OutOfRange.
Proof.
  intros Hid Hshort. induction ids as [|id' ids IH].
  - by apply elem_of_nil in Hid.
  - cbn [indexed]. unfold readAt.
    destruct (x !! id') as [u|] eqn:Hu; [| done].
    rewrite bind_Returns. apply elem_of_cons in Hid as [->|Hid].
    + apply lookup_lt_Some in Hu. lia.
    + by rewrite IH.
Qed.

(** X24 ([solveConsistent] reads the input data only at the centers).  Two
    input vectors that agree at every center index have the same outcome
    under [solveConsistent], whatever their other entries and lengths and
    whatever the polynomial argument. *)
Theorem solveConsistent_reads_the_centers_only (s : PGreedySolver)
    (inputData inputData' : list R) (polynomial polynomial' : Polynomial) :
  (∀ id, id ∈ _greedyIDs s → inputData !! id = inputData' !! id) →
  solveConsistent s inputData polynomial
  = solveConsistent s inputData' polynomial'.
Proof.
  intros Hagree. unfold solveConsistent.
  by rewrite (indexed_agree inputData inputData').
Qed.

Lemma solveConsistent_reads_the_centers_only_witness :
  solveConsistent scenarioSolver [5; 7]%R OFF
  = solveConsistent scenarioSolver [5]%R SEPARATE.
Proof.
  apply (solveConsistent_reads_the_centers_only scenarioSolver).
  intros id Hid. apply list_elem_of_singleton in Hid as ->. reflexivity.
Defined.

(** X25 ([solveConsistent] is linear).  For a solver whose [_cut] holds at
    least [|greedyIDs|] rows and columns and whose evaluation matrix has
    one row per center, and two input vectors of the same length that cover
    every center index: [solveConsistent] returns on both and on every
    combination [a * x + b * y] of them, and the prediction of the
    combination is the same combination of the two predictions. *)
Theorem solveConsistent_is_linear (s : PGreedySolver) (x y : list R)
    (a b : R) (polynomial : Polynomial) :
  Forall (λ id, id < length x) (_greedyIDs s) →
  length y = length x →
  length (_greedyIDs s) ≤ rows (_cut s) →
  length (_greedyIDs s) ≤ cols (_cut s) →
  rows (_kernel_eval s) = length (_greedyIDs s) →
  ∃ px py,
    solveConsistent s x polynomial = Returns px
    ∧ solveConsistent s y polynomial = Returns py
    ∧ solveConsistent s (axpby a x b y) polynomial
      = Returns (axpby a px b py).
Proof.
  intros Hids Hlen Hrows Hcols Heval.
  assert (Forall (λ id, id < length y) (_greedyIDs s)) as Hids'
    by (by rewrite Hlen).
  assert (Forall (λ id, id < length (axpby a x b y)) (_greedyIDs s)) as Hids''
    by (by rewrite length_axpby).
  unfold solveConsistent.
  rewrite !indexed_returns, !bind_Returns by done.
  rewrite !eigen_assert_holds, !bind_Returns by done.
  eexists _, _. split; [reflexivity |]. split; [reflexivity |]. f_equal.
  apply coeff_ext.
  { rewrite length_axpby; by rewrite !length_fmap, !length_seq. }
  intros j Hj. rewrite length_fmap, length_seq in Hj.
  rewrite coeff_axpby by (by rewrite length_fmap, length_seq).
  rewrite !coeff_fmap_seq by done.
  apply Rsum_linear. intros k Hk. apply elem_of_seq in Hk.
  rewrite !coeff_fmap_seq by lia.
  apply Rsum_linear. intros r Hr. apply elem_of_seq in Hr.
  rewrite !coeff_fmap_seq by lia.
  apply Rsum_linear. intros c Hc. apply elem_of_seq in Hc.
  rewrite !coeff_fmap_nth by lia.
  assert (nth c (_greedyIDs s) 0 < length x) as Hbound
    by (apply nth_Forall_lt; [done | lia]).
  apply coeff_axpby; lia.
Qed.

Lemma solveConsistent_is_linear_witness :
  ∃ px py,
    solveConsistent scenarioSolver [5]%R OFF = Returns px
    ∧ solveConsistent scenarioSolver [1]%R OFF = Returns py
    ∧ solveConsistent scenarioSolver (axpby 2 [5]%R 3 [1]%R) OFF
      = Returns (axpby 2 px 3 py).
Proof.
  apply (solveConsistent_is_linear scenarioSolver [5]%R [1]%R 2 3 OFF).
  - repeat constructor.
  - reflexivity.
  - cbn. lia.
  - cbn. lia.
  - reflexivity.
Defined.

(** X26 ([solveConsistent] on data that misses a center).  When the input
    vector has no entry at the index of some center, [solveConsistent] has
    no defined result: the read of that entry is outside the vector. *)
Theorem solveConsistent_needs_data_at_every_center (s : PGreedySolver)
    (inputData : list R) (polynomial : Polynomial) (id : nat) :
  id ∈ _greedyIDs s →
  length inputData ≤ id →
  solveConsistent s inputData polynomial = Aborts OutOfRange.
Proof.
  intros Hid Hshort. unfold solveConsistent.
  by rewrite (indexed_short inputData _ id).
Qed.

Lemma solveConsistent_needs_data_at_every_center_witness :
  solveConsistent scenarioSolver [] OFF = Aborts OutOfRange.
Proof.
  apply (solveConsistent_needs_data_at_every_center scenarioSolver [] OFF 0).
  - apply list_elem_of_here.
  - cbn. lia.
Defined.

(** X27 (sizes and [clear]).  On every non-empty input mesh the
    constructor returns a solver whose input and output sizes are the
    numbers of vertices of the two meshes.  After [clear] both sizes are
    0, there is no center, and [solveConsistent] returns the empty vector
    for every input; the power function is not released: it still has one
    entry per input vertex. *)
Theorem sizes_and_clear
    (basisFunction : RADIAL_BASIS_FUNCTION_T)
    (inputMesh : Mesh) (inputIDs : list nat) (outputMesh : Mesh)
    (outputIDs : list nat) (deadAxis : list bool) :
  0 < length (vertices inputMesh) →
  length deadAxis ≤ 3 →
  ∃ s,
    construct basisFunction inputMesh inputIDs outputMesh outputIDs deadAxis
              OFF = Returns s
    ∧ getInputSize s = length (vertices inputMesh)
    ∧ getOutputSize s = length (vertices outputMesh)
    ∧ getInputSize (clear s) = 0
    ∧ getOutputSize (clear s) = 0
    ∧ _greedyIDs (clear s) = []
    ∧ (∀ inputData polynomial,
         solveConsistent (clear s) inputData polynomial = Returns [])
    ∧ length (_powerFunction (clear s)) = length (vertices inputMesh).
Proof.
  intros HN Hdead.
  destruct (construct_reached basisFunction inputMesh outputMesh inputIDs
              outputIDs deadAxis HN Hdead)
    as (l & n & E & Hrun & Hreached & _).
  pose proof (reached_invariant _ _ _ _ _ Hreached) as Hinv.
  destruct (reached_cut _ _ _ _ _ Hreached) as (Hin & Hout & _).
  eexists. split; [exact Hrun |].
  unfold getInputSize, getOutputSize, clear.
  cbn [_inSize _outSize _greedyIDs _powerFunction].
  split; [done |]. split; [done |]. split; [done |]. split; [done |].
  split; [done |]. split; [| apply (inv_power _ _ _ _ Hinv)].
  intros inputData polynomial. unfold solveConsistent.
  cbn [_greedyIDs _cut _kernel_eval indexed length Zero rows cols coeffM].
  rewrite bind_Returns.
  by rewrite !eigen_assert_holds, !bind_Returns by (done || lia).
Qed.

Lemma sizes_and_clear_witness :
  ∃ s,
    construct (gaussian 1) scenarioInput [] scenarioOutput [] [] OFF
    = Returns s
    ∧ getInputSize s = 2
    ∧ getOutputSize s = 1
    ∧ solveConsistent (clear s) [1; 2]%R OFF = Returns [].
Proof.
  destruct (sizes_and_clear (gaussian 1) scenarioInput [] scenarioOutput
              [] [])
    as (s & Hrun & Hin & Hout & _ & _ & _ & Hsolve & _).
  - cbn. lia.
  - cbn. lia.
  - exists s. split; [exact Hrun |]. split; [exact Hin |].
    split; [exact Hout |]. apply Hsolve.
Defined.

End pgreedy_solve.
